(** * PS-Decode: the rewriting rules of [psdecode.py]

    A shallow embedding of the functions of [psdecode.py] that rewrite the
    lines of a script, [deobfuscate_powershell_reorder], [remove_ticks],
    [concatenate], [title_case_line], [title_case_script] and
    [add_new_lines_at_semicolons], together with the part of Python's [re]
    and [str] libraries that they rely on, followed by the properties of
    the resolver that the specification states and by further properties
    of every rule.  [detect_encoding] and [main] read files and the
    keyboard and are not part of the development.

    Text is a list of Unicode code points.  Python's classification of the
    code points above 127 ([str.isspace], [str.isalnum], decimal digits) is
    not part of the repository and is taken as a parameter; the ASCII range
    is written out.

    A run returns a value, raises one of Python's exceptions, or is still in
    a [while] loop (lines 95-124, lines 156-164) when its fuel, the number
    of turns it may make on a line, is used up.  [int] has the digit limit
    of CPython 3.11: a run of more than 4300 digits raises ValueError.
    Line numbers are those of [psdecode.py]. *)

From Stdlib Require Import NArith String Ascii Lia.
From stdpp Require Import base option list gmap pretty.

Local Open Scope N_scope.

(** ** Text *)

Abbreviation text := (list N).

Definition ch (a : ascii) : N := N_of_ascii a.

Definition txt (s : string) : text := N_of_ascii <$> list_ascii_of_string s.

Definition dquote : N := 34.
Definition squote : N := 39.
Definition backtick : N := 96.
Definition newline : N := 10.
Definition hash : N := 35.

(** ** Outcomes of a run: a value, a Python exception, or a loop that was
    still running when the fuel ran out *)

Inductive exn := ValueError | OverflowError | IndexError | KeyError.

Inductive outcome (A : Type) :=
| Done (a : A)
| Raise (e : exn)
| OutOfFuel.
Arguments Done {A} a.
Arguments Raise {A} e.
Arguments OutOfFuel {A}.

Global Instance outcome_bind : MBind outcome := λ A B f m,
  match m with
  | Done a => f a
  | Raise e => Raise e
  | OutOfFuel => OutOfFuel
  end.

(** A [for] loop whose body threads a state and may raise. *)
Fixpoint for_each {S A} (body : S → A → outcome S) (st : S) (l : list A)
  : outcome S :=
  match l with
  | [] => Done st
  | a :: l' => st' ← body st a; for_each body st' l'
  end.

(** One result per element, in order; the first exception aborts. *)
Fixpoint map_each {A B} (f : A → outcome B) (l : list A) : outcome (list B) :=
  match l with
  | [] => Done []
  | a :: l' => b ← f a; bs ← map_each f l'; Done (b :: bs)
  end.

Definition or_raise {A} (e : exn) (o : option A) : outcome A :=
  match o with Some a => Done a | None => Raise e end.

(** ** [str.replace], [str.strip], [str(n)], [int(s, 10)], [chr(n)] *)

Fixpoint strip_prefix (p s : text) : option text :=
  match p, s with
  | [], _ => Some s
  | a :: p', b :: s' => if a =? b then strip_prefix p' s' else None
  | _ :: _, [] => None
  end.

(** Left to right, non-overlapping occurrences of a non-empty [old]. *)
Fixpoint replace_go (old new : text) (fuel : nat) (s : text) : text :=
  match fuel with
  | O => s
  | S f =>
      match strip_prefix old s with
      | Some rest => new ++ replace_go old new f rest
      | None =>
          match s with
          | [] => []
          | c :: s' => c :: replace_go old new f s'
          end
      end
  end.

(** [s.replace(old, new)]; with an empty [old] Python puts [new] before
    every character and at the end. *)
Definition replace (old new s : text) : text :=
  match old with
  | [] => new ++ flat_map (λ c, c :: new) s
  | _ :: _ => replace_go old new (length s) s
  end.
Global Arguments replace : simpl never.

(** [str(n)] for a non-negative integer. *)
Definition str_of_N (n : N) : text := txt (pretty n).

(** [chr(n)]: the argument is parsed as a C int, then range-checked. *)
Definition chr (n : N) : outcome text :=
  if n <? 1114112 then Done [n]
  else if n <? 2147483648 then Raise ValueError
  else Raise OverflowError.

(** ** The regular-expression fragment used by the program *)

(** An item of a character set [[...]] or a lone escape. *)
Inductive citem :=
| CChar (c : N)     (* a literal member *)
| CDigit            (* \d *)
| CWord             (* \w *)
| CSpace.           (* \s *)

Inductive regex :=
| Eps
| Lit (c : N)                  (* a literal character *)
| Star (cls : list citem)      (* greedy  x*  over a set *)
| Plus (cls : list citem)      (* greedy  x+  over a set *)
| Cat (r1 r2 : regex)
| Grp (r : regex).             (* a capturing group *)

Definition cat (rs : list regex) : regex := foldr Cat Eps rs.

Definition lits (s : string) : regex := cat (Lit <$> txt s).

(** A match object: [group()] and [groups()]. *)
Record rematch := { m_group : text; m_groups : list text }.

(** [m.groups()[i]]; every group of the program's patterns takes part in
    every match, so the default is never reached. *)
Definition group_n (m : rematch) (i : nat) : text := default [] (m_groups m !! i).

(** Python's character tables above the ASCII range. *)
Record unicode_db := {
  uni_isspace : N → bool;        (* whitespace above 127 *)
  uni_isalnum : N → bool;        (* alphanumeric above 127 *)
  uni_decimal : N → option N     (* decimal digit value above 127 *)
}.

(** A table that knows no code point above 127; a run on ASCII text never
    consults the table. *)
Definition ascii_only : unicode_db :=
  {| uni_isspace := λ _, false; uni_isalnum := λ _, false; uni_decimal := λ _, None |}.

Section Resolver.
Context (uni : unicode_db).

Definition is_ascii (c : N) : bool := c <? 128.

(** [str.isspace], which is also [\s] and what [strip] removes. *)
Definition is_space (c : N) : bool :=
  if is_ascii c
  then ((9 <=? c) && (c <=? 13)) || ((28 <=? c) && (c <=? 32))
  else uni_isspace uni c.

(** Decimal digit value: [\d] matches where it is defined, [int] uses it. *)
Definition digit_value (c : N) : option N :=
  if is_ascii c
  then (if (48 <=? c) && (c <=? 57) then Some (c - 48) else None)
  else uni_decimal uni c.

Definition is_digit (c : N) : bool :=
  match digit_value c with Some _ => true | None => false end.

Definition is_upper (c : N) : bool := (65 <=? c) && (c <=? 90).
Definition is_lower (c : N) : bool := (97 <=? c) && (c <=? 122).

(** [\w]: alphanumeric or underscore. *)
Definition is_word (c : N) : bool :=
  if is_ascii c
  then is_upper c || is_lower c || is_digit c || (c =? 95)
  else uni_isalnum uni c || is_digit c.

Definition in_item (c : N) (it : citem) : bool :=
  match it with
  | CChar x => c =? x
  | CDigit => is_digit c
  | CWord => is_word c
  | CSpace => is_space c
  end.

Definition in_class (cls : list citem) (c : N) : bool := existsb (in_item c) cls.

Definition to_lower (c : N) : N := if is_upper c then c + 32 else c.

(** A literal of the pattern against a character of the text.  Under
    IGNORECASE an ASCII letter also matches its other case; of the letters
    that occur in this program's patterns (c h a r f s u b) only s has a
    case-equivalent above 127, the long s U+017F. *)
Definition lit_eq (ic : bool) (p c : N) : bool :=
  if ic
  then (to_lower c =? to_lower p) || ((to_lower p =? 115) && (c =? 383))
  else c =? p.

(** Greedy repetition of a one-character test, longest first.  The
    continuation receives the characters consumed and the rest. *)
Fixpoint star {R} (p : N → bool) (s : text) (k : text → text → option R)
  : option R :=
  match s with
  | c :: s' =>
      if p c
      then match star p s' (λ m rest, k (c :: m) rest) with
           | Some r => Some r
           | None => k [] s
           end
      else k [] s
  | [] => k [] []
  end.

(** Backtracking matcher in continuation-passing style: [k] receives the
    text consumed by [r], the rest of the text and the groups closed so far. *)
Fixpoint rmatch {R} (ic : bool) (r : regex) (s : text) (caps : list text)
    (k : text → text → list text → option R) : option R :=
  match r with
  | Eps => k [] s caps
  | Lit p =>
      match s with
      | c :: s' => if lit_eq ic p c then k [c] s' caps else None
      | [] => None
      end
  | Star cls => star (in_class cls) s (λ m rest, k m rest caps)
  | Plus cls =>
      match s with
      | c :: s' =>
          if in_class cls c
          then star (in_class cls) s' (λ m rest, k (c :: m) rest caps)
          else None
      | [] => None
      end
  | Cat r1 r2 =>
      rmatch ic r1 s caps
        (λ m1 s1 caps1, rmatch ic r2 s1 caps1 (λ m2 s2 caps2, k (m1 ++ m2) s2 caps2))
  | Grp r1 => rmatch ic r1 s caps (λ m rest caps', k m rest (caps' ++ [m]))
  end.

(** [re.match]: a match that starts at the first character; the result is
    the match object and the text after it. *)
Definition match_at (ic : bool) (r : regex) (s : text) : option (rematch * text) :=
  rmatch ic r s [] (λ m rest caps, Some ({| m_group := m; m_groups := caps |}, rest)).

(** [re.search]: the leftmost match, with the text before and after it. *)
Fixpoint search (ic : bool) (r : regex) (s : text)
  : option (text * rematch * text) :=
  match match_at ic r s with
  | Some (m, rest) => Some ([], m, rest)
  | None =>
      match s with
      | [] => None
      | c :: s' =>
          match search ic r s' with
          | Some (before, m, rest) => Some (c :: before, m, rest)
          | None => None
          end
      end
  end.

(** [re.finditer]: successive non-overlapping matches, each search resuming
    where the previous match ended (one character further after an empty
    match; no pattern of this program matches the empty text). *)
Fixpoint finditer_go (fuel : nat) (ic : bool) (r : regex) (s : text)
  : list rematch :=
  match fuel with
  | O => []
  | S f =>
      match search ic r s with
      | None => []
      | Some (_, m, rest) =>
          m :: match m_group m, rest with
               | [], [] => []
               | [], _ :: rest' => finditer_go f ic r rest'
               | _ :: _, _ => finditer_go f ic r rest
               end
      end
  end.

Definition finditer (ic : bool) (r : regex) (s : text) : list rematch :=
  finditer_go (S (length s)) ic r s.

(** [re.findall] for a pattern with exactly one group. *)
Definition findall (ic : bool) (r : regex) (s : text) : list text :=
  (λ m, group_n m 0) <$> finditer ic r s.

Fixpoint lstrip (s : text) : text :=
  match s with
  | c :: s' => if is_space c then lstrip s' else s
  | [] => []
  end.

Definition rstrip (s : text) : text := reverse (lstrip (reverse s)).

Definition strip (s : text) : text := rstrip (lstrip s).

(** The number that a run of decimal digits writes. *)
Definition decimal_value (s : text) : N :=
  foldl (λ acc c, 10 * acc + default 0 (digit_value c)) 0 s.

(** [int(s, 10)] on a run of decimal digits: CPython refuses a run of more
    than 4300 digits, leading zeros counted, with ValueError. *)
Definition int10 (s : text) : outcome N :=
  if (4300 <? length s)%nat then Raise ValueError else Done (decimal_value s).

(** ** The patterns of [deobfuscate_powershell_reorder] *)

(** charset = r"\w|\d|\n|\s|,|.|\-|=|/|:|#|_|{|}|\[|\]", read as the body of
    a character set: every bar is a member. *)
Definition bar : citem := CChar (ch "|").

Definition charset : list citem :=
  [ CWord; bar; CDigit; bar; CChar newline; bar; CSpace; bar;
    CChar (ch ","); bar; CChar (ch "."); bar; CChar (ch "-"); bar;
    CChar (ch "="); bar; CChar (ch "/"); bar; CChar (ch ":"); bar;
    CChar hash; bar; CChar (ch "_"); bar; CChar (ch "{"); bar;
    CChar (ch "}"); bar; CChar (ch "["); bar; CChar (ch "]") ].

(** regex_finder = r"\(\"([{\d+}]+)\"\s*-f\s*(['" + charset + "',]+)\)" *)
Definition regex_finder : regex :=
  cat [ Lit (ch "("); Lit dquote;
        Grp (Plus [CChar (ch "{"); CDigit; CChar (ch "+"); CChar (ch "}")]);
        Lit dquote; Star [CSpace]; Lit (ch "-"); Lit (ch "f"); Star [CSpace];
        Grp (Plus (CChar squote :: charset ++ [CChar squote; CChar (ch ",")]));
        Lit (ch ")") ].

(** regex_position = r"{(\d+)}" *)
Definition regex_position : regex :=
  cat [ Lit (ch "{"); Grp (Plus [CDigit]); Lit (ch "}") ].

(** regex_content = r"'([" + charset + "]+)'" *)
Definition regex_content : regex :=
  cat [ Lit squote; Grp (Plus charset); Lit squote ].

(** regex_placeholder = r"({#subs_\d+})" *)
Definition regex_placeholder : regex :=
  Grp (cat [ lits "{#subs_"; Plus [CDigit]; Lit (ch "}") ]).

(** regex_char = r"\[char\](\d+)" *)
Definition regex_char : regex :=
  cat [ lits "[char]"; Grp (Plus [CDigit]) ].

(** ** The function *)

(** The per-line variables of the loop body. *)
Record state := {
  content : text;
  count_matches : N;
  occurrences : gmap text text
}.

Definition quoted (s : text) : text := [squote] ++ s ++ [squote].

(** Lines 87-92: one iteration of the character-code loop. *)
Definition char_step (content : text) (word : rematch) : outcome text :=
  let total := m_group word in
  letter ← int10 (group_n word 0);
  c ← chr letter;
  let content := replace total (quoted c) content in
  Done (replace [backtick] [] content).

Definition char_prepass (line : text) : outcome text :=
  for_each char_step line (finditer true regex_char line).

(** Lines 113-118: assemble the fragments in template order. *)
Definition resolve_step (occ : gmap text text) (contents : list text)
    (out : text) (p : text) : outcome text :=
  index ← int10 p;
  frag ← or_raise IndexError (contents !! N.to_nat index);
  match match_at false regex_placeholder frag with
  | Some _ =>
      v ← or_raise KeyError (occ !! quoted frag);
      Done (out ++ v)
  | None => Done (out ++ strip frag)
  end.

(** Lines 97-124: the body of the loop over the matches of one sweep. *)
Definition sweep_step (st : state) (word : rematch) : outcome state :=
  let positions :=
    findall true regex_position (strip (replace [newline] [] (group_n word 0))) in
  let contents :=
    findall true regex_content (strip (replace [newline] [] (group_n word 1))) in
  if Nat.eqb (length positions) (length contents) then
    out ← for_each (resolve_step (occurrences st) contents) [] positions;
    let placeholder := quoted (txt "{#subs_" ++ str_of_N (count_matches st) ++ txt "}") in
    Done {| content := replace (m_group word) placeholder (content st);
            count_matches := count_matches st + 1;
            occurrences := <[placeholder := out]> (occurrences st) |}
  else Done st.

(** The matches of a sweep are those of the text at its start. *)
Definition sweep (st : state) : outcome state :=
  for_each sweep_step st (finditer true regex_finder (content st)).

(** Lines 95-124: the [while] loop; [fuel] bounds the number of sweeps. *)
Fixpoint scanning (fuel : nat) (st : state) : outcome state :=
  match fuel with
  | O => OutOfFuel
  | S f =>
      match search true regex_finder (content st) with
      | Some _ => st' ← sweep st; scanning f st'
      | None => Done st
      end
  end.

(** Lines 127-131: the final replacement of the placeholders. *)
Definition expand_step (occ : gmap text text) (content : text) (word : rematch)
  : outcome text :=
  v ← or_raise KeyError (occ !! quoted (m_group word));
  Done (replace (quoted (m_group word)) v content).

Definition expanding (st : state) : outcome text :=
  for_each (expand_step (occurrences st)) (content st)
    (finditer true regex_placeholder (content st)).

Definition initial (c : text) : state :=
  {| content := c; count_matches := 0; occurrences := ∅ |}.

(** Lines 81-134: one line. *)
Definition deobfuscate_line (fuel : nat) (line : text) : outcome text :=
  c ← char_prepass line;
  st ← scanning fuel (initial c);
  expanding st.

(** Lines 52-137. *)
Definition deobfuscate_powershell_reorder (fuel : nat) (lines : list text)
  : outcome (list text) :=
  map_each (deobfuscate_line fuel) lines.

(** ** The other rewriting rules of the menu *)

(** *** [remove_ticks] (lines 141-143) *)

(** [line[:-1].replace('`', '') + line[-1]]; [line[-1]] raises IndexError
    on the empty text. *)
Definition remove_ticks (line : text) : outcome text :=
  let body := replace [backtick] [] (take (length line - 1) line) in
  c ← or_raise IndexError (last line);
  Done (body ++ [c]).

(** *** [add_new_lines_at_semicolons] (lines 183-187) *)

Definition semicolon : N := 59.

(** [s.split(sep)] for a separator of one character: the pieces between
    the separators, the empty ones included; there is always one piece. *)
Fixpoint split (sep : N) (s : text) : list text :=
  match s with
  | [] => [[]]
  | c :: s' =>
      if c =? sep then [] :: split sep s'
      else match split sep s' with
           | piece :: pieces => (c :: piece) :: pieces
           | [] => [[c]]
           end
  end.

Definition add_new_lines_at_semicolons (lines : list text) : list text :=
  let new_lines :=
    lines ≫= (λ line, split newline (replace [semicolon] [semicolon; newline] line)) in
  (λ line, line ++ [newline]) <$> filter (λ line, line ≠ []) new_lines.

(** *** The patterns of [concatenate] and [title_case_line]

    They use what the patterns of the resolver do not: ranges and negation
    in a set, numbered groups with back-references, and the word boundary.
    Neither is compiled with IGNORECASE. *)

Inductive sitem :=
| SChar (c : N)          (* a literal member *)
| SRange (lo hi : N)     (* lo-hi *)
| SSpace.                (* \s *)

Inductive pattern :=
| PEps
| PSet (neg : bool) (items : list sitem)    (* one character of [...] or [^...] *)
| PStar (neg : bool) (items : list sitem)   (* greedy  x*  over a set *)
| PPlus (neg : bool) (items : list sitem)   (* greedy  x+  over a set *)
| PCat (p1 p2 : pattern)
| PGrp (n : nat) (p : pattern)              (* the capturing group number n *)
| PRef (n : nat)                            (* \n outside a set *)
| PBoundary.                                (* \b *)

Definition pcat (ps : list pattern) : pattern := foldr PCat PEps ps.

Definition in_sitem (c : N) (it : sitem) : bool :=
  match it with
  | SChar x => c =? x
  | SRange lo hi => (lo <=? c) && (c <=? hi)
  | SSpace => is_space c
  end.

Definition in_set (neg : bool) (items : list sitem) (c : N) : bool :=
  xorb neg (existsb (in_sitem c) items).

(** The character before the position of the matcher, if there is one,
    once [m] has been consumed after [prev]. *)
Definition last_of (prev : option N) (m : text) : option N :=
  match last m with Some c => Some c | None => prev end.

(** [\b]: exactly one of the characters before and after the position is
    a word character; the ends of the text count as none. *)
Definition at_boundary (prev : option N) (s : text) : bool :=
  xorb (from_option is_word false prev) (from_option is_word false (head s)).

(** A match object: [group(0)] and the numbered groups. *)
Record pmatched := { p_group : text; p_groups : gmap nat text }.

(** [m.group(n)] for a group that took part in the match. *)
Definition group (m : pmatched) (n : nat) : text := default [] (p_groups m !! n).

(** The backtracking matcher again, with the character before the position
    and the numbered groups threaded along. *)
Fixpoint pmatch {R} (p : pattern) (prev : option N) (s : text) (caps : gmap nat text)
    (k : text → option N → text → gmap nat text → option R) : option R :=
  match p with
  | PEps => k [] prev s caps
  | PSet neg items =>
      match s with
      | c :: s' => if in_set neg items c then k [c] (Some c) s' caps else None
      | [] => None
      end
  | PStar neg items =>
      star (in_set neg items) s (λ m rest, k m (last_of prev m) rest caps)
  | PPlus neg items =>
      match s with
      | c :: s' =>
          if in_set neg items c
          then star (in_set neg items) s'
                 (λ m rest, k (c :: m) (last_of (Some c) m) rest caps)
          else None
      | [] => None
      end
  | PCat p1 p2 =>
      pmatch p1 prev s caps
        (λ m1 prev1 s1 caps1,
           pmatch p2 prev1 s1 caps1 (λ m2 prev2 s2 caps2, k (m1 ++ m2) prev2 s2 caps2))
  | PGrp n p1 =>
      pmatch p1 prev s caps (λ m prev' rest caps', k m prev' rest (<[n := m]> caps'))
  | PRef n =>
      match caps !! n with
      | Some g =>
          match strip_prefix g s with
          | Some rest => k g (last_of prev g) rest caps
          | None => None
          end
      | None => None
      end
  | PBoundary => if at_boundary prev s then k [] prev s caps else None
  end.

(** A match that starts at the position after [prev]. *)
Definition pmatch_at (p : pattern) (prev : option N) (s : text)
  : option (pmatched * text) :=
  pmatch p prev s ∅ (λ m _ rest caps, Some ({| p_group := m; p_groups := caps |}, rest)).

(** [re.search] from the position after [prev]: the leftmost match, with
    the text before and after it. *)
Fixpoint psearch (p : pattern) (prev : option N) (s : text)
  : option (text * pmatched * text) :=
  match pmatch_at p prev s with
  | Some (m, rest) => Some ([], m, rest)
  | None =>
      match s with
      | [] => None
      | c :: s' =>
          match psearch p (Some c) s' with
          | Some (before, m, rest) => Some (c :: before, m, rest)
          | None => None
          end
      end
  end.

(** [re.sub(pattern, repl, s)] with a function [repl]: the text between
    the successive matches is kept, each match gives way to what [repl]
    makes of it (after an empty match the search resumes one character
    further; neither pattern of this program matches the empty text). *)
Fixpoint sub_go (fuel : nat) (p : pattern) (repl : pmatched → text)
    (prev : option N) (s : text) : text :=
  match fuel with
  | O => s
  | S f =>
      match psearch p prev s with
      | None => s
      | Some (before, m, rest) =>
          before ++ repl m ++
          match p_group m, rest with
          | [], [] => []
          | [], c :: rest' => c :: sub_go f p repl (Some c) rest'
          | _ :: _, _ =>
              sub_go f p repl (last_of (last_of prev before) (p_group m)) rest
          end
      end
  end.

Definition sub (p : pattern) (repl : pmatched → text) (s : text) : text :=
  sub_go (S (length s)) p repl None s.

(** *** [concatenate] (lines 147-167) *)

Definition quote_set : list sitem := [SChar squote; SChar dquote].

(** pattern = r"((['\"])([^\2]+)\2\s*\+\s*(['\"])([^\4]+)\4)": inside a
    set, \2 and \4 are the characters of code 2 and 4, not groups. *)
Definition pattern_concat : pattern :=
  PGrp 1 (pcat [ PGrp 2 (PSet false quote_set);
                 PGrp 3 (PPlus true [SChar 2]);
                 PRef 2;
                 PStar false [SSpace]; PSet false [SChar (ch "+")]; PStar false [SSpace];
                 PGrp 4 (PSet false quote_set);
                 PGrp 5 (PPlus true [SChar 4]);
                 PRef 4 ]).

(** Lines 158-161: the body of the loop. *)
Definition concatenate_step (line : text) (m : pmatched) : text :=
  let full_string := group m 3 ++ group m 5 in
  replace (p_group m) (group m 2 ++ full_string ++ group m 2) line.

(** Lines 153-167; [fuel] bounds the number of turns of the [while] loop. *)
Fixpoint concatenate (fuel : nat) (line : text) : outcome text :=
  match fuel with
  | O => OutOfFuel
  | S f =>
      match psearch pattern_concat None line with
      | Some (_, m, _) => concatenate f (concatenate_step line m)
      | None => Done line
      end
  end.

(** *** [title_case_line] and [title_case_script] (lines 171-179) *)

Definition to_upper (c : N) : N := if is_lower c then c - 32 else c.

(** [str.title] on ASCII text, the only text the program applies it to:
    a letter that follows a letter becomes lower case, any other letter
    upper case. *)
Fixpoint title_go (previous_is_cased : bool) (s : text) : text :=
  match s with
  | [] => []
  | c :: s' =>
      (if previous_is_cased then to_lower c else to_upper c)
      :: title_go (is_upper c || is_lower c) s'
  end.

Definition title (s : text) : text := title_go false s.

(** r'\b[a-zA-Z0-9_:]+\b' *)
Definition word_set : list sitem :=
  [ SRange (ch "a") (ch "z"); SRange (ch "A") (ch "Z"); SRange (ch "0") (ch "9");
    SChar (ch "_"); SChar (ch ":") ].

Definition pattern_word : pattern :=
  pcat [ PBoundary; PPlus false word_set; PBoundary ].

Definition title_case_word (m : pmatched) : text := title (p_group m).

Definition title_case_line (line : text) : text :=
  sub pattern_word title_case_word line.

Definition title_case_script (lines : list text) : list text :=
  title_case_line <$> lines.

(** ** Vocabulary of the properties *)

(** A digit run that [chr(int(...))] accepts: within the digit limit of
    [int], and the number of a code point. *)
Definition code_point (ds : text) : Prop :=
  (length ds ≤ 4300)%nat ∧ decimal_value ds < 1114112.

(** What [chr(int(ds))] raises on any other digit run: OverflowError when
    [int] accepts the run and the number is 2^31 or more, ValueError
    otherwise, from [int] on more than 4300 digits and from [chr] below
    2^31. *)
Definition escape_error (ds : text) : exn :=
  if (length ds <=? 4300)%nat && (2147483648 <=? decimal_value ds)
  then OverflowError else ValueError.

(** What a pattern matches, and the groups it closes, as a relation: the
    matcher is sound for it. *)
Inductive denotes (ic : bool) : regex → text → list text → Prop :=
| den_eps : denotes ic Eps [] []
| den_lit p c : lit_eq ic p c = true → denotes ic (Lit p) [c] []
| den_star cls m :
    Forall (λ c, in_class cls c = true) m → denotes ic (Star cls) m []
| den_plus cls c m :
    in_class cls c = true → Forall (λ c, in_class cls c = true) m →
    denotes ic (Plus cls) (c :: m) []
| den_cat r1 r2 m1 m2 c1 c2 :
    denotes ic r1 m1 c1 → denotes ic r2 m2 c2 →
    denotes ic (Cat r1 r2) (m1 ++ m2) (c1 ++ c2)
| den_grp r m c : denotes ic r m c → denotes ic (Grp r) m (c ++ [m]).

(** A run that ended within its fuel: it returned or it raised. *)
Definition finished {A} (r : outcome A) : Prop :=
  match r with OutOfFuel => False | _ => True end.

(** [s] begins with the text [p]. *)
Definition starts_with (p s : text) : bool :=
  match strip_prefix p s with Some _ => true | None => false end.

(** [test] holds of the text from some place of [s] on, the end of [s]
    included. *)
Fixpoint somewhere (test : text → bool) (s : text) : bool :=
  test s || match s with [] => false | _ :: s' => somewhere test s' end.

(** The text [p] occurs in [s]: Python's [p in s]. *)
Definition holds (p s : text) : bool := somewhere (starts_with p) s.

(** The two characters a reorder expression opens with, a parenthesis and
    a double quote, and the two a placeholder opens with. *)
Definition opening : text := [ch "("; dquote].
Definition token_opening : text := [ch "{"; hash].

(** The text begins with a character-code escape: [char] in either letter
    case, and a decimal digit. *)
Definition at_escape (s : text) : bool :=
  match s with
  | c0 :: c1 :: c2 :: c3 :: c4 :: c5 :: d :: _ =>
      lit_eq true (ch "[") c0 && lit_eq true (ch "c") c1 && lit_eq true (ch "h") c2
      && lit_eq true (ch "a") c3 && lit_eq true (ch "r") c4 && lit_eq true (ch "]") c5
      && is_digit d
  | _ => false
  end.

(** A line with nothing the function looks for: it holds neither the
    opening of a reorder expression, nor a character-code escape, nor the
    opening of a placeholder. *)
Definition clean_line (line : text) : Prop :=
  holds opening line = false ∧
  somewhere at_escape line = false ∧
  holds token_opening line = false.

(** A reorder expression in the words of the specification (section 3) and
    the syntax of its examples: a quoted template string, then the reorder
    operator, then a comma-separated list of quoted fragments, all enclosed
    in parentheses.  The template is in double quotes, a fragment in single
    quotes; white space may stand around the operator and the commas. *)
Definition quoted_by (q : N) (s : text) : Prop :=
  ∃ body, s = [q] ++ body ++ [q] ∧ Forall (λ c, c ≠ q) body.

Definition blank (w : text) : Prop := Forall (λ c, is_space c = true) w.

Inductive fragment_list : text → Prop :=
| fragment_last f : quoted_by squote f → fragment_list f
| fragment_more f w1 w2 l :
    quoted_by squote f → blank w1 → blank w2 → fragment_list l →
    fragment_list (f ++ w1 ++ txt "," ++ w2 ++ l).

Definition reorder_expression (e : text) : Prop :=
  ∃ template w1 op w2 fragments,
    quoted_by dquote template ∧ blank w1 ∧ (op = txt "-f" ∨ op = txt "-F") ∧
    blank w2 ∧ fragment_list fragments ∧
    e = txt "(" ++ template ++ w1 ++ op ++ w2 ++ fragments ++ txt ")".

Definition holds_reorder_expression (line : text) : Prop :=
  ∃ pre e post, reorder_expression e ∧ line = pre ++ e ++ post.

(** The text ("template" -f fragments). *)
Definition reorder_expr (template fragments : string) : text :=
  txt "(" ++ [dquote] ++ txt template ++ [dquote] ++ txt " -f " ++ txt fragments ++ txt ")".

Definition expr_CAB : text := reorder_expr "{2}{0}{1}" "'A','B','C'".
Definition expr_out_of_range : text := reorder_expr "{5}" "'A'".
Definition expr_mismatch : text := reorder_expr "{0}{1}" "'A','B','C'".

(** A line with a resolvable expression and a bare placeholder shape. *)
Definition line_bare_token : text := reorder_expr "{0}" "'A'" ++ txt " {#subs_0}".

(** An expression with another one as its second fragment:
    ("{1}{0}" -f 'b',("{1}{0}" -f 'd','c')). *)
Definition line_nested : text :=
  txt "(" ++ [dquote] ++ txt "{1}{0}" ++ [dquote] ++ txt " -f 'b',"
  ++ reorder_expr "{1}{0}" "'d','c'" ++ txt ")".

Definition ascii_digit (c : N) : Prop := 48 ≤ c ≤ 57.

(** The placeholder of number [n], without and with its quotes (line 121). *)
Definition token_body (n : N) : text := txt "{#subs_" ++ str_of_N n ++ txt "}".

Definition token (n : N) : text := quoted (token_body n).

Local Arguments token : simpl never.
Local Arguments token_body : simpl never.

(** The match objects of [expr_CAB] and of a placeholder. *)
Definition match_CAB : rematch :=
  {| m_group := expr_CAB; m_groups := [txt "{2}{0}{1}"; txt "'A','B','C'"] |}.

Definition match_token (n : N) : rematch :=
  {| m_group := token_body n; m_groups := [token_body n] |}.

(** The expression after a text of the placeholder shape. *)
Definition line_token_before : text := txt "'{#subs_0}" ++ expr_CAB.




Definition hash_free (s : text) : Prop := Forall (λ c, c ≠ hash) s.

(** The content and every table value are over the alphabet [P]. *)
Definition over (P : N → Prop) (st : state) : Prop :=
  Forall P (content st) ∧ map_Forall (λ _ v, Forall P v) (occurrences st).

(** Text made of plain characters and placeholders: while the loop runs on
    a line that had no [#], the text is a sequence of characters other than
    [#] and of whole placeholders that the loop has put there. *)
Inductive seg := Plain (c : N) | Tok (k : N).

Definition render_seg (sg : seg) : text :=
  match sg with Plain c => [c] | Tok k => token k end.

Definition render (segs : list seg) : text := concat (render_seg <$> segs).

Definition seg_ok (n : N) (sg : seg) : Prop :=
  match sg with Plain c => c ≠ hash | Tok k => k < n end.

Definition tokenized (n : N) (s : text) : Prop :=
  ∃ segs, Forall (seg_ok n) segs ∧ s = render segs.

(** The characters a placeholder is made of. *)
Definition tokchar (c : N) : bool :=
  existsb (N.eqb c) (txt "'{#subs_}") || ((48 <=? c) && (c <=? 57)).

(** The invariant of the scanning loop: the text is tokenized, every
    placeholder the loop has minted has a table entry, and no table value
    holds a [#]. *)
Definition scan_inv (st : state) : Prop :=
  tokenized (count_matches st) (content st) ∧
  (∀ k, k < count_matches st → is_Some (occurrences st !! token k)) ∧
  map_Forall (λ _ v, hash_free v) (occurrences st).

(** The placeholders of a tokenized text, in order. *)
Fixpoint toks (segs : list seg) : list N :=
  match segs with
  | [] => []
  | Plain _ :: segs' => toks segs'
  | Tok k :: segs' => k :: toks segs'
  end.

(** The text with every placeholder [k] replaced by the characters of [v]. *)
Fixpoint subst_tok (k : N) (v : text) (segs : list seg) : list seg :=
  match segs with
  | [] => []
  | Plain c :: segs' => Plain c :: subst_tok k v segs'
  | Tok j :: segs' =>
      if decide (j = k) then (Plain <$> v) ++ subst_tok k v segs'
      else Tok j :: subst_tok k v segs'
  end.

(** The number of opening parentheses of a text: every reorder expression
    holds one, no placeholder does. *)
Definition parens (s : text) : nat := length (filter (λ c, c = ch "(") s).

(** An expression that the guard of line 112 skips: its template and its
    fragment list have different lengths. *)
Definition mismatched (word : rematch) : Prop :=
  length (findall true regex_position (strip (replace [newline] [] (group_n word 0))))
  ≠ length (findall true regex_content (strip (replace [newline] [] (group_n word 1)))).

(** One turn of the [while] loop of lines 95-124. *)
Definition turn (st st' : state) : Prop :=
  is_Some (search true regex_finder (content st)) ∧ sweep st = Done st'.

(** A line that holds one statement: some text without a newline, in which
    a semicolon can only be the last character, and the newline that ends
    the line. *)
Definition one_statement (line : text) : Prop :=
  ∃ body, line = body ++ [newline] ∧ body ≠ [] ∧
          Forall (λ c, c ≠ newline) body ∧
          ∀ a b, body = a ++ semicolon :: b → b = [].

(** The characters of a placeholder with its quotes. *)
Definition token_alphabet : text := squote :: txt "{#subs_}0123456789".

(** A piece of a line after line 186: no newline, and a semicolon only as
    the last character. *)
Definition statement (p : text) : Prop :=
  Forall (λ c, c ≠ newline) p ∧ ∀ a b, p = a ++ semicolon :: b → b = [].

(** What a pattern of the second kind matches from a position: [prev] is
    the character before the position, [s] the text from there on, [m] the
    text matched and [rest] what follows it; the groups are threaded. *)
Inductive pdenotes :
  pattern → option N → text → gmap nat text → text → text → gmap nat text → Prop :=
| pden_eps prev s caps : pdenotes PEps prev s caps [] s caps
| pden_set neg items prev c s caps :
    in_set neg items c = true →
    pdenotes (PSet neg items) prev (c :: s) caps [c] s caps
| pden_star neg items prev m rest caps :
    Forall (λ c, in_set neg items c = true) m →
    pdenotes (PStar neg items) prev (m ++ rest) caps m rest caps
| pden_plus neg items prev c m rest caps :
    in_set neg items c = true → Forall (λ c, in_set neg items c = true) m →
    pdenotes (PPlus neg items) prev (c :: m ++ rest) caps (c :: m) rest caps
| pden_cat p1 p2 prev s caps m1 s1 caps1 m2 s2 caps2 :
    pdenotes p1 prev s caps m1 s1 caps1 →
    pdenotes p2 (last_of prev m1) s1 caps1 m2 s2 caps2 →
    pdenotes (PCat p1 p2) prev s caps (m1 ++ m2) s2 caps2
| pden_grp n p prev s caps m rest caps' :
    pdenotes p prev s caps m rest caps' →
    pdenotes (PGrp n p) prev s caps m rest (<[n := m]> caps')
| pden_ref n prev g rest caps :
    caps !! n = Some g → pdenotes (PRef n) prev (g ++ rest) caps g rest caps
| pden_boundary prev s caps :
    at_boundary prev s = true → pdenotes PBoundary prev s caps [] s caps.

(** The number of quote characters, single or double, of a text. *)
Definition is_quote (c : N) : Prop := c = squote ∨ c = dquote.

Definition quotes (s : text) : nat := length (filter is_quote s).

(** The pattern of [concatenate] after its first quoted text. *)
Definition pattern_concat_tail : pattern :=
  pcat [ PRef 2;
         PStar false [SSpace]; PSet false [SChar (ch "+")]; PStar false [SSpace];
         PGrp 4 (PSet false quote_set);
         PGrp 5 (PPlus true [SChar 4]);
         PRef 4 ].

(** A quoted text. *)
Definition literal (q : N) (a : text) : text := [q] ++ a ++ [q].

(** The same character up to the case of an ASCII letter. *)
Definition same_letter (c c' : N) : Prop := to_lower c = to_lower c'.

(** [str.isascii], character by character. *)
Definition ascii_text (s : text) : Prop := Forall (λ c, is_ascii c = true) s.

(** Whether the character before a position is a letter, is a word
    character; there is none at the start of the text. *)
Definition cased (prev : option N) : bool :=
  from_option (λ c, is_upper c || is_lower c) false prev.

Definition wordp (prev : option N) : bool := from_option is_word false prev.

(** A position that is not inside a word. *)
Definition fresh (prev : option N) (s : text) : Prop :=
  wordp prev && wordp (head s) = false.

(** The characters that [concatenate] may take out of a line: the quotes,
    the plus sign and white space. *)
Definition glue (c : N) : bool :=
  (c =? squote) || (c =? dquote) || (c =? ch "+") || is_space c.

(** A pattern that cannot tell two related characters apart: its sets
    hold both or neither, and it has no back-reference. *)
Fixpoint blind (R : N → N → Prop) (p : pattern) : Prop :=
  match p with
  | PEps | PBoundary => True
  | PSet neg items | PStar neg items | PPlus neg items =>
      ∀ c c', R c c' → in_set neg items c = in_set neg items c'
  | PCat p1 p2 => blind R p1 ∧ blind R p2
  | PGrp _ p1 => blind R p1
  | PRef _ => False
  end.

(** Two results of a search that agree up to related characters. *)
Definition found_alike (R : N → N → Prop) (x y : text * pmatched * text) : Prop :=
  Forall2 R x.1.1 y.1.1 ∧ Forall2 R (p_group x.1.2) (p_group y.1.2) ∧ Forall2 R x.2 y.2.

(** ** Lemmas *)

(** *** Loops *)

Lemma for_each_inv {S A} (I : S → Prop) (body : S → A → outcome S) l :
  (∀ st a st', a ∈ l → I st → body st a = Done st' → I st') →
  ∀ st st', I st → for_each body st l = Done st' → I st'.
Proof.
  induction l as [|a l IH]; intros Hstep st st' Hst Hrun; simpl in Hrun.
  - by injection Hrun as <-.
  - destruct (body st a) as [st1| |] eqn:Hb; try discriminate.
    apply (IH (λ st0 a0 st0' Ha, Hstep st0 a0 st0' (list_elem_of_further _ _ _ Ha)) st1);
      [|exact Hrun].
    eapply Hstep; [left| |]; eauto.
Qed.

Lemma map_each_length {A B} (f : A → outcome B) l out :
  map_each f l = Done out → length out = length l.
Proof.
  revert out. induction l as [|a l IH]; intros out H; simpl in H.
  - by injection H as <-.
  - destruct (f a); try discriminate. simpl in H.
    destruct (map_each f l) as [bs| |]; try discriminate.
    injection H as <-. simpl. f_equal. by apply IH.
Qed.

Lemma map_each_Done {A B} (f : A → outcome B) l out :
  map_each f l = Done out ↔ Forall2 (λ a b, f a = Done b) l out.
Proof.
  revert out. induction l as [|a l IH]; intros out; cbn [map_each].
  - split; [intros [= <-]; constructor|by intros ->%Forall2_nil_inv_l].
  - split.
    + destruct (f a) as [b| |] eqn:Ha; [|done|done]. cbn [mbind outcome_bind].
      destruct (map_each f l) as [bs| |] eqn:Hl; [|done|done].
      cbn [mbind outcome_bind]. intros [= <-]. constructor; [done|by apply IH].
    + intros (b & bs & Hb & Hbs & ->)%Forall2_cons_inv_l.
      rewrite Hb. cbn [mbind outcome_bind].
      apply IH in Hbs. by rewrite Hbs.
Qed.



(** *** [str.replace] *)

Lemma strip_prefix_Some p s rest :
  strip_prefix p s = Some rest ↔ s = p ++ rest.
Proof.
  revert s. induction p as [|a p IH]; intros s; simpl.
  - split; [by intros [= ->]|by intros ->].
  - destruct s as [|b s]; [split; done|].
    destruct (N.eqb_spec a b) as [->|Hne].
    + rewrite IH. split; [by intros ->|by intros [= ->]].
    + split; [done|]. intros [= ? ?]. done.
Qed.

Lemma strip_prefix_app p rest : strip_prefix p (p ++ rest) = Some rest.
Proof. by apply strip_prefix_Some. Qed.

Lemma strip_prefix_head_ne a p b s : a ≠ b → strip_prefix (a :: p) (b :: s) = None.
Proof. intros H. simpl. by destruct (N.eqb_spec a b). Qed.

Lemma replace_go_fuel2 old new f f' s :
  old ≠ [] → (length s ≤ f)%nat → (length s ≤ f')%nat →
  replace_go old new f s = replace_go old new f' s.
Proof.
  intros Hold. revert f' s.
  induction f as [|f IH]; intros f' s Hf Hf'.
  - destruct s; [|simpl in Hf; lia]. destruct f'; [done|].
    simpl. by destruct old.
  - destruct f' as [|f'].
    { destruct s; [|simpl in Hf'; lia]. simpl. by destruct old. }
    cbn [replace_go].
    destruct (strip_prefix old s) as [rest|] eqn:Hp.
    + apply strip_prefix_Some in Hp.
      assert (length rest < length s)%nat as Hlen.
      { destruct old as [|a old]; [done|].
        apply (f_equal length) in Hp. simpl in Hp. rewrite length_app in Hp. lia. }
      f_equal. apply IH; lia.
    + destruct s as [|c s]; [done|]. f_equal. simpl in Hf, Hf'. apply IH; lia.
Qed.

Lemma replace_go_fuel old new f s :
  old ≠ [] → (length s ≤ f)%nat →
  replace_go old new f s = replace_go old new (length s) s.
Proof. intros. by apply replace_go_fuel2. Qed.

Lemma replace_nil old new : old ≠ [] → replace old new [] = [].
Proof. by destruct old. Qed.

Lemma replace_hit old new rest :
  old ≠ [] → replace old new (old ++ rest) = new ++ replace old new rest.
Proof.
  intros Hold. unfold replace. destruct old as [|a old]; [done|].
  change ((a :: old) ++ rest) with (a :: (old ++ rest)).
  cbn [length replace_go].
  change (a :: old ++ rest) with ((a :: old) ++ rest).
  rewrite strip_prefix_app. f_equal.
  apply replace_go_fuel; [done|]. rewrite length_app. lia.
Qed.

Lemma replace_miss old new c s :
  strip_prefix old (c :: s) = None →
  replace old new (c :: s) = c :: replace old new s.
Proof.
  intros Hp. unfold replace. destruct old as [|a old]; [done|].
  cbn [length replace_go]. by rewrite Hp.
Qed.

(** Text in which the first character of [old] does not occur is skipped. *)
Lemma replace_skip a old new u s :
  Forall (λ c, c ≠ a) u →
  replace (a :: old) new (u ++ s) = u ++ replace (a :: old) new s.
Proof.
  induction 1 as [|c u Hc _ IH]; [done|].
  cbn [app]. rewrite replace_miss by (by apply strip_prefix_head_ne).
  by rewrite IH.
Qed.

Lemma replace_skip_all a old new u :
  Forall (λ c, c ≠ a) u → replace (a :: old) new u = u.
Proof.
  intros H. rewrite <-(app_nil_r u) at 1.
  rewrite replace_skip by done. by rewrite replace_nil, app_nil_r.
Qed.

Lemma replace_Forall (P : N → Prop) old new s :
  Forall P new → Forall P s → Forall P (replace old new s).
Proof.
  intros Hnew. destruct (decide (old = [])) as [->|Hold].
  { intros Hs. unfold replace. apply Forall_app. split; [done|].
    induction Hs; simpl; [done|]. constructor; [done|]. by apply Forall_app. }
  remember (length s) as n eqn:Hn. revert s Hn.
  induction (lt_wf n) as [n _ IH]. intros s -> Hs.
  destruct s as [|c s]; [by rewrite replace_nil|].
  destruct (strip_prefix old (c :: s)) as [rest|] eqn:Hp.
  - apply strip_prefix_Some in Hp. rewrite Hp, replace_hit by done.
    rewrite Hp in Hs. apply Forall_app in Hs as [_ Hrest].
    apply Forall_app. split; [done|].
    eapply IH; [|done|done]. rewrite Hp.
    destruct old; [done|]. simpl. rewrite length_app. lia.
  - rewrite replace_miss by done. inversion Hs; subst.
    constructor; [done|]. eapply IH; [|done|done]. simpl; lia.
Qed.

(** *** Soundness of the matcher *)

Lemma star_sound {R} p s (k : text → text → option R) x :
  star p s k = Some x →
  ∃ m rest, s = m ++ rest ∧ Forall (λ c, p c = true) m ∧ k m rest = Some x.
Proof.
  revert k. induction s as [|c s IH]; intros k H; simpl in H.
  - by exists [], [].
  - destruct (p c) eqn:Hc; [|by exists [], (c :: s)].
    destruct (star p s _) as [r|] eqn:Hs; [|by exists [], (c :: s)].
    injection H as ->. apply IH in Hs as (m & rest & -> & Hm & Hk).
    exists (c :: m), rest. by repeat split; [constructor|].
Qed.

Lemma rmatch_sound {R} ic r s caps (k : text → text → list text → option R) x :
  rmatch ic r s caps k = Some x →
  ∃ m rest c, s = m ++ rest ∧ denotes ic r m c ∧ k m rest (caps ++ c) = Some x.
Proof.
  revert s caps k. induction r as [|p|cls|cls|r1 IH1 r2 IH2|r IH];
    intros s caps k H; simpl in H.
  - exists [], s, []. rewrite app_nil_r. by repeat split; [constructor|].
  - destruct s as [|c s]; [done|]. destruct (lit_eq ic p c) eqn:Hc; [|done].
    exists [c], s, []. rewrite app_nil_r. by repeat split; [constructor|].
  - apply star_sound in H as (m & rest & -> & Hm & Hk).
    exists m, rest, []. rewrite app_nil_r. by repeat split; [constructor|].
  - destruct s as [|c s]; [done|]. destruct (in_class cls c) eqn:Hc; [|done].
    apply star_sound in H as (m & rest & -> & Hm & Hk).
    exists (c :: m), rest, []. rewrite app_nil_r. by repeat split; [constructor|].
  - apply IH1 in H as (m1 & s1 & c1 & -> & H1 & H).
    apply IH2 in H as (m2 & s2 & c2 & -> & H2 & H).
    exists (m1 ++ m2), s2, (c1 ++ c2).
    rewrite <-!(assoc_L (++)) in *. by repeat split; [constructor|].
  - apply IH in H as (m & rest & c & -> & Hr & H).
    exists m, rest, (c ++ [m]).
    rewrite <-!(assoc_L (++)) in *. by repeat split; [constructor|].
Qed.

Lemma match_at_sound ic r s m rest :
  match_at ic r s = Some (m, rest) →
  s = m_group m ++ rest ∧ denotes ic r (m_group m) (m_groups m).
Proof.
  intros H. apply rmatch_sound in H as (g & rest' & c & -> & Hd & [= <- <-]).
  done.
Qed.

Lemma search_sound ic r s before m rest :
  search ic r s = Some (before, m, rest) →
  s = before ++ m_group m ++ rest ∧ denotes ic r (m_group m) (m_groups m).
Proof.
  revert before. induction s as [|c s IH]; intros before H; simpl in H.
  - destruct (match_at ic r []) as [[m' rest']|] eqn:Hm; [|done].
    injection H as <- <- <-. by apply match_at_sound.
  - destruct (match_at ic r (c :: s)) as [[m' rest']|] eqn:Hm.
    + injection H as <- <- <-. by apply match_at_sound.
    + destruct (search ic r s) as [[[b m'] rest']|]; [|done].
      injection H as <- <- <-. destruct (IH b eq_refl) as [-> Hd]. done.
Qed.

(** *** [re.finditer] *)

Lemma finditer_go_fuel2 ic r f f' s :
  (length s < f)%nat → (length s < f')%nat →
  finditer_go f ic r s = finditer_go f' ic r s.
Proof.
  revert f' s.
  induction f as [|f IH]; intros f' s Hf Hf'; [lia|].
  destruct f' as [|f']; [lia|]. cbn [finditer_go].
  destruct (search ic r s) as [[[before m] rest]|] eqn:Hs; [|done].
  apply search_sound in Hs as [Hs _].
  apply (f_equal length) in Hs. rewrite !length_app in Hs.
  f_equal. destruct (m_group m) as [|c g] eqn:Hg.
  - destruct rest as [|c' rest']; [done|]. simpl in Hs. apply IH; lia.
  - simpl in Hs. apply IH; lia.
Qed.

Lemma finditer_go_fuel ic r f s :
  (length s < f)%nat → finditer_go f ic r s = finditer ic r s.
Proof. intros. apply finditer_go_fuel2; lia. Qed.

Lemma finditer_None ic r s : search ic r s = None → finditer ic r s = [].
Proof. intros H. unfold finditer. simpl. by rewrite H. Qed.

(** The unfolding of [finditer] at a match that is not empty. *)
Lemma finditer_Some ic r s before m rest :
  search ic r s = Some (before, m, rest) → m_group m ≠ [] →
  finditer ic r s = m :: finditer ic r rest.
Proof.
  intros Hs Hg. unfold finditer at 1. cbn [finditer_go]. rewrite Hs.
  f_equal. apply search_sound in Hs as [Hs _].
  apply (f_equal length) in Hs. rewrite !length_app in Hs.
  destruct (m_group m); [done|]. simpl in Hs.
  apply finditer_go_fuel. lia.
Qed.

Lemma finditer_sound ic r s m :
  m ∈ finditer ic r s →
  ∃ before rest, s = before ++ m_group m ++ rest ∧ denotes ic r (m_group m) (m_groups m).
Proof.
  unfold finditer. generalize (S (length s)) as f. intros f. revert s.
  induction f as [|f IH]; intros s Hin; simpl in Hin; [by apply elem_of_nil in Hin|].
  destruct (search ic r s) as [[[before m'] rest]|] eqn:Hs; [|by apply elem_of_nil in Hin].
  apply search_sound in Hs as [-> Hd].
  apply elem_of_cons in Hin as [->|Hin]; [by eauto|].
  destruct (m_group m') as [|c g] eqn:Hg.
  - destruct rest as [|c' rest']; [by apply elem_of_nil in Hin|].
    apply IH in Hin as (b & a & -> & Hd').
    exists (before ++ c' :: b), a. split; [|done].
    by rewrite <-!(assoc_L (++)).
  - apply IH in Hin as (b & a & -> & Hd').
    exists (before ++ (c :: g) ++ b), a. split; [|done].
    by rewrite <-!(assoc_L (++)).
Qed.

(** *** Fuel: more sweeps allowed never change a finished run *)

Lemma scanning_mono f f' st r :
  scanning f st = r → finished r → (f ≤ f')%nat → scanning f' st = r.
Proof.
  revert f' st. induction f as [|f IH]; intros f' st Hr Hfin Hle.
  - simpl in Hr. by subst r.
  - destruct f' as [|f']; [lia|]. simpl in *.
    destruct (search true regex_finder (content st)); [|done].
    destruct (sweep st) as [st1| |]; simpl in *; [|done|done].
    apply IH; [done|done|lia].
Qed.

Lemma deobfuscate_line_mono f f' line r :
  deobfuscate_line f line = r → finished r → (f ≤ f')%nat →
  deobfuscate_line f' line = r.
Proof.
  unfold deobfuscate_line. intros Hr Hfin Hle.
  destruct (char_prepass line) as [c| |]; simpl in *; [|done|done].
  destruct (scanning f (initial c)) as [st| |] eqn:Hs; simpl in *.
  - by rewrite (scanning_mono f f' _ _ Hs I Hle).
  - by rewrite (scanning_mono f f' _ _ Hs I Hle).
  - by subst r.
Qed.

Lemma deobfuscate_mono f f' lines r :
  deobfuscate_powershell_reorder f lines = r → finished r → (f ≤ f')%nat →
  deobfuscate_powershell_reorder f' lines = r.
Proof.
  unfold deobfuscate_powershell_reorder. revert r.
  induction lines as [|l lines IH]; intros r Hr Hfin Hle; [done|].
  simpl in *.
  destruct (deobfuscate_line f l) as [b| |] eqn:Hl; simpl in *.
  - rewrite (deobfuscate_line_mono f f' _ _ Hl I Hle). simpl.
    destruct (map_each (deobfuscate_line f) lines) as [bs| |] eqn:Hm; simpl in *.
    + by rewrite (IH _ eq_refl I Hle).
    + by rewrite (IH _ eq_refl I Hle).
    + by subst r.
  - by rewrite (deobfuscate_line_mono f f' _ _ Hl I Hle).
  - by subst r.
Qed.

(** A state that a sweep leaves as it is, with a match still in the text,
    keeps the loop running for ever. *)
Lemma scanning_stuck st fuel :
  sweep st = Done st → is_Some (search true regex_finder (content st)) →
  scanning fuel st = OutOfFuel.
Proof.
  intros Hsw [x Hx]. induction fuel as [|fuel IH]; [done|].
  simpl. by rewrite Hx, Hsw.
Qed.

(** *** A line without a character-code escape *)

Lemma char_prepass_no_escape line :
  search true regex_char line = None → char_prepass line = Done line.
Proof. intros H. unfold char_prepass. by rewrite finditer_None. Qed.

(** *** The mismatched expression *)

Lemma sweep_mismatch : sweep (initial expr_mismatch) = Done (initial expr_mismatch).
Proof. vm_compute. reflexivity. Qed.

Lemma search_mismatch : is_Some (search true regex_finder expr_mismatch).
Proof. vm_compute. eauto. Qed.

(** *** [str(n)] is a run of ASCII digits *)

Lemma pretty_N_char_digit d : ascii_digit (N_of_ascii (pretty_N_char d)).
Proof.
  unfold pretty_N_char, ascii_digit.
  repeat case_match; vm_compute; split; discriminate.
Qed.

Lemma pretty_N_go_digits n s :
  Forall ascii_digit (txt s) → Forall ascii_digit (txt (pretty_N_go n s)).
Proof.
  revert s. induction (N.lt_wf_0 n) as [n _ IH]; intros s Hs.
  destruct (decide (n = 0)) as [->|Hn]; [by rewrite pretty_N_go_0|].
  rewrite pretty_N_go_step by lia.
  apply IH; [apply N.div_lt; lia|].
  constructor; [apply pretty_N_char_digit|done].
Qed.

Lemma str_of_N_digits n : Forall ascii_digit (str_of_N n).
Proof.
  unfold str_of_N, pretty, pretty_N. case_decide.
  - repeat constructor; vm_compute; discriminate.
  - apply pretty_N_go_digits. constructor.
Qed.

Lemma str_of_N_nonempty n : str_of_N n ≠ [].
Proof.
  unfold str_of_N, pretty, pretty_N. case_decide; [done|].
  assert (∀ m s, s ≠ EmptyString → pretty_N_go m s ≠ EmptyString) as Hgo.
  { intros m. induction (N.lt_wf_0 m) as [m _ IH]; intros s Hs.
    destruct (decide (m = 0)) as [->|Hm]; [by rewrite pretty_N_go_0|].
    rewrite pretty_N_go_step by lia. apply IH; [apply N.div_lt; lia|done]. }
  rewrite pretty_N_go_step by lia.
  specialize (Hgo (n `div` 10) (String (pretty_N_char (n `mod` 10)) EmptyString) ltac:(done)).
  destruct (pretty_N_go _ _); [done|]. done.
Qed.

Lemma txt_inj s1 s2 : txt s1 = txt s2 → s1 = s2.
Proof.
  revert s2. induction s1 as [|a s1 IH]; intros [|b s2] H; try done.
  injection H as Hab H. f_equal; [|by apply IH].
  by rewrite <-(ascii_N_embedding a), <-(ascii_N_embedding b), Hab.
Qed.

Lemma str_of_N_inj n1 n2 : str_of_N n1 = str_of_N n2 → n1 = n2.
Proof. intros H. by apply (inj pretty), txt_inj. Qed.

(** *** Every character the function writes comes from the line, from a
    table value or from a placeholder *)

Lemma denotes_groups (P : N → Prop) ic r m caps :
  denotes ic r m caps → Forall P m → Forall (Forall P) caps.
Proof.
  induction 1 as [| | | |r1 r2 m1 m2 c1 c2 _ IH1 _ IH2|r m c _ IH]; intros Hm;
    try by constructor.
  - apply Forall_app in Hm as [??]. apply Forall_app; auto.
  - apply Forall_app; split; [auto|by constructor].
Qed.

Lemma finditer_Forall (P : N → Prop) ic r s m :
  Forall P s → m ∈ finditer ic r s →
  Forall P (m_group m) ∧ Forall (Forall P) (m_groups m).
Proof.
  intros Hs Hm. apply finditer_sound in Hm as (b & a & -> & Hd).
  apply Forall_app in Hs as [_ Hs]. apply Forall_app in Hs as [Hs _].
  split; [done|]. by eapply denotes_groups.
Qed.

Lemma group_n_Forall (P : N → Prop) m i :
  Forall (Forall P) (m_groups m) → Forall P (group_n m i).
Proof.
  intros H. unfold group_n. destruct (m_groups m !! i) as [g|] eqn:Hg; [|constructor].
  simpl. by eapply Forall_lookup_1.
Qed.

Lemma findall_Forall (P : N → Prop) ic r s :
  Forall P s → Forall (Forall P) (findall ic r s).
Proof.
  intros Hs. unfold findall. apply Forall_fmap, Forall_forall. intros m Hm.
  simpl. apply group_n_Forall. by eapply finditer_Forall.
Qed.

Lemma lstrip_suffix s : ∃ w, s = w ++ lstrip s ∧ Forall (λ c, is_space c = true) w.
Proof.
  induction s as [|c s (w & IH & Hw)]; [by exists []|].
  simpl. destruct (is_space c) eqn:Hc; [|by exists []].
  exists (c :: w). split; [by rewrite IH at 1|by constructor].
Qed.

Lemma rstrip_prefix s : ∃ w, s = rstrip s ++ w ∧ Forall (λ c, is_space c = true) w.
Proof.
  unfold rstrip. destruct (lstrip_suffix (reverse s)) as (w & Hs & Hw).
  exists (reverse w). split; [|by apply Forall_reverse].
  rewrite <-reverse_app, <-Hs. by rewrite reverse_involutive.
Qed.

Lemma strip_Forall (P : N → Prop) s : Forall P s → Forall P (strip s).
Proof.
  intros Hs. unfold strip.
  destruct (lstrip_suffix s) as (w1 & H1 & _).
  destruct (rstrip_prefix (lstrip s)) as (w2 & H2 & _).
  rewrite H1, H2 in Hs.
  apply Forall_app in Hs as [_ Hs]. by apply Forall_app in Hs as [Hs _].
Qed.

Section Alphabet.
Context (P : N → Prop).
Context (P_token : ∀ n, Forall P (token n)).

Lemma resolve_step_Forall occ contents out p out' :
  map_Forall (λ _ v, Forall P v) occ → Forall (Forall P) contents →
  Forall P out → resolve_step occ contents out p = Done out' → Forall P out'.
Proof.
  intros Hocc Hcs Hout. unfold resolve_step.
  destruct (int10 p) as [index| |]; [|done|done]. cbn [mbind outcome_bind].
  destruct (contents !! _) as [frag|] eqn:Hfrag; [|done]. simpl.
  assert (Forall P frag) by (by eapply Forall_lookup_1).
  destruct (match_at false regex_placeholder frag).
  - destruct (occ !! quoted frag) as [v|] eqn:Hv; [|done]. simpl.
    intros [= <-]. apply Forall_app. split; [done|]. by eapply Hocc.
  - intros [= <-]. apply Forall_app. split; [done|]. by apply strip_Forall.
Qed.

Lemma sweep_step_over st word st' :
  Forall (Forall P) (m_groups word) →
  over P st → sweep_step st word = Done st' → over P st'.
Proof.
  intros Hw [Hc Hocc]. unfold sweep_step.
  case_match; [|by intros [= <-]].
  destruct (for_each _ _ _) as [out| |] eqn:Hout; [|done|done]. simpl.
  intros [= <-]. split; simpl.
  - apply replace_Forall; [apply P_token|done].
  - apply map_Forall_insert_2; [|done].
    eapply (for_each_inv (Forall P)); [|constructor|exact Hout].
    intros o p o' _ Ho. eapply resolve_step_Forall; [done| |done].
    apply findall_Forall, strip_Forall, replace_Forall; [constructor|].
    by apply group_n_Forall.
Qed.

Lemma sweep_over st st' : over P st → sweep st = Done st' → over P st'.
Proof.
  intros Hst. unfold sweep.
  apply (for_each_inv (over P)); [|done].
  intros st0 word st1 Hword. apply sweep_step_over.
  by eapply finditer_Forall; [apply Hst|].
Qed.

Lemma scanning_over fuel st st' :
  over P st → scanning fuel st = Done st' → over P st'.
Proof.
  revert st. induction fuel as [|fuel IH]; intros st Hst; [done|]. simpl.
  destruct (search true regex_finder (content st)); [|by intros [= <-]].
  destruct (sweep st) as [st1| |] eqn:Hsw; [|done|done]. simpl.
  apply IH. by eapply sweep_over.
Qed.

Lemma expanding_Forall st out :
  over P st → expanding st = Done out → Forall P out.
Proof.
  intros [Hc Hocc]. unfold expanding.
  apply (for_each_inv (Forall P)); [|done].
  intros c word c' _ Hcc. unfold expand_step.
  destruct (occurrences st !! _) as [v|] eqn:Hv; [|done]. simpl.
  intros [= <-]. apply replace_Forall; [by eapply Hocc|done].
Qed.

(** From the text after the character-code pass to the returned line. *)
Lemma resolve_Forall fuel c st out :
  Forall P c → scanning fuel (initial c) = Done st → expanding st = Done out →
  Forall P out.
Proof.
  intros Hc Hs. apply expanding_Forall. eapply scanning_over; [|done].
  split; [done|]. apply map_Forall_empty.
Qed.

End Alphabet.

(** *** Backticks *)





Lemma int10_short s :
  (length s ≤ 4300)%nat → int10 s = Done (decimal_value s).
Proof.
  intros Hs. unfold int10.
  by destruct (Nat.ltb_spec 4300 (length s)) as [?|_]; [lia|].
Qed.

Lemma int10_long s : (4300 < length s)%nat → int10 s = Raise ValueError.
Proof.
  intros Hs. unfold int10.
  by destruct (Nat.ltb_spec 4300 (length s)) as [_|?]; [|lia].
Qed.


Lemma char_step_code_point c m :
  code_point (group_n m 0) →
  char_step c m
  = Done (replace [backtick] []
            (replace (m_group m) (quoted [decimal_value (group_n m 0)]) c)).
Proof.
  intros [Hlen Hm%N.ltb_lt]. unfold char_step, chr.
  rewrite int10_short by done. cbn [mbind outcome_bind]. by rewrite Hm.
Qed.

(** The pass returns when every digit run is that of a code point. *)
Lemma char_prepass_returns line :
  Forall (λ m, code_point (group_n m 0)) (finditer true regex_char line) →
  ∃ c, char_prepass line = Done c.
Proof.
  unfold char_prepass. generalize (finditer true regex_char line) as l.
  intros l Hl. generalize line as c0.
  induction Hl as [|m l Hm _ IH]; intros c0; [by eexists|].
  cbn [for_each]. rewrite char_step_code_point by done.
  cbn [mbind outcome_bind]. apply IH.
Qed.


(** *** Searching text that cannot start a match *)

Lemma search_skip ic r u s :
  Forall (λ c, ∀ t, match_at ic r (c :: t) = None) u →
  search ic r (u ++ s) =
    match search ic r s with
    | Some (before, m, rest) => Some (u ++ before, m, rest)
    | None => None
    end.
Proof.
  induction 1 as [|c u Hc _ IH]; simpl.
  - by destruct (search ic r s) as [[[??]?]|].
  - rewrite Hc, IH. by destruct (search ic r s) as [[[??]?]|].
Qed.

Lemma search_skip_all ic r u :
  match_at ic r [] = None →
  Forall (λ c, ∀ t, match_at ic r (c :: t) = None) u →
  search ic r u = None.
Proof.
  intros Hnil Hu. rewrite <-(app_nil_r u), search_skip by done.
  simpl. by rewrite Hnil.
Qed.

Lemma search_here ic r s m rest :
  match_at ic r s = Some (m, rest) → search ic r s = Some ([], m, rest).
Proof. intros H. destruct s; simpl; by rewrite H. Qed.

Lemma finditer_unfold ic r s :
  finditer ic r s =
    match search ic r s with
    | None => []
    | Some (_, m, rest) =>
        m :: match m_group m, rest with
             | [], [] => []
             | [], _ :: rest' => finditer ic r rest'
             | _ :: _, _ => finditer ic r rest
             end
    end.
Proof.
  unfold finditer at 1. cbn [finditer_go].
  destruct (search ic r s) as [[[before m] rest]|] eqn:Hs; [|done].
  apply search_sound in Hs as [Hs _].
  apply (f_equal length) in Hs. rewrite !length_app in Hs.
  f_equal. destruct (m_group m) as [|c g].
  - destruct rest as [|c' rest']; [done|]. simpl in Hs.
    apply finditer_go_fuel. lia.
  - simpl in Hs. apply finditer_go_fuel. lia.
Qed.

Lemma finditer_skip ic r u s :
  Forall (λ c, ∀ t, match_at ic r (c :: t) = None) u →
  finditer ic r (u ++ s) = finditer ic r s.
Proof.
  intros Hu. rewrite (finditer_unfold _ _ (u ++ s)), (finditer_unfold _ _ s).
  rewrite search_skip by done. by destruct (search ic r s) as [[[??]?]|].
Qed.

(** A literal that is not a letter matches only itself, whatever the case
    flag. *)
Lemma lit_eq_symbol ic p c :
  is_upper p = false → is_lower p = false → lit_eq ic p c = (c =? p).
Proof.
  unfold lit_eq, to_lower, is_upper, is_lower. intros Hu Hl.
  destruct ic; [|done]. rewrite Hu.
  destruct (N.eqb_spec c p) as [->|Hne].
  - rewrite Hu. by rewrite N.eqb_refl.
  - apply orb_false_iff. split.
    + destruct ((65 <=? c) && (c <=? 90)) eqn:Hc; [|by apply N.eqb_neq].
      apply N.eqb_neq. intros <-.
      apply andb_true_iff in Hc as [H1 H2].
      apply N.leb_le in H1, H2.
      apply andb_false_iff in Hl as [Hl|Hl]; apply N.leb_gt in Hl; lia.
    + apply andb_false_iff. left. apply N.eqb_neq. intros ->. done.
Qed.

(** The first character of a match of each pattern. *)
Ltac first_char Hc :=
  apply N.eqb_neq in Hc; unfold ch in Hc; simpl in Hc;
  unfold match_at; cbn; rewrite lit_eq_symbol by done; by rewrite Hc.

Lemma finder_first ic c t : c ≠ ch "(" → match_at ic regex_finder (c :: t) = None.
Proof. intros Hc. first_char Hc. Qed.

Lemma char_first ic c t : c ≠ ch "[" → match_at ic regex_char (c :: t) = None.
Proof. intros Hc. first_char Hc. Qed.

Lemma placeholder_first ic c t :
  c ≠ ch "{" → match_at ic regex_placeholder (c :: t) = None.
Proof. intros Hc. first_char Hc. Qed.

(** *** The matches of the basic reorder *)

Lemma match_CAB_here post :
  match_at true regex_finder (expr_CAB ++ post) = Some (match_CAB, post).
Proof. vm_compute. reflexivity. Qed.

Lemma sweep_step_CAB c :
  sweep_step (initial c) match_CAB =
    Done {| content := replace expr_CAB (token 0) c;
            count_matches := 1;
            occurrences := {[ token 0 := txt "CAB" ]} |}.
Proof. vm_compute. reflexivity. Qed.

Lemma match_token_0_here post :
  match_at true regex_placeholder (token_body 0 ++ squote :: post)
  = Some (match_token 0, squote :: post).
Proof. vm_compute. reflexivity. Qed.

(** *** Text that holds no opening of a pattern *)

Lemma somewhere_false test s :
  somewhere test s = false → ∀ u1 u2, s = u1 ++ u2 → test u2 = false.
Proof.
  intros H u1. revert s H. induction u1 as [|c u1 IH]; intros s H u2 ->.
  - destruct u2; simpl in H; by apply orb_false_iff in H as [? _].
  - cbn [app somewhere] in H. apply orb_false_iff in H as [_ H]. by eapply IH.
Qed.

Lemma starts_with_pair a b s :
  starts_with [a; b] s = true ↔ ∃ t, s = a :: b :: t.
Proof.
  unfold starts_with. destruct (strip_prefix [a; b] s) as [t|] eqn:H.
  - apply strip_prefix_Some in H. split; [by exists t|done].
  - split; [done|]. intros [t ->].
    change (a :: b :: t) with ([a; b] ++ t) in H.
    by rewrite strip_prefix_app in H.
Qed.

Lemma starts_with_pair_false a b c1 c2 t :
  starts_with [a; b] (c1 :: c2 :: t) = false ↔ ¬ (c1 = a ∧ c2 = b).
Proof.
  rewrite <-not_true_iff_false, starts_with_pair. split.
  - intros H [-> ->]. apply H. by exists t.
  - intros H [t' [= -> -> _]]. by apply H.
Qed.

(** In [u ++ s] a two-character text that [u] does not hold begins at no
    place of [u], unless [s] begins with its second character. *)
Lemma holds_false_suffix a b u s :
  holds [a; b] u = false →
  match s with [] => True | c :: _ => c ≠ b end →
  ∀ u1 u2, u = u1 ++ u2 → u2 ≠ [] → starts_with [a; b] (u2 ++ s) = false.
Proof.
  intros Hu Hs u1 u2 -> Hne.
  pose proof (somewhere_false _ _ Hu u1 u2 eq_refl) as H2.
  destruct u2 as [|c1 [|c2 u2]]; [done| |].
  - destruct s as [|c s]; [done|]. apply starts_with_pair_false. by intros [_ ->].
  - cbn [app]. apply starts_with_pair_false. by apply starts_with_pair_false in H2.
Qed.

Lemma holds_false_place a b u :
  holds [a; b] u = false → ∀ u1 u2, u = u1 ++ u2 → starts_with [a; b] u2 = false.
Proof. intros H. by apply somewhere_false. Qed.

Lemma search_skip_places ic r u s :
  (∀ u1 u2, u = u1 ++ u2 → u2 ≠ [] → match_at ic r (u2 ++ s) = None) →
  search ic r (u ++ s) =
    match search ic r s with
    | Some (before, m, rest) => Some (u ++ before, m, rest)
    | None => None
    end.
Proof.
  induction u as [|c u IH]; intros H; cbn [app].
  - by destruct (search ic r s) as [[[??]?]|].
  - cbn [search]. assert (match_at ic r (c :: u ++ s) = None) as ->
      by (by apply (H [] (c :: u))).
    rewrite IH.
    + by destruct (search ic r s) as [[[??]?]|].
    + intros u1 u2 -> Hne. by apply (H (c :: u1)).
Qed.

Lemma search_no_place ic r u :
  (∀ u1 u2, u = u1 ++ u2 → match_at ic r u2 = None) → search ic r u = None.
Proof.
  intros H. rewrite <-(app_nil_r u), search_skip_places.
  - simpl. by rewrite (H u []) by (by rewrite app_nil_r).
  - intros u1 u2 -> _. rewrite app_nil_r. by apply (H u1).
Qed.

Lemma finditer_skip_places ic r u s :
  (∀ u1 u2, u = u1 ++ u2 → u2 ≠ [] → match_at ic r (u2 ++ s) = None) →
  finditer ic r (u ++ s) = finditer ic r s.
Proof.
  intros Hu. rewrite (finditer_unfold _ _ (u ++ s)), (finditer_unfold _ _ s).
  rewrite search_skip_places by done. by destruct (search ic r s) as [[[??]?]|].
Qed.

Lemma replace_skip_places old new u s :
  (∀ u1 u2, u = u1 ++ u2 → u2 ≠ [] → strip_prefix old (u2 ++ s) = None) →
  replace old new (u ++ s) = u ++ replace old new s.
Proof.
  induction u as [|c u IH]; intros H; [done|].
  cbn [app]. rewrite replace_miss by (by apply (H [] (c :: u))).
  rewrite IH; [done|]. intros u1 u2 -> Hne. by apply (H (c :: u1)).
Qed.

Lemma replace_no_place old new u :
  old ≠ [] →
  (∀ u1 u2, u = u1 ++ u2 → u2 ≠ [] → strip_prefix old u2 = None) →
  replace old new u = u.
Proof.
  intros Hold H. rewrite <-(app_nil_r u) at 1. rewrite replace_skip_places.
  - by rewrite replace_nil, app_nil_r.
  - intros u1 u2 -> Hne. rewrite app_nil_r. by apply (H u1).
Qed.

(** A text that begins with [a], [b] occurs only where these two
    characters stand. *)
Lemma strip_prefix_opening a b old x :
  starts_with [a; b] x = false → strip_prefix (a :: b :: old) x = None.
Proof.
  intros H. destruct (strip_prefix (a :: b :: old) x) as [t|] eqn:Ht; [|done].
  apply strip_prefix_Some in Ht as ->.
  apply not_true_iff_false in H. destruct H.
  apply starts_with_pair. by exists (old ++ t).
Qed.

(** Every match of the patterns begins with the opening. *)
Lemma finder_opening ic s :
  starts_with opening s = false → match_at ic regex_finder s = None.
Proof.
  intros H. unfold match_at.
  let r := eval vm_compute in regex_finder in change regex_finder with r.
  destruct s as [|c1 [|c2 t]]; cbn [rmatch].
  - done.
  - by destruct (lit_eq ic 40 c1).
  - apply starts_with_pair_false in H.
    rewrite (lit_eq_symbol ic 40), (lit_eq_symbol ic 34) by done.
    destruct (N.eqb_spec c1 40) as [->|]; [|done].
    destruct (N.eqb_spec c2 34) as [->|]; [|done].
    by destruct H.
Qed.

Lemma placeholder_opening ic s :
  starts_with token_opening s = false → match_at ic regex_placeholder s = None.
Proof.
  intros H. unfold match_at.
  let r := eval vm_compute in regex_placeholder in change regex_placeholder with r.
  destruct s as [|c1 [|c2 t]]; cbn [rmatch].
  - done.
  - by destruct (lit_eq ic 123 c1).
  - apply starts_with_pair_false in H.
    rewrite (lit_eq_symbol ic 123), (lit_eq_symbol ic 35) by done.
    destruct (N.eqb_spec c1 123) as [->|]; [|done].
    destruct (N.eqb_spec c2 35) as [->|]; [|done].
    by destruct H.
Qed.

Lemma escape_opening s :
  at_escape s = false → match_at true regex_char s = None.
Proof.
  intros H. unfold match_at.
  let r := eval vm_compute in regex_char in change regex_char with r.
  destruct s as [|c0 [|c1 [|c2 [|c3 [|c4 [|c5 [|d s]]]]]]]; cbn [rmatch];
    try (by repeat (destruct (lit_eq true _ _); [|done])).
  change (lit_eq true 91 c0 && lit_eq true 99 c1 && lit_eq true 104 c2
          && lit_eq true 97 c3 && lit_eq true 114 c4 && lit_eq true 93 c5
          && is_digit d = false) in H.
  destruct (lit_eq true 91 c0); [|done].
  destruct (lit_eq true 99 c1); [|done].
  destruct (lit_eq true 104 c2); [|done].
  destruct (lit_eq true 97 c3); [|done].
  destruct (lit_eq true 114 c4); [|done].
  destruct (lit_eq true 93 c5); [|done].
  cbn [andb] in H.
  assert (in_class [CDigit] d = false) as -> by (simpl; by rewrite H).
  done.
Qed.

(** *** Lines without any construct the function looks for *)

Lemma clean_line_searches line :
  clean_line line →
  search true regex_char line = None ∧ search true regex_finder line = None ∧
  search true regex_placeholder line = None.
Proof.
  intros (Hf & Hc & Hp). repeat split; apply search_no_place; intros u1 u2 ->.
  - apply escape_opening. by eapply somewhere_false.
  - apply finder_opening. by eapply holds_false_place.
  - apply placeholder_opening. by eapply holds_false_place.
Qed.

Lemma deobfuscate_line_clean fuel line :
  clean_line line → deobfuscate_line (S fuel) line = Done line.
Proof.
  intros (Hc & Hf & Hp)%clean_line_searches. unfold deobfuscate_line.
  rewrite char_prepass_no_escape by done. simpl.
  rewrite Hf. simpl. unfold expanding. simpl. by rewrite finditer_None.
Qed.

(** A reorder expression opens with a parenthesis and a double quote. *)
Lemma reorder_expression_opening e :
  reorder_expression e → ∃ t, e = ch "(" :: dquote :: t.
Proof.
  intros (template & w1 & op & w2 & fragments & (body & -> & _) & _ & _ & _ & _ & ->).
  by eexists.
Qed.

Lemma holds_app_opening a b pre t post : holds [a; b] (pre ++ a :: b :: t ++ post) = true.
Proof.
  apply not_false_iff_true. intros H.
  pose proof (holds_false_place _ _ _ H pre _ eq_refl) as H'.
  apply not_true_iff_false in H'. destruct H'.
  apply starts_with_pair. by exists (t ++ post).
Qed.

(** A clean line holds no reorder expression. *)
Lemma clean_line_no_reorder_expression line :
  clean_line line → ¬ holds_reorder_expression line.
Proof.
  intros (Hf & _ & _) (pre & e & post & [t ->]%reorder_expression_opening & ->).
  unfold opening in Hf. cbn [app] in Hf. by rewrite holds_app_opening in Hf.
Qed.

(** *** The basic reorder, inside a line *)

Lemma resolve_CAB pre post fuel :
  holds opening pre = false → holds token_opening pre = false →
  holds opening post = false → holds token_opening post = false →
  scanning (S (S fuel)) (initial (pre ++ expr_CAB ++ post)) ≫= expanding
  = Done (pre ++ txt "CAB" ++ post).
Proof.
  intros Hf1 Hp1 Hf2 Hp2.
  assert (∀ ic u1 u2, post = u1 ++ u2 → match_at ic regex_finder u2 = None) as Hpost_f.
  { intros ic u1 u2 ->. apply finder_opening. by eapply holds_false_place. }
  assert (∀ ic u1 u2, post = u1 ++ u2 → match_at ic regex_placeholder u2 = None) as Hpost_p.
  { intros ic u1 u2 ->. apply placeholder_opening. by eapply holds_false_place. }
  assert (∀ ic s, match s with [] => True | c :: _ => c ≠ dquote end →
    ∀ u1 u2, pre = u1 ++ u2 → u2 ≠ [] → match_at ic regex_finder (u2 ++ s) = None)
    as Hpre_f.
  { intros ic s Hs u1 u2 Hu Hne. apply finder_opening.
    by apply (holds_false_suffix _ _ pre s Hf1 Hs u1 u2). }
  assert (∀ ic s, match s with [] => True | c :: _ => c ≠ hash end →
    ∀ u1 u2, pre = u1 ++ u2 → u2 ≠ [] → match_at ic regex_placeholder (u2 ++ s) = None)
    as Hpre_p.
  { intros ic s Hs u1 u2 Hu Hne. apply placeholder_opening.
    by apply (holds_false_suffix _ _ pre s Hp1 Hs u1 u2). }
  (* the first sweep resolves the expression *)
  assert (search true regex_finder (pre ++ expr_CAB ++ post)
          = Some (pre ++ [], match_CAB, post)) as Hs1.
  { rewrite search_skip_places by (by apply Hpre_f).
    by rewrite (search_here _ _ _ _ _ (match_CAB_here post)). }
  assert (finditer true regex_finder (pre ++ expr_CAB ++ post) = [match_CAB]) as Hit1.
  { rewrite (finditer_Some _ _ _ _ _ _ Hs1) by done.
    by rewrite finditer_None by (by eapply search_no_place, Hpost_f). }
  assert (replace expr_CAB (token 0) (pre ++ expr_CAB ++ post)
          = pre ++ token 0 ++ post) as Hr1.
  { rewrite replace_skip_places.
    - rewrite replace_hit by done. rewrite replace_no_place; [done|done|].
      intros u1 u2 -> _.
      apply (strip_prefix_opening (ch "(") dquote (drop 2 expr_CAB)).
      by eapply holds_false_place.
    - intros u1 u2 Hu Hne.
      apply (strip_prefix_opening (ch "(") dquote (drop 2 expr_CAB)).
      apply (λ Hs, holds_false_suffix _ _ pre _ Hf1 Hs u1 u2 Hu Hne).
      by vm_compute. }
  cbn [scanning content initial]. rewrite Hs1. unfold sweep. cbn [content initial].
  rewrite Hit1. cbn [for_each]. rewrite sweep_step_CAB, Hr1.
  cbn [mbind outcome_bind].
  (* no expression is left *)
  assert (search true regex_finder (pre ++ token 0 ++ post) = None) as Hs2.
  { rewrite search_skip_places by (by apply Hpre_f).
    rewrite search_skip by (repeat constructor; intros t; by apply finder_first).
    by rewrite (search_no_place _ _ post) by apply Hpost_f. }
  cbn [content]. rewrite Hs2. cbn [mbind outcome_bind].
  (* the placeholder is expanded *)
  unfold expanding. cbn [content occurrences].
  assert (finditer true regex_placeholder (pre ++ token 0 ++ post) = [match_token 0]) as Hit2.
  { rewrite finditer_skip_places by (by apply Hpre_p).
    change (token 0 ++ post) with ([squote] ++ token_body 0 ++ squote :: post).
    rewrite finditer_skip by (repeat constructor; intros t; by apply placeholder_first).
    rewrite (finditer_Some _ _ _ _ _ _ (search_here _ _ _ _ _ (match_token_0_here post)))
      by done.
    change (squote :: post) with ([squote] ++ post).
    rewrite finditer_skip by (repeat constructor; intros t; by apply placeholder_first).
    by rewrite finditer_None by (by eapply search_no_place, Hpost_p). }
  rewrite Hit2. cbn [for_each]. unfold expand_step.
  change (quoted (m_group (match_token 0))) with (token 0).
  rewrite lookup_singleton_eq. cbn [or_raise mbind outcome_bind]. f_equal.
  assert (∀ c x, starts_with token_opening x = false →
    strip_prefix (token 0) (c :: x) = None) as Htok.
  { intros c x Hx. change (token 0) with (squote :: ch "{" :: hash :: drop 3 (token 0)).
    cbn [strip_prefix]. destruct (squote =? c); [|done].
    by apply strip_prefix_opening. }
  rewrite replace_skip_places.
  - rewrite replace_hit by done. rewrite replace_no_place; [done|done|].
    intros u1 u2 -> Hne. destruct u2 as [|c u2]; [done|]. apply Htok.
    by apply (holds_false_place _ _ _ Hp2 (u1 ++ [c])); rewrite <-(assoc_L (++)).
  - intros u1 u2 Hu Hne. destruct u2 as [|c u2]; [done|]. cbn [app]. apply Htok.
    destruct u2 as [|c' u2]; [done|].
    apply (λ Hs, holds_false_suffix _ _ pre _ Hp1 Hs (u1 ++ [c]) (c' :: u2));
      [by vm_compute|by rewrite <-(assoc_L (++))|done].
Qed.

Lemma deobfuscate_line_CAB line pre post fuel :
  char_prepass line = Done (pre ++ expr_CAB ++ post) →
  holds opening pre = false → holds token_opening pre = false →
  holds opening post = false → holds token_opening post = false →
  deobfuscate_line (S (S fuel)) line = Done (pre ++ txt "CAB" ++ post).
Proof.
  intros Hc Hf1 Hp1 Hf2 Hp2. unfold deobfuscate_line. rewrite Hc.
  cbn [mbind outcome_bind].
  by apply (resolve_CAB pre post fuel).
Qed.

(** *** Text made of plain characters and placeholders

    While the loop runs on a line that had no [#], the text is a sequence of
    characters other than [#] and of whole placeholders the loop has put
    there. *)

Lemma render_cons sg segs : render (sg :: segs) = render_seg sg ++ render segs.
Proof. done. Qed.

Lemma render_app s1 s2 : render (s1 ++ s2) = render s1 ++ render s2.
Proof. unfold render. by rewrite fmap_app, concat_app. Qed.

Lemma render_plain s : render (Plain <$> s) = s.
Proof.
  induction s as [|c s IH]; [done|].
  rewrite fmap_cons, render_cons, IH. done.
Qed.

Lemma ascii_digit_tokchar c : ascii_digit c → tokchar c = true.
Proof.
  intros [H1 H2]. unfold tokchar. apply orb_true_iff. right.
  apply andb_true_iff. split; by apply N.leb_le.
Qed.

Lemma token_body_tokchars k : Forall (λ c, tokchar c = true) (token_body k).
Proof.
  unfold token_body. rewrite !Forall_app. repeat split; [by repeat constructor| |by repeat constructor].
  eapply Forall_impl; [apply str_of_N_digits|]. apply ascii_digit_tokchar.
Qed.

Lemma token_tokchars k : Forall (λ c, tokchar c = true) (token k).
Proof.
  unfold token, quoted. rewrite !Forall_app.
  repeat split; [by repeat constructor|apply token_body_tokchars|by repeat constructor].
Qed.

Lemma tokchar_spec c :
  tokchar c = true → c ∈ txt "'{#subs_}" ∨ ascii_digit c.
Proof.
  unfold tokchar. intros [H|H]%orb_true_iff.
  - left. simpl in H.
    repeat (apply orb_true_iff in H as [->%N.eqb_eq|H];
            [apply list_elem_of_In; vm_compute; tauto|]). done.
  - right. apply andb_true_iff in H as [?%N.leb_le ?%N.leb_le]. done.
Qed.

Lemma space_not_tokchar c : is_space c = true → tokchar c = false.
Proof.
  intros Hs. destruct (tokchar c) eqn:Ht; [|done].
  apply tokchar_spec in Ht as [Ht|[H1 H2]].
  - repeat (apply elem_of_cons in Ht as [->|Ht]; [by vm_compute in Hs|]).
    by apply elem_of_nil in Ht.
  - unfold is_space, is_ascii in Hs.
    assert ((c <? 128) = true) as Hc by (apply N.ltb_lt; lia). rewrite Hc in Hs.
    apply orb_true_iff in Hs as [Hs|Hs];
      apply andb_true_iff in Hs as [?%N.leb_le ?%N.leb_le]; lia.
Qed.

(** A character that no placeholder holds stands between two well-formed
    parts. *)
Lemma render_cut n segs a c b :
  Forall (seg_ok n) segs → render segs = a ++ c :: b → tokchar c = false →
  ∃ s1 s2, segs = s1 ++ Plain c :: s2 ∧ a = render s1 ∧ b = render s2.
Proof.
  intros Hok. revert a. induction Hok as [|sg segs Hsg Hok IH]; intros a Heq Hc.
  { by destruct a. }
  rewrite render_cons in Heq. destruct sg as [x|k]; cbn [render_seg] in Heq.
  - destruct a as [|y a]; injection Heq as -> Heq.
    + by exists [], segs.
    + destruct (IH a Heq Hc) as (s1 & s2 & -> & -> & ->).
      by exists (Plain y :: s1), s2.
  - apply app_eq_inv in Heq as [(z & Htok & Hz)|(z & -> & Hz)].
    + destruct z as [|c' z].
      * rewrite app_nil_r in Htok. subst a. simpl in Hz.
        destruct (IH [] (eq_sym Hz) Hc) as (s1 & s2 & -> & H1 & ->).
        exists (Tok k :: s1), s2. rewrite render_cons, <-H1. simpl.
        by rewrite app_nil_r.
      * injection Hz as <- _.
        pose proof (token_tokchars k) as Hk. rewrite Htok in Hk.
        apply Forall_app in Hk as [_ Hk]. inversion Hk; congruence.
    + destruct (IH z Hz Hc) as (s1 & s2 & -> & -> & ->).
      exists (Tok k :: s1), s2. by rewrite render_cons.
Qed.

Lemma tokenized_nil n : tokenized n [].
Proof. by exists []. Qed.

Lemma tokenized_app n a b : tokenized n a → tokenized n b → tokenized n (a ++ b).
Proof.
  intros (s1 & H1 & ->) (s2 & H2 & ->). exists (s1 ++ s2).
  split; [by apply Forall_app|by rewrite render_app].
Qed.

Lemma tokenized_plain n s : hash_free s → tokenized n s.
Proof.
  intros Hs. exists (Plain <$> s). split; [|by rewrite render_plain].
  by apply Forall_fmap.
Qed.

Lemma tokenized_token n k : k < n → tokenized n (token k).
Proof.
  intros Hk. exists [Tok k]. split; [by repeat constructor|].
  cbn. by rewrite app_nil_r.
Qed.

Lemma tokenized_mono n n' s : n ≤ n' → tokenized n s → tokenized n' s.
Proof.
  intros Hn (segs & Hok & ->). exists segs. split; [|done].
  eapply Forall_impl; [done|]. intros [c|k]; simpl; [done|lia].
Qed.

Lemma tokenized_cut n a c b :
  tokenized n (a ++ c :: b) → tokchar c = false → tokenized n a ∧ tokenized n b.
Proof.
  intros (segs & Hok & Heq) Hc.
  destruct (render_cut n segs a c b Hok (eq_sym Heq) Hc) as (s1 & s2 & -> & -> & ->).
  apply Forall_app in Hok as [H1 H2]. inversion H2; subst.
  split; [by exists s1|by exists s2].
Qed.

Lemma tokenized_drop_prefix n w s :
  Forall (λ c, tokchar c = false) w → tokenized n (w ++ s) → tokenized n s.
Proof.
  induction 1 as [|c w Hc _ IH]; [done|]. intros H. apply IH.
  by apply (tokenized_cut n [] c (w ++ s)).
Qed.

Lemma tokenized_drop_suffix n w s :
  Forall (λ c, tokchar c = false) w → tokenized n (s ++ w) → tokenized n s.
Proof.
  intros Hw H. destruct Hw as [|c w Hc _]; [by rewrite app_nil_r in H|].
  by apply (tokenized_cut n s c w).
Qed.

Lemma tokenized_strip n s : tokenized n s → tokenized n (strip s).
Proof.
  intros Hs. unfold strip.
  destruct (lstrip_suffix s) as (w1 & H1 & Hw1).
  destruct (rstrip_prefix (lstrip s)) as (w2 & H2 & Hw2).
  rewrite H1 in Hs. apply tokenized_drop_prefix in Hs.
  2:{ eapply Forall_impl; [done|]. apply space_not_tokchar. }
  rewrite H2 in Hs. apply tokenized_drop_suffix in Hs; [done|].
  eapply Forall_impl; [done|]. apply space_not_tokchar.
Qed.

(** Replacing a text that starts and ends with characters no placeholder
    holds keeps the placeholders whole. *)
Lemma tokenized_replace n p q o1 o2 new s :
  tokchar p = false → tokchar q = false → p :: o1 = o2 ++ [q] →
  tokenized n new → tokenized n s →
  tokenized n (replace (p :: o1) new s).
Proof.
  intros Hp Hq Hold Hnew (segs & Hok & ->).
  remember (length segs) as len eqn:Hlen. revert segs Hlen Hok.
  induction (lt_wf len) as [len _ IH]. intros segs -> Hok.
  destruct Hok as [|sg segs Hsg Hok]; [by rewrite replace_nil; [apply tokenized_nil|]|].
  rewrite render_cons. destruct sg as [x|k]; cbn [render_seg app].
  - destruct (strip_prefix (p :: o1) (x :: render segs)) as [rest|] eqn:Hpre.
    + apply strip_prefix_Some in Hpre.
      rewrite Hpre, replace_hit by done. apply tokenized_app; [done|].
      assert (render (Plain x :: segs) = o2 ++ q :: rest) as Hcut.
      { change (x :: render segs = o2 ++ q :: rest).
        by rewrite Hpre, Hold, <-(assoc_L (++)). }
      assert (Forall (seg_ok n) (Plain x :: segs)) as Hall by (by constructor).
      destruct (render_cut n _ o2 q rest Hall Hcut Hq) as (s1 & s2 & Hs & _ & ->).
      rewrite Hs in Hall. apply Forall_app in Hall as [_ Hall].
      apply (IH (length s2)); [|done|by inversion Hall].
      apply (f_equal length) in Hs. rewrite length_app in Hs. simpl in *. lia.
    + rewrite replace_miss by done.
      apply (tokenized_app n [x]); [apply tokenized_plain; by repeat constructor|].
      apply (IH (length segs)); [simpl; lia|done|done].
  - rewrite replace_skip.
    2:{ eapply Forall_impl; [apply token_tokchars|]. simpl. intros c Hc ->. congruence. }
    apply tokenized_app; [by apply tokenized_token|].
    apply (IH (length segs)); [simpl; lia|done|done].
Qed.

(** *** The shape of the matches *)

Ltac inv_denotes :=
  repeat match goal with
  | H : denotes _ (Cat _ _) _ _ |- _ => inversion H; subst; clear H
  | H : denotes _ (Lit _) _ _ |- _ => inversion H; subst; clear H
  | H : denotes _ (Grp _) _ _ |- _ => inversion H; subst; clear H
  | H : denotes _ (Plus _) _ _ |- _ => inversion H; subst; clear H
  | H : denotes _ (Star _) _ _ |- _ => inversion H; subst; clear H
  | H : denotes _ Eps _ _ |- _ => inversion H; subst; clear H
  end.

Lemma lit_eq_symbol_eq ic p c :
  is_upper p = false → is_lower p = false → lit_eq ic p c = true → c = p.
Proof. intros Hu Hl. rewrite lit_eq_symbol by done. apply N.eqb_eq. Qed.

Lemma lit_eq_f c : lit_eq true (ch "f") c = true → tokchar c = false.
Proof.
  unfold lit_eq, to_lower. change (is_upper (ch "f")) with false. cbn [negb].
  intros [H|H]%orb_true_iff; [|done].
  apply N.eqb_eq in H. destruct (is_upper c) eqn:Hu.
  - assert (c = 70) as -> by (unfold ch in H; simpl in H; lia). done.
  - by rewrite H.
Qed.

Lemma finder_shape m caps :
  denotes true regex_finder m caps →
  ∃ a f w g1 g2,
    m = ch "(" :: a ++ f :: w ++ g2 ++ [ch ")"] ∧ caps = [g1; g2] ∧
    tokchar f = false ∧ Forall (λ c, is_space c = true) w.
Proof.
  intros H.
  let r := eval vm_compute in regex_finder in change regex_finder with r in H.
  inv_denotes.
  repeat match goal with
  | H : lit_eq true ?p _ = true |- _ =>
      first [ apply (lit_eq_symbol_eq true p) in H; [subst|done|done]
            | apply lit_eq_f in H ]
  end.
  match goal with
  | |- ∃ _ _ _ _ _, [_] ++ [?c3] ++ (?c2 :: ?m) ++ [?c5] ++ ?m4 ++ [?c6] ++ [?c9]
                     ++ ?m7 ++ (?c8 :: ?m0) ++ _ = _ ∧ _ =>
      exists ([c3] ++ (c2 :: m) ++ [c5] ++ m4 ++ [c6]), c9, m7, (c2 :: m), (c8 :: m0)
  end.
  split; [|split; [|split]]; [|reflexivity|assumption|].
  - rewrite <-!(assoc_L (++)). simpl. rewrite ?app_nil_r. reflexivity.
  - match goal with H : Forall _ ?w |- Forall _ ?w => eapply Forall_impl; [exact H|] end.
    simpl. intros c Hc. by rewrite orb_false_r in Hc.
Qed.

Lemma content_shape m caps :
  denotes true regex_content m caps →
  ∃ ct, m = squote :: ct ++ [squote] ∧ caps = [ct] ∧ Forall (λ c, c ≠ squote) ct.
Proof.
  intros H.
  let r := eval vm_compute in regex_content in change regex_content with r in H.
  inv_denotes.
  repeat match goal with
  | H : lit_eq true ?p _ = true |- _ =>
      apply (lit_eq_symbol_eq true p) in H; [subst|done|done]
  end.
  match goal with
  | |- ∃ _, [_] ++ (?c :: ?m) ++ _ = _ ∧ _ => exists (c :: m)
  end.
  split; [|split]; [|reflexivity|].
  - simpl. rewrite ?app_nil_r. reflexivity.
  - assert (∀ c, in_class charset c = true → c ≠ squote) as Hq.
    { intros c Hc ->. by vm_compute in Hc. }
    constructor; [by apply Hq|].
    match goal with H : Forall _ ?w |- Forall _ ?w => eapply Forall_impl; [exact H|] end.
    apply Hq.
Qed.

(** *** The placeholder pattern on a placeholder *)

Lemma star_greedy {R} p ds x (k : text → text → option R) r :
  Forall (λ c, p c = true) ds →
  match x with [] => True | c :: _ => p c = false end →
  k ds x = Some r → star p (ds ++ x) k = Some r.
Proof.
  intros Hds Hx. revert k. induction Hds as [|d ds Hd _ IH]; intros k Hk; simpl.
  - destruct x as [|c x]; [done|]. simpl. by rewrite Hx.
  - rewrite Hd. by rewrite (IH (λ m rest, k (d :: m) rest) Hk).
Qed.

Lemma ascii_digit_is_digit c : ascii_digit c → is_digit c = true.
Proof.
  intros [H1 H2]. unfold is_digit, digit_value, is_ascii.
  assert ((c <? 128) = true) as -> by (apply N.ltb_lt; lia).
  assert ((48 <=? c) = true) as -> by (by apply N.leb_le).
  by assert ((c <=? 57) = true) as -> by (by apply N.leb_le).
Qed.

Lemma placeholder_on_token ic k rest :
  match rest with [] => True | c :: _ => is_digit c = false end →
  match_at ic regex_placeholder (token_body k ++ rest) = Some (match_token k, rest).
Proof.
  intros Hrest. unfold match_token, token_body.
  pose proof (str_of_N_digits k) as Hds. pose proof (str_of_N_nonempty k) as Hne.
  revert Hds Hne. generalize (str_of_N k). intros ds Hds Hne.
  destruct Hds as [|d ds Hd Hds]; [done|].
  unfold match_at.
  let r := eval vm_compute in regex_placeholder in change regex_placeholder with r.
  change (txt "{#subs_") with [123; 35; 115; 117; 98; 115; 95].
  change (txt "}") with [125].
  rewrite <-!(assoc_L (++)). cbn [app rmatch].
  assert (∀ p, lit_eq ic p p = true) as Hrefl.
  { intros p. unfold lit_eq. destruct ic; [|apply N.eqb_refl].
    by rewrite N.eqb_refl. }
  rewrite !Hrefl.
  assert (in_class [CDigit] d = true) as ->.
  { simpl. by rewrite ascii_digit_is_digit. }
  erewrite (star_greedy _ ds (125 :: rest)); [reflexivity| |done|].
  - eapply Forall_impl; [exact Hds|]. simpl. intros c Hc.
    by rewrite ascii_digit_is_digit.
  - cbn [rmatch]. rewrite Hrefl. reflexivity.
Qed.

(** *** One character-code escape in plain text *)

Lemma replace_backtick s :
  replace [backtick] [] s = filter (λ c, c ≠ backtick) s.
Proof.
  induction s as [|c s IH]; [done|].
  destruct (decide (c = backtick)) as [->|Hc].
  - change (backtick :: s) with ([backtick] ++ s).
    rewrite replace_hit, IH by done. cbn [app].
    by rewrite filter_cons_False by tauto.
  - rewrite replace_miss by (by apply strip_prefix_head_ne).
    by rewrite IH, filter_cons_True.
Qed.

Lemma char_on_escape ds rest :
  ds ≠ [] → Forall ascii_digit ds →
  match rest with [] => True | c :: _ => is_digit c = false end →
  match_at true regex_char (txt "[char]" ++ ds ++ rest)
  = Some ({| m_group := txt "[char]" ++ ds; m_groups := [ds] |}, rest).
Proof.
  intros Hne Hds Hrest. destruct Hds as [|d ds Hd Hds]; [done|].
  unfold match_at.
  let r := eval vm_compute in regex_char in change regex_char with r.
  change (txt "[char]") with [91; 99; 104; 97; 114; 93].
  cbn [app rmatch].
  repeat match goal with
  | |- context [lit_eq true ?p ?p] => change (lit_eq true p p) with true; cbv iota
  end.
  assert (in_class [CDigit] d = true) as ->.
  { simpl. by rewrite ascii_digit_is_digit. }
  erewrite (star_greedy _ ds rest); [| | |reflexivity].
  - by rewrite app_nil_r.
  - eapply Forall_impl; [exact Hds|]. simpl. intros c Hc.
    by rewrite ascii_digit_is_digit.
  - destruct rest as [|c rest]; [done|]. simpl. by rewrite Hrest.
Qed.

(** A line with one escape [char]<digits>, between texts that hold no
    bracket: the escape becomes the quoted character of that ordinal, and
    every backtick of the line goes. *)
Lemma char_prepass_single_escape pre ds post :
  Forall (λ c, c ≠ ch "[") pre → Forall (λ c, c ≠ ch "[") post →
  ds ≠ [] → Forall ascii_digit ds →
  match post with [] => True | c :: _ => is_digit c = false end →
  code_point ds →
  char_prepass (pre ++ (txt "[char]" ++ ds) ++ post)
  = Done (filter (λ c, c ≠ backtick) (pre ++ quoted [decimal_value ds] ++ post)).
Proof.
  intros Hpre Hpost Hne Hds Hd Hn. unfold char_prepass.
  assert (∀ u, Forall (λ c, c ≠ ch "[") u →
    Forall (λ c, ∀ t, match_at true regex_char (c :: t) = None) u) as Hskip.
  { intros u Hu. eapply Forall_impl; [exact Hu|]. intros c Hc t. by apply char_first. }
  rewrite finditer_skip by auto.
  rewrite <-(assoc_L (++)).
  rewrite (finditer_Some _ _ _ _ _ _ (search_here _ _ _ _ _ (char_on_escape ds post Hne Hds Hd)))
    by done.
  rewrite finditer_None by (apply search_skip_all; [done|auto]).
  cbn [for_each]. rewrite char_step_code_point by done.
  cbn [mbind outcome_bind m_group group_n m_groups lookup list_lookup default].
  f_equal. rewrite replace_backtick. f_equal.
  rewrite (assoc_L (++) (txt "[char]")).
  change (txt "[char]" ++ ds) with (ch "[" :: (txt "char]" ++ ds)) at 1.
  rewrite replace_skip by done.
  change (ch "[" :: (txt "char]" ++ ds)) with (txt "[char]" ++ ds).
  rewrite replace_hit by done.
  change (txt "[char]" ++ ds) with (ch "[" :: (txt "char]" ++ ds)).
  by rewrite replace_skip_all by done.
Qed.

(** *** The fragments of a match in tokenized text *)

Lemma split_at_first (P : N → Prop) a b x y r r' :
  Forall P a → Forall P b → ¬ P x → ¬ P y →
  a ++ x :: r = b ++ y :: r' → a = b ∧ x = y ∧ r = r'.
Proof.
  intros Ha. revert b. induction Ha as [|c a Hc _ IH]; intros b Hb Hx Hy Heq.
  - destruct Hb as [|d b Hd _]; simpl in Heq.
    + by injection Heq as -> ->.
    + injection Heq as -> _. done.
  - destruct Hb as [|d b Hd Hb]; simpl in Heq.
    + injection Heq as -> _. done.
    + injection Heq as -> Heq. destruct (IH b Hb Hx Hy Heq) as (-> & -> & ->). done.
Qed.

Lemma token_body_no_quote k : Forall (λ c, c ≠ squote) (token_body k).
Proof.
  unfold token_body. rewrite !Forall_app.
  repeat split; [by repeat constructor| |by repeat constructor].
  eapply Forall_impl; [apply str_of_N_digits|].
  unfold ascii_digit, squote. intros c ? ->. lia.
Qed.

Lemma token_unfold k : token k = squote :: token_body k ++ [squote].
Proof. done. Qed.

(** Text up to the first quote holds no placeholder, hence no [#]. *)
Lemma render_before_quote n segs ct a :
  Forall (seg_ok n) segs → render segs = ct ++ squote :: a →
  Forall (λ c, c ≠ squote) ct → hash_free ct.
Proof.
  intros Hok. revert ct. induction Hok as [|sg segs Hsg Hok IH]; intros ct Heq Hct.
  { by destruct ct. }
  rewrite render_cons in Heq.
  destruct ct as [|c ct]; [constructor|]. inversion Hct as [|?? Hc Hct']; subst.
  destruct sg as [x|k]; cbn [render_seg] in Heq.
  - injection Heq as -> Heq. constructor; [exact Hsg|]. exact (IH ct Heq Hct').
  - rewrite token_unfold in Heq. injection Heq as Hq _. congruence.
Qed.

(** A quoted run without a quote inside is free of [#] or is exactly a
    placeholder. *)
Lemma render_between_quotes n segs b ct a :
  Forall (seg_ok n) segs → render segs = b ++ squote :: ct ++ squote :: a →
  Forall (λ c, c ≠ squote) ct →
  hash_free ct ∨ ∃ k, k < n ∧ ct = token_body k.
Proof.
  intros Hok. revert b. induction Hok as [|sg segs Hsg Hok IH]; intros b Heq Hct.
  { by destruct b. }
  rewrite render_cons in Heq. destruct sg as [x|k]; cbn [render_seg] in Heq.
  - destruct b as [|y b]; injection Heq as -> Heq.
    + left. by eapply render_before_quote.
    + by apply (IH b).
  - apply app_eq_inv in Heq as [(z & Htok & Hz)|(z & -> & Hz)]; [|by apply (IH z)].
    destruct z as [|c z].
    { simpl in Hz. by apply (IH []). }
    injection Hz as <- Hz. rewrite token_unfold in Htok.
    pose proof (token_body_no_quote k) as Hbody.
    assert (∃ tb, tb = token_body k) as (tb & Htb) by eauto.
    rewrite <-Htb in Htok, Hbody.
    destruct b as [|y b].
    + injection Htok as <-. rewrite <-(assoc_L (++)) in Hz. simpl in Hz.
      apply (split_at_first (λ c, c ≠ squote)) in Hz as (-> & _ & _);
        [|done|done|tauto|tauto].
      right. by exists k.
    + injection Htok as <- Htok.
      assert (z = []) as ->.
      { change (tb ++ [squote]) with (tb ++ squote :: []) in Htok.
        assert (Forall (λ c, c ≠ squote) b) as Hb.
        { apply app_eq_inv in Htok as [(z' & Hb & Hz')|(z' & Hb & Hz')].
          - rewrite Hb in Hbody. by apply Forall_app in Hbody as [? _].
          - destruct z' as [|c' z']; [rewrite app_nil_r in Hb; by subst|].
            injection Hz' as <- Hz'. by destruct z'. }
        apply (split_at_first (λ c, c ≠ squote)) in Htok as (_ & _ & <-);
          [done|done|done|tauto|tauto]. }
      simpl in Hz. left. by eapply render_before_quote.
Qed.

Lemma content_fragments n t ct :
  tokenized n t → ct ∈ findall true regex_content t →
  hash_free ct ∨ ∃ k, k < n ∧ ct = token_body k.
Proof.
  intros (segs & Hok & ->) Hct. unfold findall in Hct.
  apply list_elem_of_fmap in Hct as (m & -> & Hm).
  apply finditer_sound in Hm as (b & a & Heq & Hd).
  apply content_shape in Hd as (ct & Hg & Hcaps & Hct).
  unfold group_n. rewrite Hcaps. simpl.
  rewrite Hg in Heq. cbn [app] in Heq.
  rewrite <-(assoc_L (++)) in Heq. cbn [app] in Heq.
  by eapply render_between_quotes.
Qed.

(** The second group of a match of the finder in tokenized text. *)
Lemma finder_match_tokenized n c0 word :
  tokenized n c0 → word ∈ finditer true regex_finder c0 →
  tokenized n (group_n word 1) ∧
  ∃ o1 o2, m_group word = ch "(" :: o1 ∧ m_group word = o2 ++ [ch ")"].
Proof.
  intros Hc0 Hw. apply finditer_sound in Hw as (b & a & -> & Hd).
  apply finder_shape in Hd as (x & f & w & g1 & g2 & Hm & Hcaps & Hf & Hw).
  split.
  - unfold group_n. rewrite Hcaps. simpl. rewrite Hm in Hc0.
    replace (b ++ (ch "(" :: x ++ f :: w ++ g2 ++ [ch ")"]) ++ a)
      with ((b ++ ch "(" :: x) ++ f :: ((w ++ g2) ++ ch ")" :: a)) in Hc0
      by (repeat (rewrite <-app_assoc || rewrite <-app_comm_cons); done).
    apply tokenized_cut in Hc0 as [_ Hc0]; [|done].
    apply tokenized_cut in Hc0 as [Hc0 _]; [|done].
    eapply tokenized_drop_prefix; [|done].
    eapply Forall_impl; [done|]. apply space_not_tokchar.
  - rewrite Hm. eexists _, (ch "(" :: x ++ f :: w ++ g2). split; [done|].
    repeat (rewrite <-app_assoc || rewrite <-app_comm_cons). done.
Qed.

(** *** The scanning loop keeps the text tokenized *)

Lemma resolve_step_hash_free n occ contents out p out' :
  map_Forall (λ _ v, hash_free v) occ →
  Forall (λ ct, hash_free ct ∨ ∃ k, k < n ∧ ct = token_body k) contents →
  hash_free out → resolve_step occ contents out p = Done out' → hash_free out'.
Proof.
  intros Hocc Hcs Hout. unfold resolve_step.
  destruct (int10 p) as [index| |]; [|done|done]. cbn [mbind outcome_bind].
  destruct (contents !! _) as [frag|] eqn:Hfrag; [|done]. cbn [or_raise mbind outcome_bind].
  pose proof (Forall_lookup_1 _ _ _ _ Hcs Hfrag) as Hf.
  destruct (match_at false regex_placeholder frag) as [x|] eqn:Hm.
  - destruct (occ !! quoted frag) as [v|] eqn:Hv; [|done].
    cbn [or_raise mbind outcome_bind]. intros [= <-].
    apply Forall_app. split; [done|]. by eapply Hocc.
  - intros [= <-]. apply Forall_app. split; [done|].
    destruct Hf as [Hf|(k & _ & ->)]; [by apply strip_Forall|].
    rewrite <-(app_nil_r (token_body k)), placeholder_on_token in Hm; done.
Qed.

Lemma sweep_step_inv n0 c0 st word st' :
  tokenized n0 c0 → word ∈ finditer true regex_finder c0 →
  scan_inv st ∧ n0 ≤ count_matches st →
  sweep_step st word = Done st' →
  scan_inv st' ∧ n0 ≤ count_matches st'.
Proof.
  intros Hc0 Hw [(Hc & Hkeys & Hvals) Hn]. unfold sweep_step.
  case_match; [|by intros [= <-]].
  destruct (for_each _ _ _) as [out| |] eqn:Hout; [|done|done].
  cbn [mbind outcome_bind]. intros [= <-].
  destruct (finder_match_tokenized n0 c0 word Hc0 Hw) as (Hg2 & o1 & o2 & Ho1 & Ho2).
  assert (hash_free out) as Hfree.
  { eapply (for_each_inv hash_free); [|constructor|exact Hout].
    intros o p o' _ Ho. eapply (resolve_step_hash_free (count_matches st)); [done| |done].
    apply Forall_forall. intros ct Hct.
    eapply content_fragments; [|exact Hct].
    apply tokenized_strip.
    apply (tokenized_mono n0); [done|].
    by apply (tokenized_replace n0 newline newline [] []); [..|apply tokenized_nil|]. }
  split; [|simpl; lia]. split; [|split]; cbn [content count_matches occurrences].
  - change (quoted _) with (token (count_matches st)).
    rewrite Ho1. rewrite Ho1 in Ho2.
    apply (tokenized_replace _ (ch "(") (ch ")") o1 o2); [done|done|done| |].
    + apply tokenized_token. lia.
    + apply (tokenized_mono (count_matches st)); [lia|done].
  - intros k Hk. change (quoted _) with (token (count_matches st)).
    apply lookup_insert_is_Some.
    destruct (decide (token (count_matches st) = token k)); [by left|right].
    split; [done|]. apply Hkeys.
    destruct (decide (k = count_matches st)) as [->|]; [done|lia].
  - by apply map_Forall_insert_2.
Qed.

Lemma sweep_inv st st' :
  scan_inv st → sweep st = Done st' → scan_inv st'.
Proof.
  intros Hst Hsw. unfold sweep in Hsw.
  eapply (for_each_inv (λ s, scan_inv s ∧ count_matches st ≤ count_matches s)) in Hsw
    as [? _]; [done| |split; [done|lia]].
  intros s word s' Hword. eapply sweep_step_inv; [|exact Hword]. apply Hst.
Qed.

Lemma scanning_inv fuel st st' :
  scan_inv st → scanning fuel st = Done st' → scan_inv st'.
Proof.
  revert st. induction fuel as [|fuel IH]; intros st Hst; [done|]. simpl.
  destruct (search true regex_finder (content st)); [|by intros [= <-]].
  destruct (sweep st) as [st1| |] eqn:Hsw; [|done|done].
  cbn [mbind outcome_bind]. apply IH. by eapply sweep_inv.
Qed.

Lemma initial_inv c : hash_free c → scan_inv (initial c).
Proof.
  intros Hc. split; [by apply tokenized_plain|]. split.
  - simpl. intros k Hk. lia.
  - apply map_Forall_empty.
Qed.

(** *** The final sweep on tokenized text *)

Lemma token_head k : ∃ t, token k = squote :: ch "{" :: hash :: t.
Proof. by eexists. Qed.

Lemma render_head_not_hash n segs t :
  Forall (seg_ok n) segs → render segs ≠ hash :: t.
Proof.
  intros Hok. destruct Hok as [|sg segs' Hsg _]; [done|]. rewrite render_cons.
  destruct sg as [x|k]; cbn [render_seg].
  - intros [= -> _]. done.
  - destruct (token_head k) as (t' & ->). done.
Qed.

Lemma render_not_brace_hash n segs t :
  Forall (seg_ok n) segs → render segs ≠ ch "{" :: hash :: t.
Proof.
  intros Hok. destruct Hok as [|sg segs' Hsg Hok]; [done|]. rewrite render_cons.
  destruct sg as [x|k]; cbn [render_seg].
  - intros [= -> Heq]. by eapply render_head_not_hash.
  - destruct (token_head k) as (t' & ->). done.
Qed.

Lemma placeholder_shape ic m caps :
  denotes ic regex_placeholder m caps → ∃ t, m = ch "{" :: hash :: t.
Proof.
  intros H.
  let r := eval vm_compute in regex_placeholder in change regex_placeholder with r in H.
  inv_denotes.
  repeat match goal with
  | H : lit_eq ic ?p _ = true |- _ =>
      first [ apply (lit_eq_symbol_eq ic p) in H; [subst|done|done] | clear H ]
  end.
  by eexists.
Qed.

(** No match of the placeholder pattern starts one character before
    tokenized text. *)
Lemma placeholder_not_before ic n x segs :
  Forall (seg_ok n) segs → match_at ic regex_placeholder (x :: render segs) = None.
Proof.
  intros Hok.
  destruct (match_at ic regex_placeholder (x :: render segs)) as [[m rest]|] eqn:Hm;
    [|done].
  apply match_at_sound in Hm as [Heq Hd].
  apply placeholder_shape in Hd as (t & Ht). rewrite Ht in Heq.
  injection Heq as -> Heq. by apply (render_head_not_hash n) in Heq.
Qed.

Lemma finditer_skip1 ic r c s :
  match_at ic r (c :: s) = None → finditer ic r (c :: s) = finditer ic r s.
Proof.
  intros H. rewrite (finditer_unfold _ _ (c :: s)), (finditer_unfold _ _ s).
  simpl. rewrite H. by destruct (search ic r s) as [[[??]?]|].
Qed.

Lemma token_body_nonempty k : token_body k ≠ [].
Proof. done. Qed.

(** The final sweep finds the placeholders of the text, each once per
    occurrence, and nothing else. *)
Lemma finditer_render n segs :
  Forall (seg_ok n) segs →
  finditer true regex_placeholder (render segs) = match_token <$> toks segs.
Proof.
  induction 1 as [|sg segs Hsg Hok IH].
  { by rewrite finditer_None. }
  rewrite render_cons. destruct sg as [x|k]; cbn [render_seg toks app].
  - rewrite finditer_skip1 by (by eapply placeholder_not_before). done.
  - rewrite token_unfold. cbn [app].
    rewrite finditer_skip1 by (by apply placeholder_first).
    rewrite <-(assoc_L (++)). cbn [app].
    rewrite (finditer_Some _ _ _ [] (match_token k) (squote :: render segs)).
    + rewrite finditer_skip1 by (by apply placeholder_first).
      rewrite IH. done.
    + apply search_here, placeholder_on_token. done.
    + apply token_body_nonempty.
Qed.

Lemma token_prefix_inj j k r r' : token j ++ r = token k ++ r' → j = k.
Proof.
  unfold token, quoted, token_body. intros H.
  repeat (rewrite <-app_assoc in H || rewrite <-app_comm_cons in H).
  cbn [app] in H. injection H as H.
  apply (split_at_first ascii_digit) in H as [H _];
    [by apply str_of_N_inj|apply str_of_N_digits..| |];
    unfold ascii_digit; lia.
Qed.

Lemma strip_prefix_token_None n k segs :
  Forall (seg_ok n) segs → strip_prefix (token k) (squote :: render segs) = None.
Proof.
  intros Hok. destruct (strip_prefix _ _) as [rest|] eqn:Hp; [|done].
  apply strip_prefix_Some in Hp. destruct (token_head k) as (t & Ht).
  rewrite Ht in Hp. injection Hp as Hp. by apply (render_not_brace_hash n) in Hp.
Qed.

(** Replacing a quoted placeholder in tokenized text replaces exactly the
    placeholders of that number. *)
Lemma replace_token_render n k v segs :
  Forall (seg_ok n) segs →
  replace (token k) v (render segs) = render (subst_tok k v segs).
Proof.
  induction 1 as [|sg segs Hsg Hok IH].
  { by rewrite replace_nil. }
  rewrite render_cons. destruct sg as [x|j]; cbn [render_seg subst_tok app].
  - rewrite replace_miss, IH; [done|].
    destruct (strip_prefix _ _) as [rest|] eqn:Hp; [|done].
    apply strip_prefix_Some in Hp. destruct (token_head k) as (t & Ht).
    rewrite Ht in Hp. injection Hp as -> Hp. by apply (render_not_brace_hash n) in Hp.
  - destruct (decide (j = k)) as [->|Hjk].
    + rewrite replace_hit, IH by done. by rewrite render_app, render_plain.
    + rewrite render_cons. cbn [render_seg].
      rewrite (token_unfold j) at 1. cbn [app].
      rewrite replace_miss.
      2:{ destruct (strip_prefix _ _) as [rest|] eqn:Hp; [|done].
          apply strip_prefix_Some in Hp. exfalso. apply Hjk.
          rewrite <-(assoc_L (++)) in Hp. cbn [app] in Hp.
          apply (token_prefix_inj j k (render segs) rest).
          rewrite <-Hp, token_unfold. cbn [app]. by rewrite <-(assoc_L (++)). }
      rewrite <-(assoc_L (++)). cbn [app].
      rewrite (token_unfold k) at 1.
      rewrite replace_skip by apply token_body_no_quote.
      rewrite <-(token_unfold k).
      rewrite replace_miss by (by eapply strip_prefix_token_None).
      rewrite IH, (token_unfold j). cbn [app]. by rewrite <-(assoc_L (++)).
Qed.

Lemma subst_tok_ok n k v segs :
  hash_free v → Forall (seg_ok n) segs → Forall (seg_ok n) (subst_tok k v segs).
Proof.
  intros Hv. induction 1 as [|sg segs Hsg Hok IH]; [constructor|].
  destruct sg as [x|j]; cbn [subst_tok]; [by constructor|].
  destruct (decide (j = k)); [|by constructor].
  apply Forall_app. split; [|done]. by apply Forall_fmap.
Qed.

Lemma toks_plain v : toks (Plain <$> v) = [].
Proof. by induction v. Qed.

Lemma toks_app s1 s2 : toks (s1 ++ s2) = toks s1 ++ toks s2.
Proof.
  induction s1 as [|[x|j] s1 IH]; cbn [toks app]; [done|done|]. by rewrite IH.
Qed.

Lemma toks_subst_tok k v segs j :
  j ∈ toks (subst_tok k v segs) → j ∈ toks segs ∧ j ≠ k.
Proof.
  induction segs as [|[x|i] segs IH]; cbn [subst_tok toks]; [by intros ?%elem_of_nil|done|].
  destruct (decide (i = k)) as [->|Hik].
  - rewrite toks_app, toks_plain. cbn [app]. intros [??]%IH.
    split; [by right|done].
  - cbn [toks]. intros [->|[??]%IH]%elem_of_cons; [by split; [left|]|].
    split; [by right|done].
Qed.

Lemma toks_ok n segs : Forall (seg_ok n) segs → Forall (λ k, k < n) (toks segs).
Proof.
  induction 1 as [|[x|k] segs Hsg Hok IH]; cbn [toks]; [constructor|done|].
  by constructor.
Qed.

Lemma render_no_toks n segs :
  Forall (seg_ok n) segs → toks segs = [] → hash_free (render segs).
Proof.
  induction 1 as [|[x|k] segs Hsg Hok IH]; cbn [toks]; [constructor| |done].
  intros Ht. rewrite render_cons. by constructor; [|apply IH].
Qed.

Lemma expand_step_token occ c k v :
  occ !! token k = Some v →
  expand_step occ c (match_token k) = Done (replace (token k) v c).
Proof.
  intros Hv. unfold expand_step.
  change (quoted (m_group (match_token k))) with (token k). by rewrite Hv.
Qed.

(** The loop of the final sweep over the placeholders [ks]. *)
Lemma expand_render n occ ks segs :
  (∀ k, k < n → ∃ v, occ !! token k = Some v ∧ hash_free v) →
  Forall (λ k, k < n) ks → Forall (seg_ok n) segs →
  ∃ segs',
    for_each (expand_step occ) (render segs) (match_token <$> ks) = Done (render segs') ∧
    Forall (seg_ok n) segs' ∧
    ∀ j, j ∈ toks segs' → j ∈ toks segs ∧ j ∉ ks.
Proof.
  intros Hocc Hks. revert segs. induction Hks as [|k ks Hk _ IH]; intros segs Hok.
  { exists segs. repeat split; [done..|]. by intros ?%elem_of_nil. }
  destruct (Hocc k Hk) as (v & Hv & Hfree).
  cbn [fmap list_fmap for_each]. rewrite (expand_step_token _ _ _ _ Hv).
  cbn [mbind outcome_bind]. rewrite (replace_token_render n) by done.
  destruct (IH (subst_tok k v segs)) as (segs' & Hrun & Hok' & Htoks);
    [by apply subst_tok_ok|].
  exists segs'. repeat split; [done|done|..].
  - by apply Htoks in H as [[??]%toks_subst_tok _].
  - apply Htoks in H as [[??]%toks_subst_tok ?]. by intros [->|?]%elem_of_cons.
Qed.

Lemma hash_free_no_placeholder ic s :
  hash_free s → search ic regex_placeholder s = None.
Proof.
  intros Hs. destruct (search ic regex_placeholder s) as [[[b m] rest]|] eqn:Hm; [|done].
  apply search_sound in Hm as [-> Hd].
  apply placeholder_shape in Hd as (t & Ht). rewrite Ht in Hs.
  apply Forall_app in Hs as [_ Hs]. inversion Hs as [|?? _ Hs']; subst.
  inversion Hs'; subst. done.
Qed.

(** When the scanning loop ends in a state of the invariant, the final sweep
    raises nothing and leaves no [#]. *)
Lemma expanding_inv st :
  scan_inv st → ∃ out, expanding st = Done out ∧ hash_free out.
Proof.
  intros ((segs & Hok & Hc) & Hkeys & Hvals). unfold expanding. rewrite Hc.
  rewrite (finditer_render (count_matches st)) by done.
  destruct (expand_render (count_matches st) (occurrences st) (toks segs) segs)
    as (segs' & Hrun & Hok' & Htoks); [|by apply toks_ok|done|].
  { intros k Hk. destruct (Hkeys k Hk) as [v Hv]. exists v. split; [done|].
    by eapply Hvals. }
  exists (render segs'). split; [done|].
  apply (render_no_toks (count_matches st)); [done|].
  destruct (toks segs') as [|j js] eqn:Hj; [done|].
  destruct (Htoks j) as [Hin Hnot]; [left|]. by destruct Hnot.
Qed.


(** *** Lines on which the character-code pass is all there is to do *)




(** ** The claims of the specification *)

(** C1 (amended).  A line whose text after the character-code pass holds
    the reorder expression ("{2}{0}{1}" -f 'A','B','C'), between texts that
    hold neither the opening of a reorder expression (a parenthesis and a
    double quote) nor the opening of a placeholder (a brace and a [#]),
    comes back with CAB in the place of the expression: the fragments are
    joined in the order of the template (fragment 2, then 0, then 1), not in
    the order of the fragment list.  The line stands anywhere among lines
    on which the function returns; two sweeps of the loop are enough. *)
Theorem reorder_CAB_in_template_order
    fuel before after out_before out_after line pre post :
  deobfuscate_powershell_reorder (S (S fuel)) before = Done out_before →
  deobfuscate_powershell_reorder (S (S fuel)) after = Done out_after →
  char_prepass line = Done (pre ++ expr_CAB ++ post) →
  holds opening pre = false → holds token_opening pre = false →
  holds opening post = false → holds token_opening post = false →
  deobfuscate_powershell_reorder (S (S fuel)) (before ++ line :: after)
  = Done (out_before ++ (pre ++ txt "CAB" ++ post) :: out_after).
Proof.
  unfold deobfuscate_powershell_reorder.
  intros Hb%map_each_Done Ha%map_each_Done Hc Hf1 Hp1 Hf2 Hp2.
  apply map_each_Done, Forall2_app; [done|]. constructor; [|done].
  by apply deobfuscate_line_CAB.
Qed.

(** C2.  On the line ("{5}" -f 'A') the template and the fragment list have
    the same length, so the loop indexes the one-element fragment list at 5:
    the run ends in IndexError instead of returning the line unchanged. *)
Theorem out_of_range_index_raises fuel :
  deobfuscate_powershell_reorder (S fuel) [expr_out_of_range] = Raise IndexError.
Proof. vm_compute. reflexivity. Qed.

(** C3.  On the line ("{0}{1}" -f 'A','B','C') the lengths differ, the sweep
    skips the expression, and the loop condition still finds it: no number
    of sweeps makes the function return. *)
Theorem length_mismatch_never_returns fuel :
  deobfuscate_powershell_reorder fuel [expr_mismatch] = OutOfFuel.
Proof.
  unfold deobfuscate_powershell_reorder, deobfuscate_line. cbn [map_each].
  assert (char_prepass expr_mismatch = Done expr_mismatch) as -> by (by vm_compute).
  cbn [mbind outcome_bind].
  by rewrite (scanning_stuck _ _ sweep_mismatch search_mismatch).
Qed.

(** C4.  The scanning loop does not end on every line: on the mismatched
    expression a sweep resolves nothing and changes nothing, a match is
    still there, and the loop is out of fuel whatever the fuel. *)
Theorem scanning_loops_on_mismatch fuel :
  sweep (initial expr_mismatch) = Done (initial expr_mismatch) ∧
  is_Some (search true regex_finder (content (initial expr_mismatch))) ∧
  scanning fuel (initial expr_mismatch) = OutOfFuel.
Proof.
  split; [apply sweep_mismatch|]. split; [apply search_mismatch|].
  apply scanning_stuck; [apply sweep_mismatch|apply search_mismatch].
Qed.

(** C5 (amended).  For a line whose text after the character-code pass holds
    no [#]: when the scanning loop ends, every placeholder in the text is one
    the loop minted and has its table entry, the final sweep raises nothing,
    and the returned line holds no [#], hence no occurrence of the
    placeholder shape. *)
Theorem no_placeholder_left fuel line c st :
  char_prepass line = Done c → hash_free c →
  scanning fuel (initial c) = Done st →
  ∃ out, deobfuscate_line fuel line = Done out ∧ hash_free out ∧
         search true regex_placeholder out = None.
Proof.
  intros Hpre Hc Hscan.
  destruct (expanding_inv st) as (out & Hout & Hfree).
  { eapply scanning_inv; [|exact Hscan]. by apply initial_inv. }
  exists out. split; [|split; [done|by apply hash_free_no_placeholder]].
  unfold deobfuscate_line. rewrite Hpre. cbn [mbind outcome_bind].
  by rewrite Hscan.
Qed.

(** C6.  The character-code pass replaces the text of each escape wherever
    it occurs: on [char]7[char]72 the first escape is a prefix of the second,
    which becomes the quoted character 7 followed by the digit 2 and never
    the quoted H. *)
Theorem char_code_prefix_clash fuel :
  deobfuscate_powershell_reorder (S fuel) [txt "[char]7[char]72"]
  = Done [quoted [7] ++ quoted [7] ++ txt "2"].
Proof. vm_compute. reflexivity. Qed.

(** The escape of the specification's example: [char]72 next to a backtick
    becomes the quoted H, and the backtick goes. *)
Lemma char_code_H fuel :
  char_prepass (txt "`[char]72") = Done (txt "'H'") ∧
  deobfuscate_powershell_reorder (S fuel) [txt "`[char]72"] = Done [txt "'H'"].
Proof. split; vm_compute; reflexivity. Qed.

(** C7 (amended).  Lines that hold neither the two characters a reorder
    expression opens with (a parenthesis and a double quote), nor a
    character-code escape, nor the two characters a placeholder opens with
    (a brace and a [#]) come back unchanged. *)
Theorem clean_lines_unchanged fuel lines :
  Forall clean_line lines →
  deobfuscate_powershell_reorder (S fuel) lines = Done lines.
Proof.
  unfold deobfuscate_powershell_reorder.
  induction 1 as [|l lines Hl _ IH]; [done|].
  cbn [map_each]. rewrite deobfuscate_line_clean by done.
  cbn [mbind outcome_bind]. by rewrite IH.
Qed.

(** C9.  An exception raised on one line leaves the function without any
    result: the second line below has an index out of range, and nothing
    is returned for the first line either. *)
Theorem exception_leaves_no_output fuel :
  deobfuscate_powershell_reorder (S fuel) [txt "Write-Host 1"; expr_out_of_range]
  = Raise IndexError.
Proof. vm_compute. reflexivity. Qed.

(** When the function returns, it returns one line per input line. *)
Lemma one_line_per_line fuel lines out :
  deobfuscate_powershell_reorder fuel lines = Done out → length out = length lines.
Proof. apply map_each_length. Qed.


(** ** Further properties of the resolver *)

(** *** Exceptions of the character-code pass *)

Lemma char_step_not_code_point c m :
  ¬ code_point (group_n m 0) →
  char_step c m = Raise (escape_error (group_n m 0)).
Proof.
  intros Hm. unfold char_step, escape_error.
  destruct (Nat.leb_spec (length (group_n m 0)) 4300) as [Hlen|Hlen].
  - rewrite int10_short by done. cbn [mbind outcome_bind andb]. unfold chr.
    destruct (N.ltb_spec (decimal_value (group_n m 0)) 1114112) as [Hlt|_].
    { by destruct Hm. }
    destruct (N.ltb_spec (decimal_value (group_n m 0)) 2147483648) as [H|H].
    + by destruct (N.leb_spec 2147483648 (decimal_value (group_n m 0))); [lia|].
    + by destruct (N.leb_spec 2147483648 (decimal_value (group_n m 0))); [|lia].
  - by rewrite int10_long by done.
Qed.

Lemma code_point_dec ds : code_point ds ∨ ¬ code_point ds.
Proof.
  unfold code_point.
  destruct (Nat.le_gt_cases (length ds) 4300);
    destruct (N.lt_ge_cases (decimal_value ds) 1114112); [by left|right; lia..].
Qed.

Lemma char_steps_outcome l c0 :
  match for_each char_step c0 l with
  | Done _ => Forall (λ m, code_point (group_n m 0)) l
  | Raise e =>
      ∃ l1 m l2, l = l1 ++ m :: l2 ∧
        Forall (λ m, code_point (group_n m 0)) l1 ∧
        ¬ code_point (group_n m 0) ∧ e = escape_error (group_n m 0)
  | OutOfFuel => False
  end.
Proof.
  revert c0. induction l as [|m l IH]; intros c0; [by constructor|].
  cbn [for_each].
  destruct (code_point_dec (group_n m 0)) as [Hm|Hm].
  - rewrite char_step_code_point by done. cbn [mbind outcome_bind].
    specialize (IH (replace [backtick] []
      (replace (m_group m) (quoted [decimal_value (group_n m 0)]) c0))).
    destruct (for_each _ _ l) as [c| |]; [by constructor| |done].
    destruct IH as (l1 & m' & l2 & -> & Hl1 & Hge & ->).
    exists (m :: l1), m', l2. by repeat split; [constructor|..].
  - rewrite char_step_not_code_point by done. cbn [mbind outcome_bind].
    by exists [], m, l.
Qed.

(** *** A placeholder shape that the loop did not put there *)

Lemma scanning_no_expression fuel st :
  search true regex_finder (content st) = None → scanning (S fuel) st = Done st.
Proof. intros H. simpl. by rewrite H. Qed.

(** *** Indices of the template *)

Lemma resolve_step_outcome occ contents out p :
  match resolve_step occ contents out p with
  | Done _ =>
      (length p ≤ 4300)%nat ∧ (N.to_nat (decimal_value p) < length contents)%nat
  | Raise e =>
      (e = ValueError ∧ (4300 < length p)%nat) ∨
      (e = IndexError ∧ (length p ≤ 4300)%nat ∧
       (length contents ≤ N.to_nat (decimal_value p))%nat) ∨
      e = KeyError
  | OutOfFuel => False
  end.
Proof.
  unfold resolve_step.
  destruct (Nat.le_gt_cases (length p) 4300) as [Hlen|Hlen].
  - rewrite int10_short by done. cbn [mbind outcome_bind].
    destruct (contents !! N.to_nat (decimal_value p)) as [frag|] eqn:Hfrag;
      cbn [or_raise mbind outcome_bind].
    + apply lookup_lt_Some in Hfrag.
      destruct (match_at false regex_placeholder frag) as [?|]; [|done].
      destruct (occ !! quoted frag) as [v|]; cbn [or_raise mbind outcome_bind]; [done|].
      by right; right.
    + apply lookup_ge_None in Hfrag. by right; left.
  - rewrite int10_long by done. by left.
Qed.

Lemma resolve_out_of_range occ contents positions out p :
  p ∈ positions → (length contents ≤ N.to_nat (decimal_value p))%nat →
  ∃ e, for_each (resolve_step occ contents) out positions = Raise e ∧
       (e = IndexError ∨ e = KeyError ∨ e = ValueError).
Proof.
  intros Hin Hp. revert out.
  induction positions as [|a positions IH]; intros out; [by apply elem_of_nil in Hin|].
  cbn [for_each]. pose proof (resolve_step_outcome occ contents out a) as Ha.
  destruct (resolve_step occ contents out a) as [out1|e|]; cbn [mbind outcome_bind];
    [|exists e; split; [done|tauto]|done].
  apply IH. apply elem_of_cons in Hin as [->|Hin]; [lia|done].
Qed.

Lemma resolve_raises occ contents positions out e :
  for_each (resolve_step occ contents) out positions = Raise e →
  e = IndexError ∨ e = KeyError ∨ e = ValueError.
Proof.
  revert out. induction positions as [|a positions IH]; intros out; [done|].
  cbn [for_each]. pose proof (resolve_step_outcome occ contents out a) as Ha.
  destruct (resolve_step occ contents out a) as [out1|e'|]; cbn [mbind outcome_bind];
    [apply IH| |done].
  intros [= <-]. tauto.
Qed.

Lemma resolve_not_out_of_fuel occ contents positions out :
  for_each (resolve_step occ contents) out positions ≠ OutOfFuel.
Proof.
  revert out. induction positions as [|a positions IH]; intros out; [done|].
  cbn [for_each]. pose proof (resolve_step_outcome occ contents out a) as Ha.
  destruct (resolve_step occ contents out a) as [out1|e'|]; cbn [mbind outcome_bind];
    [apply IH|done|done].
Qed.

Lemma sweep_step_outcome st word :
  match sweep_step st word with
  | Done _ => True
  | Raise e => e = IndexError ∨ e = KeyError ∨ e = ValueError
  | OutOfFuel => False
  end.
Proof.
  unfold sweep_step. destruct (Nat.eqb _ _); [|done].
  destruct (for_each _ _ _) as [out|e|] eqn:Hout; cbn [mbind outcome_bind]; [done| |].
  - by eapply resolve_raises.
  - by eapply resolve_not_out_of_fuel.
Qed.

Lemma sweep_steps_raise st l word :
  word ∈ l →
  (∀ st0, ∃ e, sweep_step st0 word = Raise e) →
  ∃ e, for_each sweep_step st l = Raise e ∧
       (e = IndexError ∨ e = KeyError ∨ e = ValueError).
Proof.
  intros Hin Hword. revert st.
  induction l as [|a l IH]; intros st; [by apply elem_of_nil in Hin|].
  cbn [for_each]. pose proof (sweep_step_outcome st a) as Ha.
  destruct (sweep_step st a) as [st1|e|] eqn:Hstep; cbn [mbind outcome_bind]; [|by eauto|done].
  apply elem_of_cons in Hin as [->|Hin]; [|by apply IH].
  destruct (Hword st) as [e He]. congruence.
Qed.

(** X1.  The character-code pass returns exactly when every digit run it
    meets is within the digit limit of [int], 4300 digits, and below
    0x110000, the bound of [chr]; otherwise it raises at the first run that
    is not: OverflowError when the run is within the limit and 2^31 or
    more, ValueError in every other case. *)
Theorem char_prepass_returns_iff line :
  ((∃ c, char_prepass line = Done c) ↔
   Forall (λ m, code_point (group_n m 0)) (finditer true regex_char line)) ∧
  (∀ e, char_prepass line = Raise e →
     ∃ l1 m l2, finditer true regex_char line = l1 ++ m :: l2 ∧
       Forall (λ m, code_point (group_n m 0)) l1 ∧
       ¬ code_point (group_n m 0) ∧ e = escape_error (group_n m 0)) ∧
  char_prepass line ≠ OutOfFuel.
Proof.
  pose proof (char_steps_outcome (finditer true regex_char line) line) as H.
  unfold char_prepass. split; [split|split].
  - intros [c Hc]. by rewrite Hc in H.
  - apply char_prepass_returns.
  - intros e He. by rewrite He in H.
  - intros He. by rewrite He in H.
Qed.

(** X2.  A line with one escape [char]<digits> between texts that hold no
    opening bracket, the digits at most 4300 and those of a code point: the
    escape becomes the quoted character of that code, and every backtick
    of the line goes with it. *)
Theorem single_escape_converted pre ds post :
  Forall (λ c, c ≠ ch "[") pre → Forall (λ c, c ≠ ch "[") post →
  ds ≠ [] → Forall ascii_digit ds →
  match post with [] => True | c :: _ => is_digit c = false end →
  (length ds ≤ 4300)%nat → decimal_value ds < 1114112 →
  char_prepass (pre ++ (txt "[char]" ++ ds) ++ post)
  = Done (filter (λ c, c ≠ backtick) (pre ++ quoted [decimal_value ds] ++ post)).
Proof. intros ????? Hlen Hn. by apply char_prepass_single_escape. Qed.

(** X3.  A line with no character-code escape and no reorder expression that
    holds text of the placeholder shape {#subs_N}: the table is empty when
    the final sweep looks the shape up, and the function raises KeyError. *)
Theorem unknown_placeholder_raises fuel line :
  search true regex_char line = None →
  search true regex_finder line = None →
  is_Some (search true regex_placeholder line) →
  deobfuscate_line (S fuel) line = Raise KeyError.
Proof.
  intros Hc Hf [[[before m] rest] Hp]. unfold deobfuscate_line.
  rewrite char_prepass_no_escape by done. cbn [mbind outcome_bind].
  rewrite scanning_no_expression by done. cbn [mbind outcome_bind].
  unfold expanding. rewrite finditer_unfold. cbn [initial content occurrences].
  rewrite Hp. cbn [for_each].
  assert (expand_step ∅ line m = Raise KeyError) as ->; [|done].
  unfold expand_step. by rewrite lookup_empty.
Qed.

(** X4.  An expression whose template and fragment list have the same length
    and whose template names an index that is not below that length: the
    function raises on the line, IndexError at the index, KeyError at an
    earlier fragment of the placeholder shape, or ValueError where [int]
    refuses an index of more than 4300 digits; the index is never
    checked. *)
Theorem unchecked_index_raises fuel line c word p :
  char_prepass line = Done c →
  word ∈ finditer true regex_finder c →
  p ∈ findall true regex_position (strip (replace [newline] [] (group_n word 0))) →
  length (findall true regex_position (strip (replace [newline] [] (group_n word 0))))
  = length (findall true regex_content (strip (replace [newline] [] (group_n word 1)))) →
  (length (findall true regex_content (strip (replace [newline] [] (group_n word 1))))
   ≤ N.to_nat (decimal_value p))%nat →
  ∃ e, deobfuscate_line (S fuel) line = Raise e ∧
       (e = IndexError ∨ e = KeyError ∨ e = ValueError).
Proof.
  intros Hc Hword Hp Hlen Hge. unfold deobfuscate_line.
  rewrite Hc. cbn [mbind outcome_bind scanning].
  assert (is_Some (search true regex_finder (content (initial c)))) as [x ->].
  { cbn [initial content]. rewrite finditer_unfold in Hword.
    destruct (search true regex_finder c); [by eexists|by apply elem_of_nil in Hword]. }
  destruct (sweep_steps_raise (initial c) _ word Hword) as (e & He & HE).
  { intros st0. unfold sweep_step. rewrite Hlen, Nat.eqb_refl.
    destruct (resolve_out_of_range (occurrences st0) _ _ [] p Hp Hge) as (e & -> & _).
    by exists e. }
  exists e. unfold sweep. change (content (initial c)) with c. by rewrite He.
Qed.

(** *** [str.replace] and additive measures of a text *)

Section Measure.
Context (mu : text → nat) (mu_app : ∀ a b, mu (a ++ b) = (mu a + mu b)%nat).

Lemma replace_measure_le old new s :
  old ≠ [] → (mu new ≤ mu old)%nat → (mu (replace old new s) ≤ mu s)%nat.
Proof.
  intros Hold Hle. remember (length s) as n eqn:Hn. revert s Hn.
  induction (lt_wf n) as [n _ IH]. intros s ->.
  destruct s as [|c s]; [by rewrite replace_nil|].
  destruct (strip_prefix old (c :: s)) as [rest|] eqn:Hp.
  - apply strip_prefix_Some in Hp. rewrite Hp, replace_hit, !mu_app by done.
    assert (mu (replace old new rest) ≤ mu rest)%nat; [|lia].
    eapply IH; [|done]. rewrite Hp.
    destruct old; [done|]. simpl. rewrite length_app. lia.
  - rewrite replace_miss by done.
    change (c :: replace old new s) with ([c] ++ replace old new s).
    change (c :: s) with ([c] ++ s). rewrite !mu_app.
    assert (mu (replace old new s) ≤ mu s)%nat; [|lia].
    eapply IH; [|done]. simpl. lia.
Qed.

(** Where [old] occurs, a replacement of smaller measure makes the text
    smaller. *)
Lemma replace_measure_lt old new b a :
  old ≠ [] → (mu new < mu old)%nat →
  (mu (replace old new (b ++ old ++ a)) < mu (b ++ old ++ a))%nat.
Proof.
  intros Hold Hlt.
  assert (∀ s rest, s = old ++ rest → (mu (replace old new s) < mu s)%nat) as Hhit.
  { intros s rest ->. rewrite replace_hit, !mu_app by done.
    pose proof (replace_measure_le old new rest Hold). lia. }
  induction b as [|c b IH]; [by eapply Hhit|].
  destruct (strip_prefix old ((c :: b) ++ old ++ a)) as [rest|] eqn:Hp.
  - apply strip_prefix_Some in Hp. by eapply Hhit.
  - cbn [app] in *. rewrite replace_miss by done.
    change (c :: replace old new (b ++ old ++ a))
      with ([c] ++ replace old new (b ++ old ++ a)).
    change (c :: b ++ old ++ a) with ([c] ++ (b ++ old ++ a)).
    rewrite !(mu_app [c]). lia.
Qed.

End Measure.

(** *** The scanning loop ends unless it meets a length mismatch *)

Lemma parens_app a b : parens (a ++ b) = (parens a + parens b)%nat.
Proof. unfold parens. by rewrite filter_app, length_app. Qed.

Lemma parens_none s : Forall (λ c, c ≠ ch "(") s → parens s = 0%nat.
Proof.
  unfold parens. induction 1 as [|c s Hc _ IH]; [done|].
  by rewrite filter_cons_False.
Qed.

Lemma parens_token n : parens (token n) = 0%nat.
Proof.
  apply parens_none. unfold token, token_body, quoted.
  rewrite !Forall_app. repeat split; try (repeat constructor; vm_compute; discriminate).
  eapply Forall_impl; [apply str_of_N_digits|].
  unfold ascii_digit. change (ch "(") with 40. intros c ? ->. lia.
Qed.

Lemma finder_match_parens word s :
  word ∈ finditer true regex_finder s →
  (0 < parens (m_group word))%nat ∧ ∃ b a, s = b ++ m_group word ++ a.
Proof.
  intros (b & a & Hs & Hd)%finditer_sound. split; [|by eauto].
  apply finder_shape in Hd as (x & f & w & g1 & g2 & -> & _).
  unfold parens. rewrite filter_cons_True by done. simpl. lia.
Qed.

Lemma sweep_step_cases st word st' :
  sweep_step st word = Done st' →
  (mismatched word ∧ st' = st) ∨
  (content st' = replace (m_group word) (token (count_matches st)) (content st) ∧
   count_matches st' = count_matches st + 1).
Proof.
  unfold sweep_step, mismatched.
  destruct (Nat.eqb_spec
    (length (findall true regex_position (strip (replace [newline] [] (group_n word 0)))))
    (length (findall true regex_content (strip (replace [newline] [] (group_n word 1))))))
    as [Heq|Hne].
  - destruct (for_each _ _ _) as [out| |]; cbn [mbind outcome_bind]; [|done|done].
    intros [= <-]. by right.
  - intros [= <-]. by left.
Qed.

(** A sweep leaves the state as it is or takes an opening parenthesis out
    of the text. *)
Lemma sweep_progress st st' :
  sweep st = Done st' →
  st' = st ∨ (parens (content st') < parens (content st))%nat.
Proof.
  unfold sweep.
  apply (for_each_inv
    (λ cur, cur = st ∨ (parens (content cur) < parens (content st))%nat));
    [|by left].
  intros cur word cur' Hword Hcur Hstep.
  apply sweep_step_cases in Hstep as [[_ ->]|[Hc _]]; [done|]. right.
  apply finder_match_parens in Hword as (Hpos & b & a & Hs).
  rewrite Hc. destruct Hcur as [->|Hlt].
  - rewrite Hs at 1 2. apply (replace_measure_lt parens parens_app).
    + intros Hnil. rewrite Hnil in Hpos. unfold parens in Hpos. simpl in Hpos. lia.
    + by rewrite parens_token.
  - eapply Nat.le_lt_trans; [|exact Hlt].
    apply (replace_measure_le parens parens_app).
    + intros Hnil. rewrite Hnil in Hpos. unfold parens in Hpos. simpl in Hpos. lia.
    + rewrite parens_token. lia.
Qed.

Lemma sweep_steps_count l st st' :
  for_each sweep_step st l = Done st' →
  count_matches st ≤ count_matches st' ∧
  (count_matches st' = count_matches st → Forall mismatched l).
Proof.
  revert st. induction l as [|word l IH]; intros st.
  - intros [= <-]. split; [lia|by constructor].
  - cbn [for_each].
    destruct (sweep_step st word) as [st1| |] eqn:Hstep; cbn [mbind outcome_bind];
      [|done|done].
    intros [Hle Hall]%IH.
    apply sweep_step_cases in Hstep as [[Hmis ->]|[_ Hn]].
    + split; [done|]. intros Heq. constructor; [done|by apply Hall].
    + split; [lia|]. intros Heq. lia.
Qed.

Lemma sweep_not_out_of_fuel st : sweep st ≠ OutOfFuel.
Proof.
  unfold sweep. generalize (finditer true regex_finder (content st)) as l.
  intros l. generalize st as cur.
  induction l as [|word l IH]; intros cur; [done|].
  cbn [for_each]. pose proof (sweep_step_outcome cur word) as Hw.
  destruct (sweep_step cur word); cbn [mbind outcome_bind]; [apply IH|done|done].
Qed.

(** A sweep that changes nothing has skipped every expression it met. *)
Lemma sweep_fixed_mismatched st :
  sweep st = Done st → Forall mismatched (finditer true regex_finder (content st)).
Proof. intros H. by apply (sweep_steps_count _ _ _ H). Qed.

(** X5.  While the loop runs it either leaves the function by an exception, or
    ends, or reaches a text on which a sweep changes nothing because every
    expression in it has a template and a fragment list of different
    lengths; one sweep more than the text has opening parentheses is
    enough to tell.  On such a text the loop turns for ever. *)
Theorem scanning_ends_unless_mismatch fuel st :
  (parens (content st) < fuel)%nat →
  scanning fuel st = OutOfFuel →
  ∃ st', rtc turn st st' ∧
         is_Some (search true regex_finder (content st')) ∧
         Forall mismatched (finditer true regex_finder (content st')) ∧
         sweep st' = Done st' ∧
         ∀ fuel', scanning fuel' st' = OutOfFuel.
Proof.
  revert st. induction fuel as [|fuel IH]; intros st Hfuel Hrun; [lia|].
  cbn [scanning] in Hrun.
  destruct (search true regex_finder (content st)) as [x|] eqn:Hs; [|done].
  destruct (sweep st) as [st1| |] eqn:Hsw; cbn [mbind outcome_bind] in Hrun;
    [|done|by apply sweep_not_out_of_fuel in Hsw].
  destruct (sweep_progress _ _ Hsw) as [->|Hlt].
  - exists st. split; [done|]. split; [by eexists|].
    split; [by apply sweep_fixed_mismatched|]. split; [done|].
    intros fuel'. apply scanning_stuck; [done|by eexists].
  - destruct (IH st1) as (st' & Hreach & Hst'); [lia|done|].
    exists st'. split; [|done].
    eapply rtc_l; [|exact Hreach]. split; [by eexists|done].
Qed.

Lemma sweep_steps_mismatched l st :
  Forall mismatched l → for_each sweep_step st l = Done st.
Proof.
  induction 1 as [|word l Hword _ IH]; [done|].
  cbn [for_each].
  assert (sweep_step st word = Done st) as ->; [|done].
  unfold sweep_step. by destruct (Nat.eqb_spec
    (length (findall true regex_position (strip (replace [newline] [] (group_n word 0)))))
    (length (findall true regex_content (strip (replace [newline] [] (group_n word 1)))))).
Qed.

(** X6.  A line on which every reorder expression has a template and a
    fragment list of different lengths: the loop turns for ever, the
    function does not return whatever the number of sweeps. *)
Theorem every_mismatch_never_returns line c :
  char_prepass line = Done c →
  is_Some (search true regex_finder c) →
  Forall mismatched (finditer true regex_finder c) →
  ∀ fuel, deobfuscate_line fuel line = OutOfFuel.
Proof.
  intros Hc Hs Hall fuel. unfold deobfuscate_line. rewrite Hc.
  cbn [mbind outcome_bind]. rewrite scanning_stuck; [done| |done].
  unfold sweep. by apply sweep_steps_mismatched.
Qed.

(** *** The characters of the returned line *)

Lemma token_in_alphabet n : Forall (λ x, x ∈ token_alphabet) (token n).
Proof.
  unfold token, token_body, quoted.
  rewrite !Forall_app. repeat split;
    try (repeat constructor; apply list_elem_of_In; vm_compute; tauto).
  eapply Forall_impl; [apply str_of_N_digits|].
  unfold ascii_digit. intros c Hc. apply list_elem_of_In.
  unfold token_alphabet, squote. change (txt "{#subs_}0123456789")
    with [123; 35; 115; 117; 98; 115; 95; 125; 48; 49; 50; 51; 52; 53; 54; 55; 56; 57].
  assert (c = 48 ∨ c = 49 ∨ c = 50 ∨ c = 51 ∨ c = 52 ∨ c = 53 ∨ c = 54 ∨ c = 55
          ∨ c = 56 ∨ c = 57) as Hd by lia.
  simpl. intuition auto.
Qed.

(** X7.  The resolver invents no character: every character of a line it
    returns is a character of the text after the character-code pass or
    one of the characters of a placeholder. *)
Theorem resolver_writes_known_characters fuel line c out :
  char_prepass line = Done c → deobfuscate_line fuel line = Done out →
  Forall (λ x, x ∈ c ∨ x ∈ token_alphabet) out.
Proof.
  intros Hc. unfold deobfuscate_line. rewrite Hc. cbn [mbind outcome_bind].
  destruct (scanning fuel (initial c)) as [st| |] eqn:Hs; [|done|done].
  cbn [mbind outcome_bind]. intros Hout.
  eapply (resolve_Forall (λ x, x ∈ c ∨ x ∈ token_alphabet)); [| |done|done].
  - intros n. eapply Forall_impl; [apply token_in_alphabet|]. by right.
  - apply Forall_forall. by left.
Qed.

(** ** Properties of the other rewriting rules *)

(** *** [remove_ticks] *)

Lemma remove_ticks_snoc s c :
  remove_ticks (s ++ [c]) = Done (filter (λ x, x ≠ backtick) s ++ [c]).
Proof.
  unfold remove_ticks. rewrite length_app, last_snoc. cbn [length or_raise mbind outcome_bind].
  replace (length s + 1 - 1)%nat with (length s) by lia.
  by rewrite take_app_length, replace_backtick.
Qed.

(** X8.  [remove_ticks] raises IndexError on the empty line.  On any other line
    it removes every backtick but one that is the last character, and
    keeps the last character whatever it is. *)
Theorem remove_ticks_spec :
  remove_ticks [] = Raise IndexError ∧
  ∀ s c, remove_ticks (s ++ [c]) = Done (filter (λ x, x ≠ backtick) s ++ [c]).
Proof. split; [done|apply remove_ticks_snoc]. Qed.

(** X9.  A second pass of [remove_ticks] over its own result changes nothing,
    and the result is never longer than the line. *)
Theorem remove_ticks_idempotent line out :
  remove_ticks line = Done out →
  remove_ticks out = Done out ∧ (length out ≤ length line)%nat.
Proof.
  destruct line as [|c s _] using rev_ind; [done|].
  rewrite remove_ticks_snoc. intros [= <-]. split.
  - rewrite remove_ticks_snoc. do 2 f_equal.
    apply list_filter_filter_l. tauto.
  - rewrite !length_app. pose proof (length_filter (λ x, x ≠ backtick) s). simpl. lia.
Qed.

(** *** [str.split] *)

Lemma split_cons_sep sep s : split sep (sep :: s) = [] :: split sep s.
Proof. simpl. by rewrite N.eqb_refl. Qed.

Lemma split_not_nil sep s : split sep s ≠ [].
Proof.
  induction s as [|c s IH]; [done|]. simpl.
  destruct (c =? sep); [done|]. by destruct (split sep s).
Qed.

Lemma split_cons_other sep c s :
  c ≠ sep →
  ∃ piece pieces, split sep s = piece :: pieces ∧
                  split sep (c :: s) = (c :: piece) :: pieces.
Proof.
  intros Hc. pose proof (split_not_nil sep s) as Hs. simpl.
  destruct (N.eqb_spec c sep) as [?|_]; [done|].
  destruct (split sep s) as [|piece pieces]; [done|]. by eauto.
Qed.

(** Text without the separator is one piece. *)
Lemma split_plain sep s : Forall (λ c, c ≠ sep) s → split sep s = [s].
Proof.
  induction 1 as [|c s Hc _ IH]; [done|].
  destruct (split_cons_other sep c s Hc) as (piece & pieces & Hs & ->).
  rewrite IH in Hs. by injection Hs as <- <-.
Qed.

Lemma split_app_sep sep a s :
  Forall (λ c, c ≠ sep) a → split sep (a ++ sep :: s) = a :: split sep s.
Proof.
  induction 1 as [|c a Hc _ IH]; [apply split_cons_sep|].
  cbn [app].
  destruct (split_cons_other sep c (a ++ sep :: s) Hc) as (piece & pieces & Hs & ->).
  rewrite IH in Hs. by injection Hs as <- <-.
Qed.

(** The pieces, put end to end, are the text without its separators. *)
Lemma split_concat sep s : concat (split sep s) = filter (λ c, c ≠ sep) s.
Proof.
  induction s as [|c s IH]; [done|].
  destruct (decide (c = sep)) as [->|Hc].
  - rewrite split_cons_sep, filter_cons_False by tauto. done.
  - destruct (split_cons_other sep c s Hc) as (piece & pieces & Hs & ->).
    rewrite filter_cons_True by done. rewrite Hs in IH. simpl in *. by rewrite IH.
Qed.

(** *** [add_new_lines_at_semicolons] *)

Lemma statement_nil : statement [].
Proof. split; [done|]. by intros [|??] ?. Qed.

Lemma statement_cons c p :
  c ≠ newline → c ≠ semicolon → statement p → statement (c :: p).
Proof.
  intros Hn Hs [Hp Hsemi]. split; [by constructor|].
  intros [|x a] b; [by intros [= ? _]|]. intros [= _ Hab]. by eapply Hsemi.
Qed.

Lemma statement_semicolon : statement [semicolon].
Proof.
  split; [by repeat constructor|].
  intros [|x a] b; [by intros [= <-]|]. intros [= _ Hab]. by destruct a.
Qed.

(** A statement is free of semicolons, or is such a text and one
    semicolon. *)
Lemma statement_cases p :
  statement p →
  Forall (λ c, c ≠ semicolon) p ∨
  ∃ a, p = a ++ [semicolon] ∧ Forall (λ c, c ≠ semicolon) a.
Proof.
  intros [_ Hsemi]. induction p as [|c p IH]; [by left|].
  destruct (decide (c = semicolon)) as [->|Hc].
  - right. exists []. split; [|done]. by rewrite (Hsemi [] p eq_refl).
  - destruct IH as [Hp|(a & -> & Ha)].
    + intros a b ->. by apply (Hsemi (c :: a) b).
    + left. by constructor.
    + right. exists (c :: a). split; [done|by constructor].
Qed.

(** [line.replace(';', ';\n')], character by character. *)
Lemma replace_semicolon_cons c s :
  replace [semicolon] [semicolon; newline] (c :: s)
  = (if decide (c = semicolon) then [semicolon; newline] else [c])
    ++ replace [semicolon] [semicolon; newline] s.
Proof.
  case_decide as Hc.
  - subst c. change (semicolon :: s) with ([semicolon] ++ s). by rewrite replace_hit.
  - by rewrite replace_miss by (by apply strip_prefix_head_ne).
Qed.

Lemma pieces_statements line :
  Forall statement (split newline (replace [semicolon] [semicolon; newline] line)).
Proof.
  induction line as [|c line IH]; [repeat constructor; by intros [|??] ?|].
  rewrite replace_semicolon_cons. case_decide as Hc.
  - subst c. cbn [app].
    destruct (split_cons_other newline semicolon
      (newline :: replace [semicolon] [semicolon; newline] line))
      as (piece & pieces & Hs & ->); [done|].
    rewrite split_cons_sep in Hs. injection Hs as <- <-.
    constructor; [apply statement_semicolon|done].
  - cbn [app]. destruct (decide (c = newline)) as [->|Hn].
    + rewrite split_cons_sep. constructor; [apply statement_nil|done].
    + destruct (split_cons_other newline c
        (replace [semicolon] [semicolon; newline] line) Hn)
        as (piece & pieces & Hs & ->).
      rewrite Hs in IH. apply Forall_cons in IH as [Hp Hps].
      constructor; [by apply statement_cons|done].
Qed.

Lemma add_new_lines_one_statement lines :
  Forall one_statement (add_new_lines_at_semicolons lines).
Proof.
  unfold add_new_lines_at_semicolons. apply Forall_fmap, Forall_forall.
  intros p [Hp Hin]%list_elem_of_filter.
  apply list_elem_of_bind in Hin as (line & Hin & _).
  pose proof (pieces_statements line) as Hall.
  rewrite Forall_forall in Hall. destruct (Hall p Hin) as [Hnl Hsemi].
  by exists p.
Qed.

(** The pieces of a line that holds one statement: the statement alone. *)
Lemma pieces_of_statement body :
  statement body →
  filter (λ p, p ≠ [])
    (split newline (replace [semicolon] [semicolon; newline] (body ++ [newline])))
  = filter (λ p, p ≠ []) [body].
Proof.
  intros Hst. destruct (statement_cases body Hst) as [Hfree|(a & -> & Hfree)];
    destruct Hst as [Hnl _].
  - rewrite replace_skip_all.
    2:{ apply Forall_app. split; [done|]. by repeat constructor. }
    by rewrite split_app_sep, (split_plain _ []) by done.
  - rewrite <-(assoc_L (++)), replace_skip by done.
    rewrite replace_hit by done.
    rewrite replace_skip_all by (by repeat constructor).
    apply Forall_app in Hnl as [Hnl _].
    change (a ++ [semicolon; newline] ++ [newline])
      with (a ++ [semicolon] ++ newline :: [newline]).
    rewrite (assoc_L (++)), split_app_sep.
    2:{ apply Forall_app. split; [done|]. by repeat constructor. }
    rewrite split_cons_sep. cbn [split].
    rewrite !(filter_cons_True _ (a ++ [semicolon])) by (by destruct a).
    by rewrite !(filter_cons_False _ []) by (intros H; by apply H).
Qed.

Lemma add_new_lines_fixed lines :
  Forall one_statement lines → add_new_lines_at_semicolons lines = lines.
Proof.
  unfold add_new_lines_at_semicolons.
  induction 1 as [|line lines (body & -> & Hne & Hnl & Hsemi) _ IH]; [done|].
  cbn [mbind list_bind]. rewrite filter_app, fmap_app.
  rewrite pieces_of_statement by done.
  rewrite filter_cons_True by done. cbn [fmap list_fmap app].
  f_equal. exact IH.
Qed.

(** Line 186 puts newlines in and line 187 trades the ones that cut the
    text for the ones that end the pieces: what is not a newline stays. *)
Lemma replace_semicolon_filter s :
  filter (λ c, c ≠ newline) (replace [semicolon] [semicolon; newline] s)
  = filter (λ c, c ≠ newline) s.
Proof.
  induction s as [|c s IH]; [done|].
  rewrite replace_semicolon_cons, filter_app, IH. case_decide as Hc.
  - subst c. rewrite !filter_cons_True by done.
    by rewrite filter_cons_False by tauto.
  - destruct (decide (c = newline)) as [->|Hn].
    + by rewrite !filter_cons_False by tauto.
    + by rewrite !filter_cons_True by done.
Qed.

Lemma concat_filter_nonempty (ls : list text) :
  concat (filter (λ p, p ≠ []) ls) = concat ls.
Proof.
  induction ls as [|p ls IH]; [done|].
  destruct (decide (p = [])) as [->|Hp].
  - by rewrite filter_cons_False by tauto.
  - rewrite filter_cons_True by done. simpl. by rewrite IH.
Qed.

Lemma filter_concat_snoc (ls : list text) :
  Forall (Forall (λ c, c ≠ newline)) ls →
  filter (λ c, c ≠ newline) (concat ((λ p, p ++ [newline]) <$> ls)) = concat ls.
Proof.
  induction 1 as [|p ls Hp _ IH]; [done|].
  cbn [fmap list_fmap concat]. rewrite !filter_app, IH.
  rewrite filter_cons_False by tauto. cbn [filter list_filter].
  rewrite app_nil_r. f_equal.
  clear IH. induction Hp as [|c p Hc _ IHp]; [done|].
  by rewrite filter_cons_True, IHp.
Qed.

(** X10.  Every line that [add_new_lines_at_semicolons] returns holds one
    statement: it is not empty, its only newline is its last character,
    and a semicolon in it can only stand right before that newline. *)
Theorem one_statement_per_line lines :
  Forall one_statement (add_new_lines_at_semicolons lines).
Proof. apply add_new_lines_one_statement. Qed.

(** X11.  The lists that [add_new_lines_at_semicolons] returns as they are, are
    the lists of lines that hold one statement each; hence a second pass
    over its own result changes nothing. *)
Theorem add_new_lines_idempotent lines :
  (add_new_lines_at_semicolons lines = lines ↔ Forall one_statement lines) ∧
  add_new_lines_at_semicolons (add_new_lines_at_semicolons lines)
  = add_new_lines_at_semicolons lines.
Proof.
  split; [split|].
  - intros <-. apply add_new_lines_one_statement.
  - apply add_new_lines_fixed.
  - apply add_new_lines_fixed, add_new_lines_one_statement.
Qed.

(** X12.  [add_new_lines_at_semicolons] moves line breaks and nothing else: the
    characters other than the newline are the same before and after, in
    the same order. *)
Theorem add_new_lines_keeps_text lines :
  filter (λ c, c ≠ newline) (concat (add_new_lines_at_semicolons lines))
  = filter (λ c, c ≠ newline) (concat lines).
Proof.
  unfold add_new_lines_at_semicolons. rewrite filter_concat_snoc.
  2:{ apply Forall_forall. intros p [_ Hin]%list_elem_of_filter.
      apply list_elem_of_bind in Hin as (line & Hin & _).
      pose proof (pieces_statements line) as Hall.
      rewrite Forall_forall in Hall. by destruct (Hall p Hin). }
  rewrite concat_filter_nonempty.
  induction lines as [|line lines IH]; [done|].
  cbn [mbind list_bind concat]. rewrite concat_app, filter_app, IH. f_equal.
  by rewrite split_concat, replace_semicolon_filter.
Qed.

(** X13.  After [add_new_lines_at_semicolons] every line ends with a newline, so
    [remove_ticks] raises on none of them and takes every backtick out. *)
Theorem remove_ticks_after_new_lines lines :
  map_each remove_ticks (add_new_lines_at_semicolons lines)
  = Done (filter (λ c, c ≠ backtick) <$> add_new_lines_at_semicolons lines).
Proof.
  pose proof (add_new_lines_one_statement lines) as H.
  induction H as [|line ls (body & -> & _) _ IH]; [done|].
  cbn [map_each fmap list_fmap]. rewrite remove_ticks_snoc.
  cbn [mbind outcome_bind]. rewrite IH. cbn [mbind outcome_bind].
  rewrite filter_app. by rewrite (filter_cons_True _ newline) by done.
Qed.

(** *** Soundness of the second matcher *)

Lemma last_of_nil prev : last_of prev [] = prev.
Proof. done. Qed.

Lemma last_of_app prev a b : last_of prev (a ++ b) = last_of (last_of prev a) b.
Proof.
  unfold last_of. destruct b as [|c b _] using rev_ind.
  - by rewrite app_nil_r.
  - by rewrite (assoc_L (++)), !last_snoc.
Qed.

Lemma last_of_cons prev c m : last_of prev (c :: m) = last_of (Some c) m.
Proof. apply (last_of_app prev [c] m). Qed.

Lemma pdenotes_app p prev s caps m rest caps' :
  pdenotes p prev s caps m rest caps' → s = m ++ rest.
Proof.
  induction 1; subst; try done. by rewrite <-(assoc_L (++)).
Qed.

Lemma pmatch_sound {R} p prev s caps
    (k : text → option N → text → gmap nat text → option R) x :
  pmatch p prev s caps k = Some x →
  ∃ m rest caps', pdenotes p prev s caps m rest caps' ∧
                  k m (last_of prev m) rest caps' = Some x.
Proof.
  revert prev s caps k.
  induction p as [|neg items|neg items|neg items|p1 IH1 p2 IH2|n p IH|n|];
    intros prev s caps k H; simpl in H.
  - exists [], s, caps. by split; [constructor|].
  - destruct s as [|c s]; [done|]. destruct (in_set neg items c) eqn:Hc; [|done].
    exists [c], s, caps. by split; [constructor|].
  - apply star_sound in H as (m & rest & -> & Hm & Hk).
    exists m, rest, caps. by split; [constructor|].
  - destruct s as [|c s]; [done|]. destruct (in_set neg items c) eqn:Hc; [|done].
    apply star_sound in H as (m & rest & -> & Hm & Hk).
    exists (c :: m), rest, caps. rewrite last_of_cons. by split; [constructor|].
  - apply IH1 in H as (m1 & s1 & caps1 & H1 & H).
    apply IH2 in H as (m2 & s2 & caps2 & H2 & H).
    exists (m1 ++ m2), s2, caps2. rewrite last_of_app.
    split; [by econstructor|done].
  - apply IH in H as (m & rest & caps' & Hp & H).
    exists m, rest, (<[n := m]> caps'). by split; [constructor|].
  - destruct (caps !! n) as [g|] eqn:Hg; [|done].
    destruct (strip_prefix g s) as [rest|] eqn:Hs; [|done].
    apply strip_prefix_Some in Hs as ->.
    exists g, rest, caps. by split; [constructor|].
  - destruct (at_boundary prev s) eqn:Hb; [|done].
    exists [], s, caps. by split; [constructor|].
Qed.

Lemma pmatch_at_sound p prev s m rest :
  pmatch_at p prev s = Some (m, rest) →
  pdenotes p prev s ∅ (p_group m) rest (p_groups m).
Proof.
  intros H. apply pmatch_sound in H as (g & rest' & caps & Hd & [= <- <-]). done.
Qed.

(** The leftmost match: no match starts inside [before]. *)
Lemma psearch_sound p prev s before m rest :
  psearch p prev s = Some (before, m, rest) →
  s = before ++ p_group m ++ rest ∧
  pdenotes p (last_of prev before) (p_group m ++ rest) ∅ (p_group m) rest (p_groups m) ∧
  ∀ b1 c b2, before = b1 ++ c :: b2 →
    pmatch_at p (last_of prev b1) (c :: b2 ++ p_group m ++ rest) = None.
Proof.
  revert prev before. induction s as [|c s IH]; intros prev before H; simpl in H.
  - destruct (pmatch_at p prev []) as [[m' rest']|] eqn:Hm; [|done].
    injection H as <- <- <-. apply pmatch_at_sound in Hm.
    pose proof (pdenotes_app _ _ _ _ _ _ _ Hm) as Hs.
    split; [done|]. split; [by rewrite <-Hs|]. by intros [|??] ???.
  - destruct (pmatch_at p prev (c :: s)) as [[m' rest']|] eqn:Hm.
    + injection H as <- <- <-. apply pmatch_at_sound in Hm.
      pose proof (pdenotes_app _ _ _ _ _ _ _ Hm) as Hs.
      split; [done|]. split; [by rewrite <-Hs|]. by intros [|??] ???.
    + destruct (psearch p (Some c) s) as [[[b m'] rest']|] eqn:Hsearch; [|done].
      injection H as <- <- <-.
      destruct (IH _ _ Hsearch) as (-> & Hd & Hleft).
      split; [done|]. split; [by rewrite last_of_cons|].
      intros [|x b1] c' b2; intros [= <- Hb].
      * subst b. exact Hm.
      * rewrite last_of_cons. by apply Hleft.
Qed.

Lemma psearch_None_cons p prev c s :
  psearch p prev (c :: s) = None →
  pmatch_at p prev (c :: s) = None ∧ psearch p (Some c) s = None.
Proof.
  simpl. destruct (pmatch_at p prev (c :: s)) as [[??]|]; [done|].
  by destruct (psearch p (Some c) s) as [[[??]?]|].
Qed.

(** *** [concatenate] *)

Ltac inv_pdenotes :=
  repeat match goal with
  | H : pdenotes (PCat _ _) _ _ _ _ _ _ |- _ => inversion H; subst; clear H
  | H : pdenotes (PGrp _ _) _ _ _ _ _ _ |- _ => inversion H; subst; clear H
  | H : pdenotes (PSet _ _) _ _ _ _ _ _ |- _ => inversion H; subst; clear H
  | H : pdenotes (PStar _ _) _ _ _ _ _ _ |- _ => inversion H; subst; clear H
  | H : pdenotes (PPlus _ _) _ _ _ _ _ _ |- _ => inversion H; subst; clear H
  | H : pdenotes (PRef _) _ _ _ _ _ _ |- _ => inversion H; subst; clear H
  | H : pdenotes PEps _ _ _ _ _ _ |- _ => inversion H; subst; clear H
  | H : pdenotes PBoundary _ _ _ _ _ _ |- _ => inversion H; subst; clear H
  end.

(** The text and the groups of a match of the pattern: two quoted texts
    with a plus sign between them. *)
Lemma concat_shape prev s m rest caps :
  pdenotes pattern_concat prev s ∅ m rest caps →
  ∃ q q' g3 g5 w1 w2,
    m = [q] ++ g3 ++ [q] ++ w1 ++ [ch "+"] ++ w2 ++ [q'] ++ g5 ++ [q'] ∧
    caps !! 2%nat = Some [q] ∧ caps !! 3%nat = Some g3 ∧ caps !! 5%nat = Some g5 ∧
    g3 ≠ [] ∧ g5 ≠ [] ∧ is_quote q ∧ is_quote q' ∧
    Forall (λ c, is_space c = true) (w1 ++ w2).
Proof.
  intros H.
  let r := eval vm_compute in pattern_concat in change pattern_concat with r in H.
  inv_pdenotes.
  repeat match goal with
  | H : in_set false [SChar 39; SChar 34] ?c = true |- _ =>
      assert (is_quote c)
        by (unfold is_quote, squote, dquote; simpl in H;
            destruct (N.eqb_spec c 39); destruct (N.eqb_spec c 34); auto; done);
      clear H
  end.
  match goal with
  | H : in_set false [SChar 43] ?c = true |- _ =>
      assert (c = 43) as -> by (simpl in H; destruct (N.eqb_spec c 43); done)
  end.
  repeat match goal with
  | H : _ !! _ = Some _ |- _ => progress simplify_map_eq
  end.
  match goal with
  | |- ∃ q q' g3 g5 w1 w2, ?q0 :: ?a :: ?g ++ _ :: ?v1 ++ _ :: ?v2 ++ ?q1 :: ?b :: ?h ++ _ = _ ∧ _ =>
      exists q0, q1, (a :: g), (b :: h), v1, v2
  end.
  repeat split; try done.
  apply Forall_app. split.
  all: match goal with
       | H : Forall _ ?w |- Forall _ ?w =>
           eapply Forall_impl; [exact H|]; simpl; intros ? Hc; by rewrite orb_false_r in Hc
       end.
Qed.

Lemma concat_match_shorter prev s m rest caps :
  pdenotes pattern_concat prev s ∅ m rest caps →
  let w := {| p_group := m; p_groups := caps |} in
  (length (group w 2 ++ (group w 3 ++ group w 5) ++ group w 2) < length m)%nat ∧
  ch "+" ∈ m.
Proof.
  intros (q & q' & g3 & g5 & w1 & w2 & -> & H2 & H3 & H5 & _)%concat_shape.
  unfold group. cbn [p_groups]. rewrite H2, H3, H5. cbn [default]. split.
  - rewrite !length_app. simpl. lia.
  - rewrite !elem_of_app. do 4 right. left. by left.
Qed.

Lemma quotes_app a b : quotes (a ++ b) = (quotes a + quotes b)%nat.
Proof. unfold quotes. by rewrite filter_app, length_app. Qed.

Lemma quotes_cons_quote q s : is_quote q → quotes (q :: s) = S (quotes s).
Proof. intros Hq. unfold quotes. by rewrite filter_cons_True. Qed.

Lemma quotes_none s : Forall (λ c, ¬ is_quote c) s → quotes s = 0%nat.
Proof.
  unfold quotes. induction 1 as [|c s Hc _ IH]; [done|].
  by rewrite filter_cons_False.
Qed.

Lemma concat_match_quotes prev s m rest caps :
  pdenotes pattern_concat prev s ∅ m rest caps → (4 ≤ quotes m)%nat.
Proof.
  intros (q & q' & g3 & g5 & w1 & w2 & -> & _ & _ & _ & _ & _ & Hq & Hq' & _)%concat_shape.
  rewrite !quotes_app, !(quotes_cons_quote q), !(quotes_cons_quote q') by done. lia.
Qed.

Lemma psearch_concat_needs line :
  ch "+" ∉ line ∨ (quotes line < 4)%nat → psearch pattern_concat None line = None.
Proof.
  intros Hline.
  destruct (psearch pattern_concat None line) as [[[before m] rest]|] eqn:Hs; [|done].
  apply psearch_sound in Hs as (-> & Hd & _). exfalso.
  destruct Hline as [Hplus|Hq].
  - apply concat_match_shorter in Hd as [_ Hin]. apply Hplus.
    rewrite !elem_of_app. right. by left.
  - apply concat_match_quotes in Hd. rewrite !quotes_app in Hq. lia.
Qed.

(** A turn of the loop makes the line shorter. *)
Lemma concatenate_step_shorter line before m rest :
  psearch pattern_concat None line = Some (before, m, rest) →
  (length (concatenate_step line m) < length line)%nat.
Proof.
  intros (Hs & Hd & _)%psearch_sound.
  apply concat_match_shorter in Hd as [Hlen Hplus].
  destruct m as [g caps]. cbn [p_group] in *. unfold concatenate_step. cbn [p_group].
  rewrite Hs at 1 2. apply (replace_measure_lt length); [apply length_app| |done].
  intros ->. by apply elem_of_nil in Hplus.
Qed.

Lemma concatenate_runs fuel line :
  (length line < fuel)%nat →
  ∃ out, concatenate fuel line = Done out ∧
         psearch pattern_concat None out = None ∧ (length out ≤ length line)%nat.
Proof.
  revert line. induction fuel as [|fuel IH]; intros line Hfuel; [lia|].
  cbn [concatenate].
  destruct (psearch pattern_concat None line) as [[[before m] rest]|] eqn:Hs;
    [|by exists line].
  apply concatenate_step_shorter in Hs.
  destruct (IH (concatenate_step line m)) as (out & Hrun & Hnone & Hlen); [lia|].
  exists out. split; [done|]. split; [done|lia].
Qed.

Lemma concatenate_fixed fuel line out :
  concatenate fuel line = Done out → psearch pattern_concat None out = None.
Proof.
  revert line. induction fuel as [|fuel IH]; intros line; [done|].
  cbn [concatenate].
  destruct (psearch pattern_concat None line) as [[[before m] rest]|] eqn:Hs.
  - apply IH.
  - by intros [= <-].
Qed.

Lemma concatenate_mono fuel fuel' line out :
  concatenate fuel line = Done out → (fuel ≤ fuel')%nat →
  concatenate fuel' line = Done out.
Proof.
  revert fuel' line. induction fuel as [|fuel IH]; intros fuel' line; [done|].
  intros Hrun Hle. destruct fuel' as [|fuel']; [lia|]. cbn [concatenate] in *.
  destruct (psearch pattern_concat None line) as [[[before m] rest]|]; [|done].
  apply IH; [done|lia].
Qed.

Lemma concatenate_no_exception fuel line e : concatenate fuel line ≠ Raise e.
Proof.
  revert line. induction fuel as [|fuel IH]; intros line; [done|].
  cbn [concatenate].
  destruct (psearch pattern_concat None line) as [[[before m] rest]|]; [apply IH|done].
Qed.

(** X14.  [concatenate] returns on every line: the loop makes at most as many
    turns as the line has characters, the line it returns is not longer,
    and the pattern matches nowhere in it. *)
Theorem concatenate_returns line :
  ∃ out, concatenate (S (length line)) line = Done out ∧
         (∀ fuel, finished (concatenate fuel line) → concatenate fuel line = Done out) ∧
         psearch pattern_concat None out = None ∧
         (length out ≤ length line)%nat.
Proof.
  destruct (concatenate_runs (S (length line)) line) as (out & Hrun & Hnone & Hlen); [lia|].
  exists out. split; [done|]. split; [|done].
  intros fuel Hfin. destruct (concatenate fuel line) as [out'|e|] eqn:Hrun'; [| |done].
  - apply (concatenate_mono _ (fuel + S (length line))) in Hrun'; [|lia].
    apply (concatenate_mono _ (fuel + S (length line))) in Hrun; [|lia].
    congruence.
  - by apply concatenate_no_exception in Hrun'.
Qed.

(** X15.  A line without a plus sign, or with fewer than four quote characters,
    comes back from [concatenate] as it is. *)
Theorem concatenate_needs_plus_and_quotes fuel line :
  ch "+" ∉ line ∨ (quotes line < 4)%nat → concatenate (S fuel) line = Done line.
Proof. intros H. cbn [concatenate]. by rewrite psearch_concat_needs. Qed.

(** X16.  What [concatenate] returns, it returns unchanged when it is given it
    again. *)
Theorem concatenate_idempotent fuel fuel' line out :
  concatenate fuel line = Done out → concatenate (S fuel') out = Done out.
Proof.
  intros Hrun%concatenate_fixed. cbn [concatenate]. by rewrite Hrun.
Qed.

(** *** What [concatenate] takes out of a line *)

Lemma replace_filter (P : N → Prop) `{!∀ c, Decision (P c)} old new s :
  old ≠ [] → filter P old = filter P new →
  filter P (replace old new s) = filter P s.
Proof.
  intros Hold Heq. remember (length s) as n eqn:Hn. revert s Hn.
  induction (lt_wf n) as [n _ IH]. intros s ->.
  destruct s as [|c s]; [by rewrite replace_nil|].
  destruct (strip_prefix old (c :: s)) as [rest|] eqn:Hp.
  - apply strip_prefix_Some in Hp. rewrite Hp, replace_hit, !filter_app, Heq by done.
    f_equal. eapply IH; [|done]. rewrite Hp.
    destruct old; [done|]. simpl. rewrite length_app. lia.
  - rewrite replace_miss by done.
    change (c :: replace old new s) with ([c] ++ replace old new s).
    change (c :: s) with ([c] ++ s). rewrite !filter_app. f_equal.
    eapply IH; [|done]. simpl. lia.
Qed.

Lemma filter_glue_all w :
  Forall (λ c, glue c = true) w → filter (λ c, glue c = false) w = [].
Proof.
  induction 1 as [|c w Hc _ IH]; [done|].
  by rewrite filter_cons_False by (by rewrite Hc).
Qed.

Lemma concatenate_step_keeps line before m rest :
  psearch pattern_concat None line = Some (before, m, rest) →
  filter (λ c, glue c = false) (concatenate_step line m)
  = filter (λ c, glue c = false) line.
Proof.
  intros (Hs & Hd & _)%psearch_sound.
  apply concat_shape in Hd
    as (q & q' & g3 & g5 & w1 & w2 & Hm & H2 & H3 & H5 & _ & _ & Hq & Hq' & Hw).
  apply Forall_app in Hw as [Hw1 Hw2].
  unfold concatenate_step, group. rewrite H2, H3, H5. cbn [default]. unfold id.
  assert (∀ x, is_quote x → glue x = true) as Hglue.
  { by intros x [->| ->]. }
  assert (∀ w, Forall (λ c, is_space c = true) w →
               filter (λ c, glue c = false) w = []) as Hspace.
  { intros w Hw. apply filter_glue_all. eapply Forall_impl; [exact Hw|].
    intros c Hc. unfold glue. by rewrite Hc, orb_true_r. }
  apply replace_filter.
  - rewrite Hm. done.
  - rewrite Hm, !filter_app, (Hspace w1), (Hspace w2) by done.
    rewrite !(filter_glue_all [q]), !(filter_glue_all [q']),
      (filter_glue_all [ch "+"]) by (repeat constructor; auto).
    cbn [app]. by rewrite !app_nil_r.
Qed.

(** X17.  [concatenate] takes quotes, plus signs and white space out of a line
    and nothing else: the other characters of the line come back, each
    one, in their order. *)
Theorem concatenate_keeps_text fuel line out :
  concatenate fuel line = Done out →
  filter (λ c, glue c = false) out = filter (λ c, glue c = false) line.
Proof.
  revert line. induction fuel as [|fuel IH]; intros line; [done|].
  cbn [concatenate].
  destruct (psearch pattern_concat None line) as [[[before m] rest]|] eqn:Hs.
  - intros Hrun%IH. rewrite Hrun. by eapply concatenate_step_keeps.
  - by intros [= <-].
Qed.

(** *** Two literals and a plus sign *)

(** Greedy repetition with backtracking: the split that succeeds is taken
    when every longer one fails. *)
Lemma star_None {R} p s (k : text → text → option R) :
  (∀ m rest, s = m ++ rest → Forall (λ c, p c = true) m → k m rest = None) →
  star p s k = None.
Proof.
  revert k. induction s as [|c s IH]; intros k Hk; simpl.
  - by apply (Hk [] []).
  - destruct (p c) eqn:Hc; [|by apply (Hk [] (c :: s))].
    rewrite IH; [by apply (Hk [] (c :: s))|].
    intros m rest -> Hm. apply (Hk (c :: m) rest); [done|by constructor].
Qed.

Lemma star_split {R} p m x (k : text → text → option R) r :
  Forall (λ c, p c = true) m →
  (∀ m2 x2, m2 ≠ [] → x = m2 ++ x2 → Forall (λ c, p c = true) m2 →
            k (m ++ m2) x2 = None) →
  k m x = Some r → star p (m ++ x) k = Some r.
Proof.
  intros Hm. revert k. induction Hm as [|c m Hc _ IH]; intros k Hlong Hk.
  - destruct x as [|c x]; [done|]. simpl. destruct (p c) eqn:Hc; [|done].
    rewrite star_None; [done|].
    intros m2 rest -> Hm2. apply (Hlong (c :: m2) rest); [done|done|by constructor].
  - cbn [app star]. rewrite Hc.
    by rewrite (IH (λ m0 rest, k (c :: m0) rest) Hlong Hk).
Qed.

Lemma pattern_concat_unfold :
  pattern_concat
  = PGrp 1 (PCat (PGrp 2 (PSet false quote_set))
                 (PCat (PGrp 3 (PPlus true [SChar 2])) pattern_concat_tail)).
Proof. reflexivity. Qed.

Lemma in_quote_set c : in_set false quote_set c = true ↔ is_quote c.
Proof.
  unfold in_set, quote_set, is_quote. cbn [xorb existsb in_sitem].
  destruct (N.eqb_spec c squote), (N.eqb_spec c dquote); simpl;
    split; intros H; try tauto; try done.
Qed.

Lemma in_quote_set_false c : ¬ is_quote c → in_set false quote_set c = false.
Proof.
  intros Hc. destruct (in_set false quote_set c) eqn:H; [|done].
  by apply in_quote_set in H.
Qed.

Lemma in_not_set x c : c ≠ x → in_set true [SChar x] c = true.
Proof.
  intros Hc. unfold in_set. cbn [existsb in_sitem xorb].
  by destruct (N.eqb_spec c x).
Qed.

Lemma in_space_set w :
  Forall (λ c, is_space c = true) w → Forall (λ c, in_set false [SSpace] c = true) w.
Proof.
  intros H. eapply Forall_impl; [exact H|]. intros c Hc.
  unfold in_set. cbn [existsb in_sitem xorb]. by rewrite Hc.
Qed.

Lemma quote_not_space q : is_quote q → in_set false [SSpace] q = false.
Proof. by intros [->| ->]. Qed.

(** The rest of the pattern needs three quote characters. *)
Lemma concat_tail_quotes prev s caps m rest caps' q :
  pdenotes pattern_concat_tail prev s caps m rest caps' →
  caps !! 2%nat = Some [q] → is_quote q → (3 ≤ quotes m)%nat.
Proof.
  intros H H2 Hq.
  let r := eval vm_compute in pattern_concat_tail in change pattern_concat_tail with r in H.
  inv_pdenotes.
  repeat match goal with
  | H : in_set false [SChar 39; SChar 34] ?c = true |- _ =>
      apply (in_quote_set c) in H
  end.
  repeat match goal with
  | H : <[_:=_]> _ !! _ = Some _ |- _ =>
      first [ rewrite lookup_insert_eq in H | rewrite lookup_insert_ne in H by done ]
  end.
  simplify_eq.
  match goal with
  | Hc : is_quote ?c |- (3 ≤ quotes ([q] ++ _ ++ _ ++ _ ++ [?c] ++ _))%nat =>
      rewrite !quotes_app, !(quotes_cons_quote q), !(quotes_cons_quote c) by done
  end.
  lia.
Qed.

(** No match of the pattern starts at a character that is not a quote. *)
Lemma concat_first c prev t : ¬ is_quote c → pmatch_at pattern_concat prev (c :: t) = None.
Proof.
  intros Hc. unfold pmatch_at. rewrite pattern_concat_unfold. cbn [pmatch].
  by rewrite in_quote_set_false.
Qed.

Lemma concatenate_needs fuel line :
  ch "+" ∉ line ∨ (quotes line < 4)%nat → concatenate (S fuel) line = Done line.
Proof. intros H. cbn [concatenate]. by rewrite psearch_concat_needs. Qed.

Lemma psearch_skip p prev u s :
  Forall (λ c, ∀ prev' t, pmatch_at p prev' (c :: t) = None) u →
  psearch p prev (u ++ s)
  = match psearch p (last_of prev u) s with
    | Some (before, m, rest) => Some (u ++ before, m, rest)
    | None => None
    end.
Proof.
  intros Hu. revert prev. induction Hu as [|c u Hc _ IH]; intros prev.
  - cbn [app]. rewrite last_of_nil. by destruct (psearch p prev s) as [[[??]?]|].
  - cbn [app psearch]. rewrite Hc, IH, last_of_cons.
    by destruct (psearch p (last_of (Some c) u) s) as [[[??]?]|].
Qed.

Lemma psearch_here p prev s m rest :
  pmatch_at p prev s = Some (m, rest) → psearch p prev s = Some ([], m, rest).
Proof. intros H. destruct s; simpl; by rewrite H. Qed.

Lemma strip_prefix_quote_None q x :
  is_quote q → match x with [] => True | c :: _ => ¬ is_quote c end →
  strip_prefix [q] x = None.
Proof.
  intros Hq Hx. destruct x as [|c x]; [done|]. apply strip_prefix_head_ne.
  by intros <-.
Qed.

Lemma suffix_head (P : N → Prop) m2 x2 post :
  Forall P post → post = m2 ++ x2 → match x2 with [] => True | c :: _ => P c end.
Proof.
  intros Hpost ->. apply Forall_app in Hpost as [_ Hx]. by destruct Hx.
Qed.

(** The match of the pattern at two literals with a plus sign between
    them: the first quoted text stops at its closing quote, the second at
    the last quote of its kind, which is its own when no quote follows. *)
Lemma concat_match_here prev q q' a b w1 w2 post :
  is_quote q → is_quote q' → a ≠ [] → b ≠ [] →
  Forall (λ c, ¬ is_quote c) b → Forall (λ c, ¬ is_quote c) post →
  Forall (λ c, c ≠ 2) a → Forall (λ c, c ≠ 4) b →
  Forall (λ c, is_space c = true) w1 → Forall (λ c, is_space c = true) w2 →
  pmatch_at pattern_concat prev
    (literal q a ++ w1 ++ [ch "+"] ++ w2 ++ literal q' b ++ post)
  = Some ({| p_group := literal q a ++ w1 ++ [ch "+"] ++ w2 ++ literal q' b;
             p_groups :=
               <[1%nat := literal q a ++ w1 ++ [ch "+"] ++ w2 ++ literal q' b]>
                 (<[5%nat := b]> (<[4%nat := [q']]> (<[3%nat := a]> (<[2%nat := [q]]> ∅)))) |},
          post).
Proof.
  intros Hq Hq' Ha Hb Hbq Hpost Ha2 Hb4 Hw1 Hw2.
  destruct a as [|a0 a]; [done|]. destruct b as [|b0 b]; [done|].
  apply Forall_cons in Ha2 as [Ha0 Ha2]. apply Forall_cons in Hb4 as [Hb0 Hb4].
  unfold pmatch_at, literal. rewrite pattern_concat_unfold.
  rewrite <-!(assoc_L (++)). cbn [app pmatch].
  rewrite (proj2 (in_quote_set q) Hq), (in_not_set 2 a0 Ha0).
  assert (∀ w, Forall (λ c, is_space c = true) w → quotes w = 0%nat) as Hspace.
  { intros w Hw. apply quotes_none. eapply Forall_impl; [exact Hw|].
    intros c Hc [->| ->]; done. }
  apply star_split.
  { eapply Forall_impl; [exact Ha2|]. intros c. apply in_not_set. }
  { intros m2 x2 Hm2 Hx _.
    match goal with |- ?t = None => destruct t as [r|] eqn:E; [exfalso|done] end.
    apply pmatch_sound in E as (m & rest & caps' & Hd & _).
    pose proof (pdenotes_app _ _ _ _ _ _ _ Hd) as Hx2.
    eapply concat_tail_quotes in Hd;
      [|by rewrite lookup_insert_ne, lookup_insert_eq by done|done].
    destruct m2 as [|c m2]; [done|].
    apply (f_equal (λ l, quotes (drop 1 l))) in Hx. cbn [app skipn] in Hx. rewrite !drop_0 in Hx. subst x2.
    change (ch "+" :: w2 ++ q' :: b0 :: b ++ q' :: post)
      with ([ch "+"] ++ w2 ++ [q'] ++ (b0 :: b) ++ [q'] ++ post) in Hx.
    rewrite !quotes_app, !(quotes_cons_quote q'), (Hspace w1), (Hspace w2) in Hx by done.
    rewrite (quotes_none (b0 :: b)), (quotes_none post) in Hx by done.
    change (quotes [ch "+"]) with 0%nat in Hx. change (quotes []) with 0%nat in Hx.
    lia. }
  unfold pattern_concat_tail. cbn [pcat foldr pmatch].
  rewrite lookup_insert_ne, lookup_insert_eq by done.
  cbn [strip_prefix]. rewrite N.eqb_refl.
  apply star_greedy; [by apply in_space_set|done|].
  change (in_set false [SChar (ch "+")] (ch "+")) with true. cbv iota.
  apply star_greedy; [by apply in_space_set|by apply quote_not_space|].
  rewrite (proj2 (in_quote_set q') Hq'), (in_not_set 4 b0 Hb0).
  apply Forall_cons in Hbq as [_ Hbq].
  apply star_split.
  { eapply Forall_impl; [exact Hb4|]. intros c. apply in_not_set. }
  { intros m2 x2 Hm2 Hx _.
    rewrite lookup_insert_ne, lookup_insert_eq by done.
    destruct m2 as [|c m2]; [done|]. injection Hx as _ Hx.
    rewrite strip_prefix_quote_None; [done|done|].
    exact (suffix_head _ _ _ _ Hpost Hx). }
  rewrite lookup_insert_ne, lookup_insert_eq by done.
  cbn [strip_prefix]. rewrite N.eqb_refl. cbn [app].
  by rewrite ?app_nil_r.
Qed.

Lemma concat_groups (whole g2 g3 g4 g5 : text) :
  let m := {| p_group := whole;
              p_groups := <[1%nat := whole]> (<[5%nat := g5]> (<[4%nat := g4]>
                            (<[3%nat := g3]> (<[2%nat := g2]> ∅)))) |} in
  group m 2 = g2 ∧ group m 3 = g3 ∧ group m 5 = g5.
Proof.
  unfold group. cbn [p_groups]. by split; [|split].
Qed.

Lemma concatenate_unfold fuel line :
  concatenate (S fuel) line
  = match psearch pattern_concat None line with
    | Some (_, m, _) => concatenate fuel (concatenate_step line m)
    | None => Done line
    end.
Proof. done. Qed.

Lemma literal_joined_quotes pre post q a b :
  is_quote q → Forall (λ c, ¬ is_quote c) (pre ++ a ++ b ++ post) →
  quotes (pre ++ literal q (a ++ b) ++ post) = 2%nat.
Proof.
  intros Hq Hfree. unfold literal.
  apply Forall_app in Hfree as [Hpre Hfree]. apply Forall_app in Hfree as [Haq Hfree].
  apply Forall_app in Hfree as [Hbq Hpost].
  rewrite !quotes_app, !(quotes_cons_quote q) by done.
  by rewrite !quotes_none by done.
Qed.

(** X18.  Two literals with a plus sign between them, in a line that holds no
    other quote character, the first text without the character of code 2
    and the second without the character of code 4 (the sets [^\2] and
    [^\4] of the pattern leave out exactly these): they become one literal
    in the quotes of the first, the texts are put end to end whichever
    kind of quote the second literal has, and the text around them
    stays. *)
Theorem concatenate_joins fuel pre post q q' a b w1 w2 :
  is_quote q → is_quote q' → a ≠ [] → b ≠ [] →
  Forall (λ c, ¬ is_quote c) (pre ++ a ++ b ++ post) →
  Forall (λ c, c ≠ 2) a → Forall (λ c, c ≠ 4) b →
  Forall (λ c, is_space c = true) (w1 ++ w2) →
  concatenate (S (S fuel))
    (pre ++ literal q a ++ w1 ++ [ch "+"] ++ w2 ++ literal q' b ++ post)
  = Done (pre ++ literal q (a ++ b) ++ post).
Proof.
  intros Hq Hq' Ha Hb Hfree Ha2 Hb4 Hw.
  pose proof (literal_joined_quotes pre post q a b Hq Hfree) as Hquotes.
  apply Forall_app in Hfree as [Hpre Hfree]. apply Forall_app in Hfree as [Haq Hfree].
  apply Forall_app in Hfree as [Hbq Hpost]. apply Forall_app in Hw as [Hw1 Hw2].
  rewrite concatenate_unfold, psearch_skip.
  2:{ eapply Forall_impl; [exact Hpre|]. intros c Hc prev' t. by apply concat_first. }
  rewrite (psearch_here _ _ _ _ _
    (concat_match_here (last_of None pre) q q' a b w1 w2 post
       Hq Hq' Ha Hb Hbq Hpost Ha2 Hb4 Hw1 Hw2)).
  unfold concatenate_step.
  destruct (concat_groups (literal q a ++ w1 ++ [ch "+"] ++ w2 ++ literal q' b)
    [q] a [q'] b) as (-> & -> & ->).
  cbn [p_group].
  replace (literal q a ++ w1 ++ [ch "+"] ++ w2 ++ literal q' b ++ post)
    with ((literal q a ++ w1 ++ [ch "+"] ++ w2 ++ literal q' b) ++ post)
    by (by rewrite <-!(assoc_L (++))).
  change (literal q a ++ w1 ++ [ch "+"] ++ w2 ++ literal q' b)
    with (q :: (a ++ [q]) ++ w1 ++ [ch "+"] ++ w2 ++ literal q' b).
  assert (∀ u, Forall (λ c, ¬ is_quote c) u → Forall (λ c, c ≠ q) u) as Hnq.
  { intros u Hu. eapply Forall_impl; [exact Hu|]. by intros c Hc ->. }
  rewrite replace_skip by auto.
  rewrite replace_hit by done.
  rewrite replace_skip_all by auto.
  change ([q] ++ (a ++ b) ++ [q]) with (literal q (a ++ b)).
  apply concatenate_needs. right. rewrite Hquotes. lia.
Qed.

(** *** [title_case_line] *)

Lemma sub_go_Forall2 (R : N → N → Prop) fuel p repl prev s :
  (∀ c, R c c) → (∀ m, Forall2 R (p_group m) (repl m)) →
  Forall2 R s (sub_go fuel p repl prev s).
Proof.
  intros Hrefl Hrepl. revert prev s.
  induction fuel as [|fuel IH]; intros prev s; [by apply Forall_Forall2_diag, Forall_true|].
  cbn [sub_go].
  destruct (psearch p prev s) as [[[before m] rest]|] eqn:Hs;
    [|by apply Forall_Forall2_diag, Forall_true].
  apply psearch_sound in Hs as (-> & _ & _).
  apply Forall2_app; [by apply Forall_Forall2_diag, Forall_true|].
  apply Forall2_app; [done|].
  destruct (p_group m) as [|c g]; [|apply IH].
  destruct rest as [|c rest]; [done|]. constructor; [done|apply IH].
Qed.

Lemma is_upper_spec c : is_upper c = true ↔ 65 ≤ c ≤ 90.
Proof. unfold is_upper. rewrite andb_true_iff, !N.leb_le. done. Qed.

Lemma is_lower_spec c : is_lower c = true ↔ 97 ≤ c ≤ 122.
Proof. unfold is_lower. rewrite andb_true_iff, !N.leb_le. done. Qed.

Lemma to_lower_idemp c : to_lower (to_lower c) = to_lower c.
Proof.
  unfold to_lower. destruct (is_upper c) eqn:Hu; [|by rewrite Hu].
  destruct (is_upper (c + 32)) eqn:Hu'; [|done].
  apply is_upper_spec in Hu, Hu'. lia.
Qed.

Lemma to_lower_upper c : to_lower (to_upper c) = to_lower c.
Proof.
  unfold to_lower, to_upper. destruct (is_lower c) eqn:Hl; [|done].
  apply is_lower_spec in Hl.
  destruct (is_upper (c - 32)) eqn:Hu.
  - destruct (is_upper c) eqn:Hu'; [apply is_upper_spec in Hu'|]; lia.
  - apply not_true_iff_false in Hu. rewrite is_upper_spec in Hu. lia.
Qed.

Lemma title_go_same_letter b s : Forall2 same_letter s (title_go b s).
Proof.
  revert b. induction s as [|c s IH]; intros b; [constructor|].
  cbn [title_go]. constructor; [|apply IH].
  unfold same_letter. destruct b; [by rewrite to_lower_idemp|by rewrite to_lower_upper].
Qed.

(** X19.  [title_case_line] changes the case of ASCII letters and nothing else:
    the line it returns has the length of the line it was given and, at
    every place, the same character up to case. *)
Theorem title_case_keeps_letters line :
  Forall2 same_letter line (title_case_line line).
Proof.
  apply sub_go_Forall2; [done|]. intros m. apply title_go_same_letter.
Qed.

(** *** On ASCII text [title_case_line] is [str.title] of the line *)

Lemma word_in_set c :
  is_ascii c = true → is_word c = true → in_set false word_set c = true.
Proof.
  intros Ha. unfold is_word, is_digit, digit_value, is_upper, is_lower. rewrite Ha.
  unfold in_set, word_set. cbn [existsb in_sitem xorb].
  change (ch "a") with 97. change (ch "z") with 122. change (ch "A") with 65.
  change (ch "Z") with 90. change (ch "0") with 48. change (ch "9") with 57.
  change (ch "_") with 95. change (ch ":") with 58.
  by destruct ((97 <=? c) && (c <=? 122)), ((65 <=? c) && (c <=? 90)),
    ((48 <=? c) && (c <=? 57)), (c =? 95).
Qed.

Lemma cased_word c : is_upper c || is_lower c = true → is_word c = true.
Proof.
  intros Hc. unfold is_word.
  assert (is_ascii c = true) as ->.
  { unfold is_ascii. apply N.ltb_lt.
    apply orb_true_iff in Hc as [H%is_upper_spec|H%is_lower_spec]; lia. }
  by rewrite Hc.
Qed.

Lemma not_word_plain c :
  is_word c = false →
  is_upper c || is_lower c = false ∧ to_lower c = c ∧ to_upper c = c.
Proof.
  intros Hw. destruct (is_upper c || is_lower c) eqn:Hc.
  { apply cased_word in Hc. congruence. }
  apply orb_false_iff in Hc as [Hu Hl]. unfold to_lower, to_upper. by rewrite Hu, Hl.
Qed.

Lemma title_go_plain b s : Forall (λ c, is_word c = false) s → title_go b s = s.
Proof.
  intros Hs. revert b. induction Hs as [|c s Hc _ IH]; intros b; [done|].
  cbn [title_go]. destruct (not_word_plain c Hc) as (-> & -> & ->).
  rewrite IH. by destruct b.
Qed.

Lemma title_go_app prev x y :
  title_go (cased prev) (x ++ y)
  = title_go (cased prev) x ++ title_go (cased (last_of prev x)) y.
Proof.
  revert prev. induction x as [|c x IH]; intros prev; [done|].
  cbn [app title_go]. f_equal. rewrite last_of_cons. apply (IH (Some c)).
Qed.

Lemma star_complete {R} p m rest (k : text → text → option R) :
  Forall (λ c, p c = true) m → is_Some (k m rest) → is_Some (star p (m ++ rest) k).
Proof.
  intros Hm. revert k. induction Hm as [|c m Hc _ IH]; intros k Hk.
  - destruct rest as [|c rest]; [done|]. simpl.
    destruct (p c); [|done]. by destruct (star p rest _).
  - cbn [app star]. rewrite Hc.
    destruct (IH (λ m0 rest0, k (c :: m0) rest0) Hk) as [r ->]. by eexists.
Qed.

(** The longest run of word characters at the start of a text. *)
Lemma word_run t :
  ∃ w rest, t = w ++ rest ∧ Forall (λ c, is_word c = true) w ∧ wordp (head rest) = false.
Proof.
  induction t as [|c t (w & rest & -> & Hw & Hrest)]; [by exists [], []|].
  destruct (is_word c) eqn:Hc.
  - exists (c :: w), rest. by repeat split; [constructor|].
  - by exists [], (c :: w ++ rest).
Qed.

Lemma wordp_last_of c w :
  is_word c = true → Forall (λ c, is_word c = true) w → wordp (last_of (Some c) w) = true.
Proof.
  intros Hc Hw. unfold last_of. destruct (last w) as [x|] eqn:Hx; [|done].
  apply last_Some in Hx as [w' ->]. apply Forall_app in Hw as [_ Hw].
  by apply Forall_cons in Hw as [? _].
Qed.

(** On ASCII text a match starts at every word character that follows no
    word character. *)
Lemma word_match_starts prev c t :
  wordp prev = false → is_word c = true → ascii_text (c :: t) →
  is_Some (pmatch_at pattern_word prev (c :: t)).
Proof.
  intros Hprev Hc Hascii. apply Forall_cons in Hascii as [Ha Hascii].
  unfold pmatch_at, pattern_word. cbn [pcat foldr pmatch].
  unfold at_boundary at 1. fold (wordp prev). rewrite Hprev. cbn [head from_option].
  rewrite Hc. cbn [xorb]. rewrite (word_in_set c) by done.
  destruct (word_run t) as (w & rest & -> & Hw & Hrest).
  apply Forall_app in Hascii as [Haw _].
  apply star_complete.
  - rewrite Forall_forall in Hw, Haw. apply Forall_forall. intros x Hx.
    apply word_in_set; auto.
  - unfold at_boundary. fold (wordp (last_of (Some c) w)). fold (wordp (head rest)).
    rewrite wordp_last_of, Hrest by done. by eexists.
Qed.

Lemma word_shape prev s caps m rest caps' :
  pdenotes pattern_word prev s caps m rest caps' →
  ∃ c g, m = c :: g ∧ at_boundary prev s = true ∧
         at_boundary (last_of prev m) rest = true.
Proof.
  intros H.
  let r := eval vm_compute in pattern_word in change pattern_word with r in H.
  inv_pdenotes. rewrite app_nil_r. cbn [app]. by eauto.
Qed.

Lemma boundary_fresh prev s : at_boundary prev s = true → fresh prev s.
Proof.
  unfold at_boundary, fresh, wordp.
  by destruct (from_option is_word false prev), (from_option is_word false (head s)).
Qed.

Lemma psearch_None_all p prev s :
  psearch p prev s = None →
  ∀ b1 c b2, s = b1 ++ c :: b2 → pmatch_at p (last_of prev b1) (c :: b2 ++ []) = None.
Proof.
  revert prev. induction s as [|x s IH]; intros prev Hs b1 c b2 Heq.
  - by destruct b1.
  - apply psearch_None_cons in Hs as [Hx Hs].
    destruct b1 as [|y b1]; injection Heq as -> ->.
    + by rewrite app_nil_r.
    + rewrite last_of_cons. by apply IH.
Qed.

(** Before the leftmost match there is no word character. *)
Lemma no_word_before prev u x :
  fresh prev (u ++ x) → ascii_text (u ++ x) →
  (∀ b1 c b2, u = b1 ++ c :: b2 →
     pmatch_at pattern_word (last_of prev b1) (c :: b2 ++ x) = None) →
  Forall (λ c, is_word c = false) u.
Proof.
  revert prev. induction u as [|c u IH]; intros prev Hfresh Hascii Hleft; [done|].
  pose proof (Hleft [] c u eq_refl) as Hc. rewrite last_of_nil in Hc.
  destruct (is_word c) eqn:Hw.
  - unfold fresh in Hfresh. cbn [app head wordp from_option] in Hfresh.
    rewrite Hw, andb_true_r in Hfresh.
    destruct (word_match_starts prev c (u ++ x)) as [r Hr]; [done|done|done|].
    congruence.
  - constructor; [done|]. apply (IH (Some c)).
    + unfold fresh. cbn [wordp from_option]. by rewrite Hw.
    + by apply Forall_cons in Hascii as [_ ?].
    + intros b1 c' b2 ->. rewrite <-(last_of_cons prev). by apply (Hleft (c :: b1)).
Qed.

Lemma sub_title fuel prev s :
  (length s < fuel)%nat → ascii_text s → fresh prev s →
  sub_go fuel pattern_word title_case_word prev s = title_go (cased prev) s.
Proof.
  revert prev s. induction fuel as [|fuel IH]; intros prev s Hfuel Hascii Hfresh; [lia|].
  cbn [sub_go].
  destruct (psearch pattern_word prev s) as [[[before m] rest]|] eqn:Hs.
  - apply psearch_sound in Hs as (-> & Hd & Hleft).
    apply word_shape in Hd as (c & g & Hm & Hb1 & Hb2).
    pose proof (no_word_before prev before _ Hfresh Hascii Hleft) as Hbefore.
    unfold title_case_word, title. rewrite Hm in *.
    rewrite !title_go_app, (title_go_plain _ before) by done.
    apply Forall_app in Hascii as [_ Hascii]. apply Forall_app in Hascii as [_ Hascii].
    rewrite IH; [|rewrite !length_app in Hfuel; simpl in Hfuel; lia|done
                 |by apply boundary_fresh].
    do 2 f_equal.
    destruct (cased (last_of prev before)) eqn:Hcased; [|done].
    assert (wordp (last_of prev before) = true) as Hword.
    { unfold cased, wordp in *. destruct (last_of prev before) as [y|]; [|done].
      by apply cased_word. }
    unfold at_boundary in Hb1. fold (wordp (last_of prev before)) in Hb1.
    rewrite Hword in Hb1. cbn [app head from_option] in Hb1.
    destruct (is_word c) eqn:Hc; [done|].
    cbn [title_go]. by destruct (not_word_plain c Hc) as (-> & -> & ->).
  - rewrite title_go_plain; [done|].
    apply (no_word_before prev s []); rewrite ?app_nil_r; [done|done|].
    intros b1 c b2 Heq. by apply (psearch_None_all _ _ _ Hs).
Qed.

Lemma title_go_idemp b s : title_go b (title_go b s) = title_go b s.
Proof.
  revert b. induction s as [|c s IH]; intros b; [done|].
  cbn [title_go].
  assert (is_upper (if b then to_lower c else to_upper c)
          || is_lower (if b then to_lower c else to_upper c)
          = is_upper c || is_lower c) as ->.
  { unfold to_lower, to_upper.
    destruct b, (is_upper c) eqn:Hu, (is_lower c) eqn:Hl; rewrite ?Hu, ?Hl; try done.
    - apply is_upper_spec in Hu.
      assert (is_lower (c + 32) = true) as -> by (apply is_lower_spec; lia).
      by rewrite orb_true_r.
    - apply is_upper_spec in Hu.
      assert (is_lower (c + 32) = true) as -> by (apply is_lower_spec; lia).
      by rewrite orb_true_r.
    - apply is_lower_spec in Hl. apply is_upper_spec in Hu. lia.
    - apply is_lower_spec in Hl.
      by assert (is_upper (c - 32) = true) as -> by (apply is_upper_spec; lia). }
  rewrite IH. f_equal.
  destruct b; [apply to_lower_idemp|].
  unfold to_upper. destruct (is_lower c) eqn:Hl; [|by rewrite Hl].
  apply is_lower_spec in Hl.
  destruct (is_lower (c - 32)) eqn:Hl'; [|done]. apply is_lower_spec in Hl'. lia.
Qed.

(** X20.  On a line of ASCII characters [title_case_line] is [str.title] of the
    whole line: every letter that follows a letter comes out in lower
    case and every other letter in upper case, whatever stands between
    the words, an apostrophe or a digit included. *)
Theorem title_case_line_ascii line :
  ascii_text line → title_case_line line = title line.
Proof.
  intros Hascii. unfold title_case_line, sub. by apply sub_title; [lia|done|].
Qed.

(** *** A second pass of [title_case_line] *)

Section Blind.
Context (R : N → N → Prop).
Context (R_word : ∀ c c', R c c' → is_word c = is_word c').

Lemma star_rel {A B} (Q : A → B → Prop) p s s'
    (k : text → text → option A) (k' : text → text → option B) :
  (∀ c c', R c c' → p c = p c') → Forall2 R s s' →
  (∀ m m' r r', Forall2 R m m' → Forall2 R r r' →
     option_Forall2 Q (k m r) (k' m' r')) →
  option_Forall2 Q (star p s k) (star p s' k').
Proof.
  intros Hp Hs. revert k k'.
  induction Hs as [|c c' s s' Hc Hs IH]; intros k k' Hk; simpl.
  - apply Hk; constructor.
  - rewrite <-(Hp c c' Hc). destruct (p c); [|apply Hk; by constructor].
    assert (option_Forall2 Q
      (star p s (λ m rest, k (c :: m) rest)) (star p s' (λ m rest, k' (c' :: m) rest)))
      as Hrec.
    { apply IH. intros m m' r r' Hm Hr. apply Hk; [by constructor|done]. }
    destruct Hrec; [by constructor|]. apply Hk; by constructor.
Qed.

Lemma wordp_last_of_rel prev prev' m m' :
  wordp prev = wordp prev' → Forall2 R m m' →
  wordp (last_of prev m) = wordp (last_of prev' m').
Proof.
  intros Hprev Hm. revert prev prev' Hprev.
  induction Hm as [|c c' m m' Hc _ IH]; intros prev prev' Hprev; [done|].
  rewrite !last_of_cons. apply IH. by apply R_word.
Qed.

Lemma wordp_head_rel s s' : Forall2 R s s' → wordp (head s) = wordp (head s').
Proof. intros [|c c' ? ? Hc _]; [done|]. by apply R_word. Qed.

Lemma pmatch_rel {A B} (Q : A → B → Prop) p :
  blind R p →
  ∀ prev prev' s s' caps caps'
    (k : text → option N → text → gmap nat text → option A)
    (k' : text → option N → text → gmap nat text → option B),
  wordp prev = wordp prev' → Forall2 R s s' →
  (∀ m m' p1 p1' r r' c1 c1',
     Forall2 R m m' → wordp p1 = wordp p1' → Forall2 R r r' →
     option_Forall2 Q (k m p1 r c1) (k' m' p1' r' c1')) →
  option_Forall2 Q (pmatch p prev s caps k) (pmatch p prev' s' caps' k').
Proof.
  induction p as [|neg items|neg items|neg items|p1 IH1 p2 IH2|n p IH|n|];
    intros Hblind prev prev' s s' caps caps' k k' Hprev Hs Hk; cbn [pmatch blind] in *.
  - apply Hk; [constructor|done|done].
  - destruct Hs as [|c c' s s' Hc Hs]; [constructor|].
    rewrite <-(Hblind c c' Hc). destruct (in_set neg items c); [|constructor].
    apply Hk; [by repeat constructor|by apply R_word|done].
  - apply star_rel; [done|done|]. intros m m' r r' Hm Hr.
    apply Hk; [done|by apply wordp_last_of_rel|done].
  - destruct Hs as [|c c' s s' Hc Hs]; [constructor|].
    rewrite <-(Hblind c c' Hc). destruct (in_set neg items c); [|constructor].
    apply star_rel; [done|done|]. intros m m' r r' Hm Hr.
    apply Hk; [by constructor| |done].
    apply wordp_last_of_rel; [by apply R_word|done].
  - destruct Hblind as [Hb1 Hb2]. apply IH1; [done|done|done|].
    intros m1 m1' q1 q1' r1 r1' c1 c1' Hm1 Hq1 Hr1.
    apply IH2; [done|done|done|].
    intros m2 m2' q2 q2' r2 r2' c2 c2' Hm2 Hq2 Hr2.
    apply Hk; [by apply Forall2_app|done|done].
  - apply IH; [done|done|done|].
    intros m m' q q' r r' c1 c1' Hm Hq Hr. by apply Hk.
  - done.
  - unfold at_boundary. fold (wordp prev) (wordp prev') (wordp (head s)) (wordp (head s')).
    rewrite Hprev, (wordp_head_rel s s' Hs).
    destruct (xorb _ _); [|constructor]. apply Hk; [constructor|done|done].
Qed.

Lemma psearch_rel p prev prev' s s' :
  blind R p → wordp prev = wordp prev' → Forall2 R s s' →
  option_Forall2 (found_alike R) (psearch p prev s) (psearch p prev' s').
Proof.
  intros Hblind Hprev Hs. revert prev prev' Hprev.
  assert (∀ prev prev' s s', wordp prev = wordp prev' → Forall2 R s s' →
    option_Forall2 (λ x y, Forall2 R (p_group x.1) (p_group y.1) ∧ Forall2 R x.2 y.2)
      (pmatch_at p prev s) (pmatch_at p prev' s')) as Hat.
  { intros prev prev' t t' Hprev Ht. unfold pmatch_at.
    apply pmatch_rel; [done|done|done|]. intros. by constructor. }
  induction Hs as [|c c' s s' Hc Hs IH]; intros prev prev' Hprev; cbn [psearch].
  - destruct (Hat prev prev' [] [] Hprev) as [[m r] [m' r'] [Hm Hr]|]; constructor.
    repeat split; [constructor|done|done].
  - destruct (Hat prev prev' (c :: s) (c' :: s') Hprev) as [[m r] [m' r'] [Hm Hr]|];
      [by constructor| |].
    { constructor. repeat split; [constructor|done|done]. }
    destruct (IH (Some c) (Some c')) as [[[b m] r] [[b' m'] r'] (Hb & Hm & Hr)|];
      [by apply R_word| |constructor].
    constructor. repeat split; [by constructor|done|done].
Qed.

End Blind.

Lemma same_letter_cases c c' :
  same_letter c c' →
  c = c' ∨ (65 ≤ c ≤ 90 ∧ c' = c + 32) ∨ (65 ≤ c' ≤ 90 ∧ c = c' + 32).
Proof.
  unfold same_letter, to_lower.
  destruct (is_upper c) eqn:Hu, (is_upper c') eqn:Hu'; try apply is_upper_spec in Hu;
    try apply is_upper_spec in Hu'; intros H.
  - left. lia.
  - right. left. by split.
  - right. right. by split.
  - by left.
Qed.

Lemma ascii_letter_word c : 65 ≤ c ≤ 90 ∨ 97 ≤ c ≤ 122 → is_word c = true.
Proof.
  intros Hc. apply cased_word. apply orb_true_iff.
  destruct Hc; [left; by apply is_upper_spec|right; by apply is_lower_spec].
Qed.

Lemma same_letter_word c c' : same_letter c c' → is_word c = is_word c'.
Proof.
  intros [->|[[Hc ->]|[Hc ->]]]%same_letter_cases; [done|..];
    rewrite !ascii_letter_word; (done || lia).
Qed.

Lemma ascii_letter_in_set c :
  65 ≤ c ≤ 90 ∨ 97 ≤ c ≤ 122 → in_set false word_set c = true.
Proof.
  intros Hc. apply word_in_set; [|by apply ascii_letter_word].
  unfold is_ascii. apply N.ltb_lt. lia.
Qed.

Lemma pattern_word_blind : blind same_letter pattern_word.
Proof.
  cbn [pattern_word pcat foldr blind]. split; [done|]. split; [|done].
  intros c c' [->|[[Hc ->]|[Hc ->]]]%same_letter_cases; [done|..];
    rewrite !ascii_letter_in_set; (done || lia).
Qed.

Lemma same_letter_refl s : Forall2 same_letter s s.
Proof. apply Forall_Forall2_diag, Forall_true. by intros c. Qed.

Lemma sub_title_same_letter fuel prev s :
  Forall2 same_letter s (sub_go fuel pattern_word title_case_word prev s).
Proof. apply sub_go_Forall2; [done|]. intros m. apply title_go_same_letter. Qed.

Lemma sub_go_hit fuel p repl prev s b m r c g :
  psearch p prev s = Some (b, m, r) → p_group m = c :: g →
  sub_go (S fuel) p repl prev s
  = b ++ repl m ++ sub_go fuel p repl (last_of (last_of prev b) (c :: g)) r.
Proof. intros Hs Hm. cbn [sub_go]. by rewrite Hs, Hm. Qed.

Lemma sub_go_miss fuel p repl prev s :
  psearch p prev s = None → sub_go (S fuel) p repl prev s = s.
Proof. intros Hs. cbn [sub_go]. by rewrite Hs. Qed.

Lemma sub_title_twice fuel s prev prev' :
  (length s < fuel)%nat → wordp prev = wordp prev' →
  sub_go fuel pattern_word title_case_word prev'
    (sub_go fuel pattern_word title_case_word prev s)
  = sub_go fuel pattern_word title_case_word prev s.
Proof.
  revert s prev prev'. induction fuel as [|fuel IH]; intros s prev prev' Hfuel Hprev; [lia|].
  pose proof (psearch_rel same_letter same_letter_word pattern_word prev prev') as Hrel.
  destruct (psearch pattern_word prev s) as [[[b m] r]|] eqn:Hs.
  - pose proof Hs as (-> & Hd & _)%psearch_sound.
    apply word_shape in Hd as (c & g & Hm & _ & _).
    rewrite (sub_go_hit _ _ _ _ _ _ _ _ _ _ Hs Hm).
    set (inner := sub_go fuel pattern_word title_case_word
                    (last_of (last_of prev b) (c :: g)) r).
    change (title_case_word m) with (title (p_group m)). rewrite Hm in *.
    pose proof (title_go_same_letter false (c :: g)) as Htitle.
    pose proof (title_go_idemp false (c :: g)) as Hidemp.
    fold (title (c :: g)) in Htitle, Hidemp.
    assert (∃ t0 tg, title (c :: g) = t0 :: tg) as (t0 & tg & Htg) by (by eexists _, _).
    rewrite Htg in *.
    assert (Forall2 same_letter (b ++ (c :: g) ++ r) (b ++ (t0 :: tg) ++ inner)) as HF.
    { apply Forall2_app; [apply same_letter_refl|].
      apply Forall2_app; [done|apply sub_title_same_letter]. }
    specialize (Hrel _ _ pattern_word_blind Hprev HF). rewrite Hs in Hrel.
    inversion Hrel as [x [[b2 m2] r2] (Hb & Hg & Hr) Hx Hs2|]; subst x.
    cbn [fst snd p_group] in Hb, Hg, Hr. rewrite Hm in Hg.
    symmetry in Hs2. pose proof Hs2 as (Heq & _ & _)%psearch_sound.
    apply Forall2_length in Hb, Hg.
    apply app_inj_1 in Heq as [<- Heq]; [|done].
    change (t0 :: tg ++ inner) with ((t0 :: tg) ++ inner) in Heq.
    apply app_inj_1 in Heq as [Hg2 <-].
    2:{ rewrite <-Hg. symmetry. by apply (Forall2_length same_letter). }
    rewrite (sub_go_hit _ _ _ _ _ _ _ _ t0 tg Hs2) by done.
    change (title_case_word m2) with (title (p_group m2)).
    rewrite <-Hg2. unfold title. rewrite Hidemp.
    do 2 f_equal. apply IH.
    + rewrite !length_app in Hfuel. simpl in Hfuel. lia.
    + apply (wordp_last_of_rel same_letter same_letter_word); [|done].
      apply (wordp_last_of_rel same_letter same_letter_word); [done|].
      apply same_letter_refl.
  - rewrite (sub_go_miss _ _ _ _ _ Hs).
    specialize (Hrel s s pattern_word_blind Hprev (same_letter_refl s)).
    rewrite Hs in Hrel. inversion Hrel as [|Hx Hs2]. symmetry in Hs2.
    by apply sub_go_miss.
Qed.

(** X21.  A second pass of [title_case_line] over its own result changes
    nothing, on any line and whatever letters and digits Python knows
    above the ASCII range; the same holds of [title_case_script], which
    returns one line for each line. *)
Theorem title_case_idempotent :
  (∀ line, title_case_line (title_case_line line) = title_case_line line) ∧
  (∀ lines, title_case_script (title_case_script lines) = title_case_script lines ∧
            length (title_case_script lines) = length lines).
Proof.
  assert (∀ line, title_case_line (title_case_line line) = title_case_line line) as H.
  { intros line. unfold title_case_line, sub.
    rewrite <-(Forall2_length _ _ _ (sub_title_same_letter (S (length line)) None line)).
    by apply sub_title_twice; [lia|]. }
  split; [exact H|]. intros lines. unfold title_case_script. split.
  - rewrite <-list_fmap_compose. apply list_fmap_ext. intros _ line _. apply H.
  - apply length_fmap.
Qed.

End Resolver.

(** ** Concrete runs of the claims *)

(** The expression in parentheses, on a line with a backtick and a
    character-code escape, between two other lines. *)
Lemma reorder_CAB_witness :
  deobfuscate_powershell_reorder ascii_only 2 [txt "Write-Host 1"]
  = Done [txt "Write-Host 1"] ∧
  deobfuscate_powershell_reorder ascii_only 2 [txt "$a = 1"] = Done [txt "$a = 1"] ∧
  char_prepass ascii_only (txt "i`ex(" ++ expr_CAB ++ txt ") + [char]72")
  = Done (txt "iex(" ++ expr_CAB ++ txt ") + 'H'") ∧
  holds opening (txt "iex(") = false ∧ holds token_opening (txt "iex(") = false ∧
  holds opening (txt ") + 'H'") = false ∧ holds token_opening (txt ") + 'H'") = false ∧
  deobfuscate_powershell_reorder ascii_only 2
    ([txt "Write-Host 1"] ++ (txt "i`ex(" ++ expr_CAB ++ txt ") + [char]72")
       :: [txt "$a = 1"])
  = Done ([txt "Write-Host 1"] ++ (txt "iex(" ++ txt "CAB" ++ txt ") + 'H'")
            :: [txt "$a = 1"]).
Proof.
  assert (deobfuscate_powershell_reorder ascii_only 2 [txt "Write-Host 1"]
          = Done [txt "Write-Host 1"]) as H1 by (vm_compute; reflexivity).
  assert (deobfuscate_powershell_reorder ascii_only 2 [txt "$a = 1"]
          = Done [txt "$a = 1"]) as H2 by (vm_compute; reflexivity).
  assert (char_prepass ascii_only (txt "i`ex(" ++ expr_CAB ++ txt ") + [char]72")
          = Done (txt "iex(" ++ expr_CAB ++ txt ") + 'H'")) as H3
    by (vm_compute; reflexivity).
  split; [exact H1|]. split; [exact H2|]. split; [exact H3|].
  split; [reflexivity|]. split; [reflexivity|].
  split; [reflexivity|]. split; [reflexivity|].
  exact (reorder_CAB_in_template_order ascii_only 0 _ _ _ _ _
           (txt "iex(") (txt ") + 'H'") H1 H2 H3 eq_refl eq_refl eq_refl eq_refl).
Defined.

(** After the text '{#subs_0} the expression is not replaced in its place:
    the final sweep takes the text before it, with the quote of the
    placeholder it has put there, for the placeholder. *)
Lemma token_before_counterexample :
  char_prepass ascii_only line_token_before = Done (txt "'{#subs_0}" ++ expr_CAB) ∧
  holds opening (txt "'{#subs_0}") = false ∧
  deobfuscate_powershell_reorder ascii_only 2 [line_token_before]
  = Done [txt "CAB{#subs_0}'"] ∧
  txt "CAB{#subs_0}'" ≠ txt "'{#subs_0}" ++ txt "CAB".
Proof. repeat split; [vm_compute; reflexivity..|discriminate]. Qed.

(** The patterns of the function match more than reorder expressions: the
    first line below is returned without its parenthesis, on the second
    the loop never ends. *)
Lemma loose_pattern_resolved :
  deobfuscate_powershell_reorder ascii_only 2
    [txt "$x = (" ++ [dquote] ++ txt "1+1" ++ [dquote] ++ txt " -f 2)"]
  = Done [txt "$x = "].
Proof. vm_compute. reflexivity. Qed.

Lemma loose_pattern_loops fuel :
  deobfuscate_powershell_reorder ascii_only fuel
    [txt "(" ++ [dquote] ++ txt "{0}" ++ [dquote] ++ txt " -f 1)"]
  = OutOfFuel.
Proof.
  unfold deobfuscate_powershell_reorder, deobfuscate_line. cbn [map_each].
  set (line := txt "(" ++ [dquote] ++ txt "{0}" ++ [dquote] ++ txt " -f 1)").
  assert (char_prepass ascii_only line = Done line) as -> by (by vm_compute).
  cbn [mbind outcome_bind].
  rewrite (scanning_stuck ascii_only (initial line)); [done|by vm_compute|].
  vm_compute. by eexists.
Qed.

(** The line [char]72 holds no reorder expression, not even a parenthesis,
    and is not returned unchanged. *)
Lemma clean_input_counterexample :
  Forall (λ line, ¬ holds_reorder_expression ascii_only line) [txt "[char]72"] ∧
  Forall (Forall (λ c, c ≠ ch "(")) [txt "[char]72"] ∧
  deobfuscate_powershell_reorder ascii_only 1 [txt "[char]72"] = Done [txt "'H'"] ∧
  txt "'H'" ≠ txt "[char]72".
Proof.
  split; [|split; [|split]];
    [|repeat constructor; discriminate|vm_compute; reflexivity|discriminate].
  repeat constructor.
  intros (pre & e & post & [t ->]%reorder_expression_opening & Hl).
  assert (ch "(" ∈ txt "[char]72") as Hin.
  { rewrite Hl. apply elem_of_app. right. by left. }
  vm_compute in Hin.
  repeat (apply elem_of_cons in Hin as [Hin|Hin]; [discriminate|]).
  by apply elem_of_nil in Hin.
Qed.

Lemma clean_lines_witness :
  Forall (clean_line ascii_only) [txt "Write-Host ('hello')"; txt "$a = $b[0] + `"] ∧
  deobfuscate_powershell_reorder ascii_only 1
    [txt "Write-Host ('hello')"; txt "$a = $b[0] + `"]
  = Done [txt "Write-Host ('hello')"; txt "$a = $b[0] + `"].
Proof.
  assert (Forall (clean_line ascii_only)
            [txt "Write-Host ('hello')"; txt "$a = $b[0] + `"]) as H.
  { repeat constructor; vm_compute; reflexivity. }
  split; [exact H|]. exact (clean_lines_unchanged ascii_only 0 _ H).
Defined.


(** The digit limit of [int]: 4300 digits are read, 4301 are refused,
    leading zeros counted. *)
Lemma digit_limit_boundary :
  char_prepass ascii_only (txt "[char]" ++ replicate 4298 48 ++ txt "72")
  = Done (txt "'H'") ∧
  char_prepass ascii_only (txt "[char]" ++ replicate 4299 48 ++ txt "72")
  = Raise ValueError.
Proof. split; vm_compute; reflexivity. Qed.

(** On a line with a resolvable expression and a bare placeholder shape the
    scanning loop ends after one sweep, the function returns, and the
    returned line still holds the shape {#subs_0}. *)
Lemma placeholder_left_counterexample :
  scanning ascii_only 2 (initial line_bare_token)
  = Done {| content := token 0 ++ txt " {#subs_0}";
            count_matches := 1;
            occurrences := {[ token 0 := txt "A" ]} |} ∧
  deobfuscate_line ascii_only 2 line_bare_token = Done (txt "A {#subs_0}") ∧
  search ascii_only true regex_placeholder (txt "A {#subs_0}")
  = Some (txt "A ", match_token 0, []).
Proof. split; [|split]; vm_compute; reflexivity. Qed.

(** A nested expression: the inner one is resolved in the first sweep, the
    outer one in the second, and the returned line holds no placeholder. *)
Lemma no_placeholder_left_witness :
  char_prepass ascii_only line_nested = Done line_nested ∧
  hash_free line_nested ∧
  scanning ascii_only 3 (initial line_nested)
  = Done {| content := token 1; count_matches := 2;
            occurrences := <[ token 1 := txt "cdb" ]> {[ token 0 := txt "cd" ]} |} ∧
  ∃ out, deobfuscate_line ascii_only 3 line_nested = Done out ∧ hash_free out ∧
         search ascii_only true regex_placeholder out = None.
Proof.
  assert (char_prepass ascii_only line_nested = Done line_nested) as H1
    by (vm_compute; reflexivity).
  assert (hash_free line_nested) as H2 by (repeat constructor; discriminate).
  assert (scanning ascii_only 3 (initial line_nested)
          = Done {| content := token 1; count_matches := 2;
                    occurrences := <[ token 1 := txt "cdb" ]> {[ token 0 := txt "cd" ]} |})
    as H3 by (vm_compute; reflexivity).
  split; [exact H1|]. split; [exact H2|]. split; [exact H3|].
  exact (no_placeholder_left ascii_only 3 _ _ _ H1 H2 H3).
Defined.

Lemma nested_resolves : deobfuscate_line ascii_only 3 line_nested = Done (txt "cdb").
Proof. vm_compute. reflexivity. Qed.

(** ** Concrete runs of the further properties *)

(** `a [char]72 b`: the escape becomes the quoted H and the backticks go. *)
Lemma single_escape_witness :
  char_prepass ascii_only (txt "`a " ++ (txt "[char]" ++ txt "72") ++ txt " b`")
  = Done (txt "a 'H' b").
Proof.
  apply (single_escape_converted ascii_only (txt "`a ") (txt "72") (txt " b`")).
  - repeat constructor; discriminate.
  - repeat constructor; discriminate.
  - discriminate.
  - repeat constructor; discriminate.
  - reflexivity.
  - simpl. lia.
  - reflexivity.
Defined.

Lemma unknown_placeholder_witness :
  search ascii_only true regex_finder (txt "x {#subs_0} y") = None ∧
  deobfuscate_line ascii_only 1 (txt "x {#subs_0} y") = Raise KeyError.
Proof.
  split; [vm_compute; reflexivity|].
  apply (unknown_placeholder_raises ascii_only 0 (txt "x {#subs_0} y")).
  - vm_compute. reflexivity.
  - vm_compute. reflexivity.
  - vm_compute. eexists. reflexivity.
Defined.

(** ("{5}" -f 'A') after a comment: one index, one fragment, and the index
    is 5. *)
Lemma unchecked_index_witness :
  char_prepass ascii_only (txt "# " ++ expr_out_of_range) = Done (txt "# " ++ expr_out_of_range) ∧
  ∃ e, deobfuscate_line ascii_only 1 (txt "# " ++ expr_out_of_range) = Raise e ∧
       (e = IndexError ∨ e = KeyError ∨ e = ValueError).
Proof.
  assert (char_prepass ascii_only (txt "# " ++ expr_out_of_range)
          = Done (txt "# " ++ expr_out_of_range)) as Hc by (vm_compute; reflexivity).
  split; [exact Hc|].
  apply (unchecked_index_raises ascii_only 0 _ _
           {| m_group := expr_out_of_range; m_groups := [txt "{5}"; txt "'A'"] |}
           (txt "5") Hc).
  - apply list_elem_of_In. vm_compute. left. reflexivity.
  - apply list_elem_of_In. vm_compute. left. reflexivity.
  - vm_compute. reflexivity.
  - vm_compute. lia.
Defined.

Lemma scanning_mismatch_witness :
  (parens (content (initial expr_mismatch)) < 2)%nat ∧
  scanning ascii_only 2 (initial expr_mismatch) = OutOfFuel ∧
  ∃ st', rtc (turn ascii_only) (initial expr_mismatch) st' ∧
         is_Some (search ascii_only true regex_finder (content st')) ∧
         Forall (mismatched ascii_only) (finditer ascii_only true regex_finder (content st')) ∧
         sweep ascii_only st' = Done st' ∧
         ∀ fuel', scanning ascii_only fuel' st' = OutOfFuel.
Proof.
  assert (parens (content (initial expr_mismatch)) < 2)%nat as H1 by (vm_compute; lia).
  assert (scanning ascii_only 2 (initial expr_mismatch) = OutOfFuel) as H2
    by (vm_compute; reflexivity).
  split; [exact H1|]. split; [exact H2|].
  exact (scanning_ends_unless_mismatch ascii_only 2 _ H1 H2).
Defined.

Lemma known_characters_witness :
  deobfuscate_line ascii_only 2 (txt "$s = " ++ expr_CAB) = Done (txt "$s = CAB") ∧
  Forall (λ x, x ∈ txt "$s = " ++ expr_CAB ∨ x ∈ token_alphabet) (txt "$s = CAB").
Proof.
  assert (deobfuscate_line ascii_only 2 (txt "$s = " ++ expr_CAB) = Done (txt "$s = CAB"))
    as H by (vm_compute; reflexivity).
  split; [exact H|].
  apply (resolver_writes_known_characters ascii_only 2 (txt "$s = " ++ expr_CAB)); [|exact H].
  vm_compute. reflexivity.
Defined.

(** The backtick that ends the line stays, pass after pass. *)
Lemma remove_ticks_witness :
  remove_ticks (txt "a`b`") = Done (txt "ab`") ∧
  remove_ticks (txt "ab`") = Done (txt "ab`") ∧ (length (txt "ab`") ≤ length (txt "a`b`"))%nat.
Proof.
  assert (remove_ticks (txt "a`b`") = Done (txt "ab`")) as H by (vm_compute; reflexivity).
  split; [exact H|]. exact (remove_ticks_idempotent _ _ H).
Defined.

Lemma concatenate_needs_witness :
  (quotes (txt "$a = 'x' + 1") < 4)%nat ∧
  concatenate ascii_only 1 (txt "$a = 'x' + 1") = Done (txt "$a = 'x' + 1").
Proof.
  assert (quotes (txt "$a = 'x' + 1") < 4)%nat as H by (vm_compute; lia).
  split; [exact H|].
  exact (concatenate_needs_plus_and_quotes ascii_only 0 _ (or_intror H)).
Defined.

(** 'a' + 'b' + 'c': two turns of the loop. *)
Lemma concatenate_idempotent_witness :
  concatenate ascii_only 3 (txt "'a' + 'b' + 'c'") = Done (txt "'abc'") ∧
  concatenate ascii_only 1 (txt "'abc'") = Done (txt "'abc'").
Proof.
  assert (concatenate ascii_only 3 (txt "'a' + 'b' + 'c'") = Done (txt "'abc'")) as H
    by (vm_compute; reflexivity).
  split; [exact H|]. exact (concatenate_idempotent ascii_only 3 0 _ _ H).
Defined.

(** $s = 'ab' + <dquote>cd<dquote>; comes back as $s = 'abcd'; *)
Lemma concatenate_joins_witness :
  concatenate ascii_only 2
    (txt "$s = " ++ literal squote (txt "ab") ++ txt " " ++ [ch "+"] ++ []
     ++ literal dquote (txt "cd") ++ txt ";" ++ [newline])
  = Done (txt "$s = " ++ literal squote (txt "ab" ++ txt "cd") ++ txt ";" ++ [newline]).
Proof.
  apply (concatenate_joins ascii_only 0 (txt "$s = ") (txt ";" ++ [newline])
           squote dquote (txt "ab") (txt "cd") (txt " ") []).
  - left. reflexivity.
  - right. reflexivity.
  - discriminate.
  - discriminate.
  - repeat constructor; intros [H|H]; discriminate H.
  - repeat constructor; discriminate.
  - repeat constructor; discriminate.
  - repeat constructor.
Defined.

Lemma concatenate_keeps_text_witness :
  concatenate ascii_only 3 (txt "$s = 'a' + 'b' + 'c'") = Done (txt "$s = 'abc'") ∧
  filter (λ c, glue ascii_only c = false) (txt "$s = 'abc'")
  = filter (λ c, glue ascii_only c = false) (txt "$s = 'a' + 'b' + 'c'").
Proof.
  assert (concatenate ascii_only 3 (txt "$s = 'a' + 'b' + 'c'") = Done (txt "$s = 'abc'"))
    as H by (vm_compute; reflexivity).
  split; [exact H|]. exact (concatenate_keeps_text ascii_only 3 _ _ H).
Defined.

Lemma title_case_witness :
  ascii_text (txt "wRiTe-hOsT don't") ∧
  title (txt "wRiTe-hOsT don't") = txt "Write-Host Don'T" ∧
  title_case_line ascii_only (txt "wRiTe-hOsT don't") = title (txt "wRiTe-hOsT don't").
Proof.
  assert (ascii_text (txt "wRiTe-hOsT don't")) as H by (repeat constructor).
  split; [exact H|]. split; [vm_compute; reflexivity|].
  exact (title_case_line_ascii ascii_only _ H).
Defined.

(** $x = ("{0}{1}" -f 'A','B','C'): two indices, three fragments. *)
Lemma every_mismatch_witness :
  Forall (mismatched ascii_only)
    (finditer ascii_only true regex_finder (txt "$x = " ++ expr_mismatch)) ∧
  ∀ fuel, deobfuscate_line ascii_only fuel (txt "$x = " ++ expr_mismatch) = OutOfFuel.
Proof.
  assert (Forall (mismatched ascii_only)
            (finditer ascii_only true regex_finder (txt "$x = " ++ expr_mismatch))) as H.
  { vm_compute. repeat constructor. discriminate. }
  split; [exact H|].
  apply (every_mismatch_never_returns ascii_only _ (txt "$x = " ++ expr_mismatch)).
  - vm_compute. reflexivity.
  - vm_compute. eexists. reflexivity.
  - exact H.
Defined.
